(** * Redux 4.0.0-beta.2: store engine, middleware and reducer composition

    A shallow embedding of [compose.js], [combineReducers.js],
    [createStore.js] and [applyMiddleware.js], and the properties of the
    repository's specification proved (or refuted) on it. *)

From Stdlib Require Import ZArith Lia.
From stdpp Require Import base option list strings.

Local Open Scope Z_scope.
Local Open Scope nat_scope.

(** * JavaScript values *)

Module Js.

#[local] Set Warnings "-register-all".

(** Objects are immutable records that carry the identity of their
    allocation ([id]); [===] on objects compares identities only.  Redux
    treats every state and action as immutable, and the only object the
    library itself writes to ([nextState] in [combination]) does not escape
    before it is complete.  [VFun f] is a client function (its body lives
    in a code table indexed by [f]); [VUnsub u] is the [unsubscribe] closure
    created by the [u]-th call of [subscribe]. *)
Inductive value : Type :=
| VUndef
| VNull
| VBool (b : bool)
| VNum (n : Z)
| VNaN
| VStr (s : string)
| VObj (id : nat) (props : list (string * value))
| VFun (f : nat)
| VUnsub (u : nat).

(** What a [throw] carries: a library [Error] with one of the messages of
    the source, the engine's [TypeError], or any value thrown by client
    code. *)
Inductive message : Type :=
| ExpectedEnhancerFunction
| ExpectedReducerFunction
| GetStateWhileReducing
| ExpectedListenerFunction
| SubscribeWhileReducing
| UnsubscribeWhileReducing
| ActionsMustBePlainObjects
| UndefinedTypeProperty
| ReducersMayNotDispatch
| ExpectedNextReducerFunction
| DispatchingWhileConstructing
| UndefinedDuringInitialization (key : string)
| UndefinedWhenProbed (key : string)
| UndefinedState (key : string) (actionType : option value).

Inductive error : Type :=
| Error (m : message)
| TypeError
| Thrown (v : value).

Inductive outcome (A : Type) : Type :=
| Ok (a : A)
| Err (e : error).
Arguments Ok {A} a.
Arguments Err {A} e.

(** [typeof v === 'function'] *)
Definition is_function (v : value) : bool :=
  match v with
  | VFun _ | VUnsub _ => true
  | _ => false
  end.

(** [typeof v === 'undefined'] *)
Definition is_undefined (v : value) : bool :=
  match v with
  | VUndef => true
  | _ => false
  end.

(** ToBoolean *)
Definition truthy (v : value) : bool :=
  match v with
  | VUndef | VNull | VNaN => false
  | VBool b => b
  | VNum n => negb (n =? 0)%Z
  | VStr s => negb (String.eqb s "")
  | VObj _ _ | VFun _ | VUnsub _ => true
  end.

(** [a === b] *)
Definition strict_eq (a b : value) : bool :=
  match a, b with
  | VUndef, VUndef => true
  | VNull, VNull => true
  | VBool x, VBool y => Bool.eqb x y
  | VNum x, VNum y => (x =? y)%Z
  | VStr x, VStr y => String.eqb x y
  | VObj i _, VObj j _ => Nat.eqb i j
  | VFun f, VFun g => Nat.eqb f g
  | VUnsub u, VUnsub v => Nat.eqb u v
  | _, _ => false
  end.

(** Records as association lists in [Object.keys] order (insertion order;
    the reordering of integer-like keys is not modelled). *)
Fixpoint lookup_key {A : Type} (k : string) (ps : list (string * A)) : option A :=
  match ps with
  | [] => None
  | (k', v) :: rest => if String.eqb k k' then Some v else lookup_key k rest
  end.

(** [obj[k] = v] for a key other than [__proto__]: overwrite in place, or
    append as the last key. *)
Fixpoint set_key {A : Type} (k : string) (v : A) (ps : list (string * A))
  : list (string * A) :=
  match ps with
  | [] => [(k, v)]
  | (k', v') :: rest =>
      if String.eqb k k' then (k, v) :: rest else (k', v') :: set_key k v rest
  end.

(** [obj[k] = v] on a record made by an object literal.  The key
    [__proto__] is the accessor of [Object.prototype]: assigning to it
    creates no property (it sets the prototype, when [v] is an object). *)
Definition assign {A : Type} (k : string) (v : A) (ps : list (string * A))
  : list (string * A) :=
  if String.eqb k "__proto__" then ps else set_key k v ps.

(** [Object.keys(obj)] *)
Definition keys {A : Type} (ps : list (string * A)) : list string := map fst ps.

(** Whether [k] is an own key of the record: what the [hasOwnProperty] of
    [Object.prototype] answers.  A call [obj.hasOwnProperty(k)] looks the
    method up in [obj] first, see [CombineReducers.hasOwnProperty]. *)
Definition has_own {A : Type} (k : string) (ps : list (string * A)) : bool :=
  match lookup_key k ps with
  | Some _ => true
  | None => false
  end.

(** [v[k]] for a key that no prototype of [v] holds, such as the [type] of
    a plain action: a [TypeError] on [undefined] and [null], the own
    property of a record, [undefined] otherwise.  A read that can reach the
    prototype chain, [state[key]] of combineReducers.js, is
    [CombineReducers.read]. *)
Definition get_prop (v : value) (k : string) : outcome value :=
  match v with
  | VUndef | VNull => Err TypeError
  | VObj _ ps => Ok (default VUndef (lookup_key k ps))
  | _ => Ok VUndef
  end.

(** Modelled from the spec: [utils/isPlainObject] is not among the sources;
    the specification calls it "a plain-object/record type guard".  It is
    false on everything that is not a record; for a record it depends on
    the prototype chain, which values do not carry, so [plain] tells which
    allocations are plain records. *)
Definition isPlainObject (plain : nat -> bool) (v : value) : bool :=
  match v with
  | VObj id _ => plain id
  | _ => false
  end.

(** [action && action.type] *)
Definition and_type (action : value) : value :=
  if truthy action
  then match get_prop action "type" with Ok t => t | Err _ => VUndef end
  else action.

(** [if (e)] on a caught error: library errors are objects. *)
Definition error_truthy (e : error) : bool :=
  match e with
  | Thrown v => truthy v
  | _ => true
  end.

(** ** Facts on records *)


Lemma lookup_key_set_key_ne {A : Type} (k k' : string) (v : A) ps :
  k <> k' -> lookup_key k' (set_key k v ps) = lookup_key k' ps.
Proof.
  intros Hne. induction ps as [|[k0 v0] ps IH]; simpl.
  - destruct (String.eqb_spec k' k); [congruence|reflexivity].
  - destruct (String.eqb_spec k k0) as [->|Hk]; simpl.
    + destruct (String.eqb_spec k' k0); [congruence|reflexivity].
    + destruct (String.eqb_spec k' k0); [reflexivity|exact IH].
Qed.

Lemma lookup_key_None {A : Type} (k : string) (ps : list (string * A)) :
  lookup_key k ps = None <-> ~ In k (keys ps).
Proof.
  induction ps as [|[k' v'] ps IH]; simpl; [tauto|].
  destruct (String.eqb_spec k k') as [->|Hne].
  - split; [discriminate|tauto].
  - rewrite IH. intuition congruence.
Qed.

Lemma set_key_fresh {A : Type} (k : string) (v : A) ps :
  lookup_key k ps = None -> set_key k v ps = ps ++ [(k, v)].
Proof.
  induction ps as [|[k' v'] ps IH]; simpl; [reflexivity|].
  destruct (String.eqb_spec k k'); [discriminate|].
  intros H. now rewrite IH.
Qed.

Lemma keys_set_key {A : Type} (k : string) (v : A) ps :
  keys (set_key k v ps) = if has_own k ps then keys ps else keys ps ++ [k].
Proof.
  unfold has_own. induction ps as [|[k' v'] ps IH]; simpl; [reflexivity|].
  destruct (String.eqb_spec k k') as [->|Hne]; simpl; [reflexivity|].
  rewrite IH. now destruct (lookup_key k ps).
Qed.

Lemma NoDup_keys_set_key {A : Type} (k : string) (v : A) ps :
  List.NoDup (keys ps) -> List.NoDup (keys (set_key k v ps)).
Proof.
  intros Hnd. rewrite keys_set_key. unfold has_own.
  destruct (lookup_key k ps) eqn:E; [exact Hnd|].
  apply lookup_key_None in E.
  apply NoDup_ListNoDup, NoDup_app. apply NoDup_ListNoDup in Hnd.
  split; [exact Hnd|]. split.
  - intros x Hx Hx'. apply list_elem_of_In in Hx.
    apply list_elem_of_singleton in Hx'. congruence.
  - apply NoDup_singleton.
Qed.

End Js.
Export Js.

(** * compose.js *)

Module Compose.

(** [funcs.reduce(f)]: the first element seeds the accumulator. *)
Definition reduce {A : Type} (f : A -> A -> A) (seed : A) (rest : list A) : A :=
  fold_left f rest seed.

(** [compose(...funcs)], lines 14-24.  A function of the pipeline maps [A]
    to [A]; the argument list [...args] of the composite is one [A]. *)
Definition compose {A : Type} (funcs : list (A -> A)) : A -> A :=
  match funcs with
  | [] => fun arg => arg
  | [f] => f
  | f :: rest => reduce (fun a b => fun args => a (b args)) f rest
  end.

Lemma reduce_pipeline {A : Type} (rest : list (A -> A)) (f : A -> A) (x : A) :
  reduce (fun a b => fun args => a (b args)) f rest x
  = f (fold_right (fun g acc => g acc) x rest).
Proof.
  unfold reduce. revert f x.
  induction rest as [|g rest IH]; intros f x; simpl; [reflexivity|].
  now rewrite IH.
Qed.

(** Right-to-left application: [compose [f1; ...; fn] x = f1 (... (fn x))]. *)
Lemma compose_fold_right {A : Type} (funcs : list (A -> A)) (x : A) :
  compose funcs x = fold_right (fun g acc => g acc) x funcs.
Proof.
  destruct funcs as [|f [|g rest]]; try reflexivity.
  unfold compose. now rewrite reduce_pipeline.
Qed.

(** The function listed last receives the original argument. *)
Lemma compose_last_first {A : Type} (funcs : list (A -> A)) (h : A -> A) (x : A) :
  compose (funcs ++ [h]) x = compose funcs (h x).
Proof.
  rewrite !compose_fold_right, fold_right_app. reflexivity.
Qed.

(** A pipeline splits anywhere: the right part is applied first. *)
Lemma compose_app {A : Type} (outer inner : list (A -> A)) (x : A) :
  compose (outer ++ inner) x = compose outer (compose inner x).
Proof.
  rewrite !compose_fold_right, fold_right_app. reflexivity.
Qed.

Lemma compose_cons {A : Type} (f : A -> A) (rest : list (A -> A)) (x : A) :
  compose (f :: rest) x = f (compose rest x).
Proof. rewrite !compose_fold_right. reflexivity. Qed.

(** C6: [compose()(x) = x], [compose(f) = f] and
    [compose(f, g, h)(x) = f(g(h(x)))]: the function listed last is applied
    to the original argument, and evaluation goes from right to left. *)
Theorem compose_right_to_left {A : Type} (f g h : A -> A) (x : A) :
  compose [] x = x /\
  compose [f] = f /\
  compose [f; g; h] x = f (g (h x)) /\
  (forall funcs : list (A -> A),
     compose (funcs ++ [h]) x = compose funcs (h x)) /\
  (forall funcs : list (A -> A),
     compose funcs x = fold_right (fun k acc => k acc) x funcs).
Proof.
  repeat split; try reflexivity.
  - intros funcs. apply compose_last_first.
  - intros funcs. apply compose_fold_right.
Qed.

End Compose.

(** * combineReducers.js *)

Module CombineReducers.

(** Non-fatal diagnostics sent to [warning]. *)
Inductive diagnostic : Type :=
| NoReducerProvided (key : string)
| NoValidReducer
| UnexpectedType (initializing : bool) (inputState : value) (reducerKeys : list string)
| UnexpectedKeys (initializing : bool) (unexpected reducerKeys : list string).

(** What reducers and composites can observe and change outside their
    arguments: the allocator of object identities, the draws of
    [Math.random], the [unexpectedKeyCache] objects of the composites made
    so far (each composite refers to its own by position) and the
    console. *)
Record world : Type := World {
  next_id : nat;
  draws : nat;
  caches : list (list (string * bool));
  console : list diagnostic
}.

(** Computations of client and library code: a result or a [throw], and the
    world after it. *)
Definition M (A : Type) : Type := world -> outcome A * world.

Definition ret {A : Type} (a : A) : M A := fun w => (Ok a, w).
Definition throw {A : Type} (e : error) : M A := fun w => (Err e, w).
Definition bind {A B : Type} (m : M A) (k : A -> M B) : M B :=
  fun w => match m w with
           | (Ok a, w') => k a w'
           | (Err e, w') => (Err e, w')
           end.
(** [try { m } catch (e) { ... }]: the caught error, if any. *)
Definition try_catch {A : Type} (m : M A) : M (option error) :=
  fun w => match m w with
           | (Ok _, w') => (Ok None, w')
           | (Err e, w') => (Ok (Some e), w')
           end.
Definition lift {A : Type} (o : outcome A) : M A := fun w => (o, w).

Notation "x <- m ;; k" := (bind m (fun x => k))
  (at level 90, m at level 89, right associativity).
Notation "m ;;; k" := (bind m (fun _ => k))
  (at level 90, right associativity).

(** An object literal: a fresh identity. *)
Definition alloc (ps : list (string * value)) : M value :=
  fun w => (Ok (VObj (next_id w) ps),
            World (S (next_id w)) (draws w) (caches w) (console w)).

Definition fresh_id : M nat :=
  fun w => (Ok (next_id w),
            World (S (next_id w)) (draws w) (caches w) (console w)).

(** [warning(message)] *)
Definition warning (d : diagnostic) : M unit :=
  fun w => (Ok tt,
            World (next_id w) (draws w) (caches w) (console w ++ [d])).

(** [unexpectedKeyCache = {}], line 168: a new cache, known by its
    position. *)
Definition new_cache : M nat :=
  fun w => (Ok (length (caches w)),
            World (next_id w) (draws w) (caches w ++ [[]]) (console w)).

(** The own entries of the cache at [i] (none at a position the world does
    not hold). *)
Definition get_cache (i : nat) : M (list (string * bool)) :=
  fun w => (Ok (default [] (caches w !! i)), w).

(** [unexpectedKeys.forEach(key => { unexpectedKeyCache[key] = true })] on
    the cache at [i].  The key [__proto__] is never among them: under it
    the cache reads its prototype, an object. *)
Definition mark_unexpected (i : nat) (ks : list string) : M unit :=
  fun w => (Ok tt,
            World (next_id w) (draws w)
                  (alter (fun cache =>
                            fold_left (fun cache key => set_key key true cache)
                                      ks cache)
                         i (caches w))
                  (console w)).

(** A sub-reducer: client code [(state, action) => state]. *)
Definition reducer : Type := value -> value -> M value.

(** A value of the [reducers] argument: a function, or anything else. *)
Inductive entry : Type :=
| EFun (r : reducer)
| EVal (v : value).

Section WithEnvironment.

(** [utils/actionTypes], [utils/isPlainObject], [process.env.NODE_ENV] and
    [Math.random] are outside the sources.  So is what values do not
    carry: [inherited v key] is what a property lookup on [v] finds beyond
    the own properties (on the prototype chain of an object, on the wrapper
    of a primitive), if anything; [Object_prototype key] is what a
    record made by an object literal, which inherits from
    [Object.prototype] only, finds under a [key] it does not hold itself; [class_name v] is the name that the pattern of line
    54 matches in [{}.toString.call(v)] for an object [v], if it matches;
    [unprintable v] is the error that [String(v)] throws, if it throws.
    Accessor properties are not modelled: a lookup runs no client code. *)
Variable INIT REPLACE : string.
Variable plain : nat -> bool.
Variable production : bool.
Variable random_string : nat -> string.
Variable inherited : value -> string -> option value.
Variable Object_prototype : string -> option value.
Variable class_name : value -> option string.
Variable unprintable : value -> option error.

(** [Math.random().toString(36).substring(7).split('').join('.')] *)
Definition random_suffix : M string :=
  fun w => (Ok (random_string (draws w)),
            World (next_id w) (S (draws w)) (caches w) (console w)).

(** [v[key]] and [v.key]: a [TypeError] on [undefined] and [null]; an own
    property of a record first, then the prototype chain. *)
Definition read (v : value) (key : string) : outcome value :=
  match v with
  | VUndef | VNull => Err TypeError
  | VObj _ ps =>
      Ok (match lookup_key key ps with
          | Some x => x
          | None => default VUndef (inherited v key)
          end)
  | _ => Ok (default VUndef (inherited v key))
  end.

(** [action && action.type] *)
Definition action_type (action : value) : value :=
  if truthy action
  then match read action "type" with Ok t => t | Err _ => VUndef end
  else action.

(** [action && action.type === type] *)
Definition is_type (action : value) (type : string) : bool :=
  truthy action &&
  match read action "type" with
  | Ok t => strict_eq t (VStr type)
  | Err _ => false
  end.

(** [getUndefinedStateErrorMessage], lines 12-22: the action is described
    by [String(actionType)] when its type is truthy. *)
Definition getUndefinedStateErrorMessage (key : string) (action : value)
  : outcome message :=
  let actionType := action_type action in
  if truthy actionType
  then match unprintable actionType with
       | Some e => Err e
       | None => Ok (UndefinedState key (Some actionType))
       end
  else Ok (UndefinedState key None).

(** [{}.toString.call(v).match(/\s([a-z|A-Z]+)/)], line 54: the class of a
    primitive or of a function is fixed. *)
Definition matched_class (v : value) : option string :=
  match v with
  | VUndef => Some "Undefined"
  | VNull => Some "Null"
  | VBool _ => Some "Boolean"
  | VNum _ | VNaN => Some "Number"
  | VStr _ => Some "String"
  | VFun _ | VUnsub _ => Some "Function"
  | VObj _ _ => class_name v
  end.

(** [reducers.hasOwnProperty(key)], line 61.  [reducers] is
    [finalReducers], a record made by an object literal: the method is
    [Object.prototype.hasOwnProperty] (taken to be the standard one) unless
    a sub-reducer is registered under that very key; then this sub-reducer
    is what the call runs, with [key] as its state and no action. *)
Definition hasOwnProperty (reducers : list (string * reducer)) (key : string)
  : M bool :=
  match lookup_key "hasOwnProperty" reducers with
  | Some r => v <- r (VStr key) VUndef ;; ret (truthy v)
  | None => ret (has_own key reducers)
  end.

(** [unexpectedKeyCache[key]]: an own entry, or what [Object.prototype]
    holds. *)
Definition cached (entries : list (string * bool)) (key : string) : value :=
  match lookup_key key entries with
  | Some b => VBool b
  | None => default VUndef (Object_prototype key)
  end.

(** The [filter] of lines 60-62 over [Object.keys(inputState)];
    [unexpectedKeyCache] is [undefined] in a composite made in
    production. *)
Fixpoint unexpected (reducers : list (string * reducer))
    (unexpectedKeyCache : option nat) (ks : list string) : M (list string) :=
  match ks with
  | [] => ret []
  | key :: rest =>
      own <- hasOwnProperty reducers key ;;
      fresh <- (if own : bool then ret false
                else match unexpectedKeyCache with
                     | None => throw TypeError
                     | Some i =>
                         entries <- get_cache i ;;
                         ret (negb (truthy (cached entries key)))
                     end) ;;
      more <- unexpected reducers unexpectedKeyCache rest ;;
      ret (if fresh : bool then key :: more else more)
  end.

(** [getUnexpectedStateShapeWarningMessage], lines 32-78. *)
Definition getUnexpectedStateShapeWarningMessage
    (inputState : value) (reducers : list (string * reducer)) (action : value)
    (unexpectedKeyCache : option nat)
  : M (option diagnostic) :=
  let reducerKeys := keys reducers in
  let initializing := is_type action INIT in
  if Nat.eqb (length reducerKeys) 0 then ret (Some NoValidReducer)
  else if negb (isPlainObject plain inputState)
  then match matched_class inputState with
       | Some _ => ret (Some (UnexpectedType initializing inputState reducerKeys))
       | None => throw TypeError
       end
  else
    unexpectedKeys <-
      unexpected reducers unexpectedKeyCache
        (match inputState with VObj _ ps => keys ps | _ => [] end) ;;
    match unexpectedKeyCache, unexpectedKeys with
    | Some i, _ => mark_unexpected i unexpectedKeys
    | None, [] => ret tt
    | None, _ :: _ => throw TypeError
    end ;;;
    if is_type action REPLACE then ret None
    else if Nat.ltb 0 (length unexpectedKeys)
    then ret (Some (UnexpectedKeys initializing unexpectedKeys reducerKeys))
    else ret None.

(** [assertReducerShape], lines 85-122: the body of the [forEach]. *)
Definition probe (key : string) (r : reducer) : M unit :=
  initAction <- alloc [("type", VStr INIT)] ;;
  initialState <- r VUndef initAction ;;
  if is_undefined initialState
  then throw (Error (UndefinedDuringInitialization key))
  else
    suffix <- random_suffix ;;
    probeAction <- alloc [("type", VStr ("@@redux/PROBE_UNKNOWN_ACTION_" ++ suffix))] ;;
    probed <- r VUndef probeAction ;;
    if is_undefined probed
    then throw (Error (UndefinedWhenProbed key))
    else ret tt.

Fixpoint assertReducerShape (reducers : list (string * reducer)) : M unit :=
  match reducers with
  | [] => ret tt
  | (key, r) :: rest => probe key r ;;; assertReducerShape rest
  end.

(** The closure returned by [combineReducers]: the variables of lines
    149-172 that [combination] reads. *)
Record composite : Type := Composite {
  finalReducers : list (string * reducer);
  finalReducerKeys : list string;
  unexpectedKeyCache : option nat;
  shapeAssertionError : option error
}.

(** The loop of lines 150-163 over [Object.keys(reducers)].  A function
    under the key [__proto__] becomes the prototype of [finalReducers], not
    one of its entries. *)
Fixpoint collect (reducers : list (string * entry)) (reducerKeys : list string)
    (finalReducers : list (string * reducer)) : M (list (string * reducer)) :=
  match reducerKeys with
  | [] => ret finalReducers
  | key :: rest =>
      let e := lookup_key key reducers in
      (if negb production
       then match e with
            | Some (EVal VUndef) | None => warning (NoReducerProvided key)
            | _ => ret tt
            end
       else ret tt) ;;;
      match e with
      | Some (EFun r) => collect reducers rest (assign key r finalReducers)
      | _ => collect reducers rest finalReducers
      end
  end.

(** Lines 166-169: the cache exists outside production only. *)
Definition allocate_cache : M (option nat) :=
  if negb production then i <- new_cache ;; ret (Some i) else ret None.

(** [combineReducers(reducers)], lines 147-178. *)
Definition combineReducers (reducers : list (string * entry)) : M composite :=
  finalReducers <- collect reducers (keys reducers) [] ;;
  let finalReducerKeys := keys finalReducers in
  unexpectedKeyCache <- allocate_cache ;;
  caught <- try_catch (assertReducerShape finalReducers) ;;
  ret (Composite finalReducers finalReducerKeys unexpectedKeyCache caught).

(** The loop of lines 199-211; [nextState] is the record under
    construction.  Its keys are those of [finalReducers], none of which is
    [__proto__]. *)
Fixpoint reduce_slices (finalReducers : list (string * reducer))
    (state action : value) (ks : list string)
    (nextState : list (string * value)) (hasChanged : bool)
  : M (list (string * value) * bool) :=
  match ks with
  | [] => ret (nextState, hasChanged)
  | key :: rest =>
      match lookup_key key finalReducers with
      | None => throw TypeError
      | Some r =>
          previousStateForKey <- lift (read state key) ;;
          nextStateForKey <- r previousStateForKey action ;;
          if is_undefined nextStateForKey
          then match getUndefinedStateErrorMessage key action with
               | Ok errorMessage => throw (Error errorMessage)
               | Err e => throw e
               end
          else reduce_slices finalReducers state action rest
                 (set_key key nextStateForKey nextState)
                 (hasChanged || negb (strict_eq nextStateForKey previousStateForKey))
      end
  end.

(** [combination(state = {}, action)], lines 179-213. *)
Definition combination (c : composite) (state action : value) : M value :=
  state <- (if is_undefined state then alloc [] else ret state) ;;
  match shapeAssertionError c with
  | Some e => if error_truthy e then throw e else ret tt
  | None => ret tt
  end ;;;
  (if negb production
   then
     warningMessage <-
       getUnexpectedStateShapeWarningMessage state (finalReducers c) action
         (unexpectedKeyCache c) ;;
     match warningMessage with
     | Some d => warning d
     | None => ret tt
     end
   else ret tt) ;;;
  nextId <- fresh_id ;;
  r <- reduce_slices (finalReducers c) state action (finalReducerKeys c) [] false ;;
  let '(nextState, hasChanged) := r in
  ret (if hasChanged : bool then VObj nextId nextState else state).

(** ** What one call of the composite computes *)

(** The slice of one key: what the sub-reducer received and returned. *)
Record slice : Type := Slice {
  slice_key : string;
  previous : value;
  next : value
}.

(** [s] is the slice a sub-reducer of [reducers] computed for its key from
    [state] and [action]. *)
Definition computed_by (reducers : list (string * reducer))
    (state action : value) (s : slice) : Prop :=
  read state (slice_key s) = Ok (previous s) /\
  is_undefined (next s) = false /\
  exists r w1 w2,
    lookup_key (slice_key s) reducers = Some r /\
    r (previous s) action w1 = (Ok (next s), w2).

(** [nextStateForKey === previousStateForKey] *)
Definition unchanged (s : slice) : bool := strict_eq (next s) (previous s).

(** The record made of the computed slices. *)
Definition assembled (slices : list slice) : list (string * value) :=
  map (fun s => (slice_key s, next s)) slices.

Lemma reduce_slices_ok reducers state action ks :
  List.NoDup ks ->
  forall nextState hasChanged w nextState' hasChanged' w',
  (forall k, In k ks -> lookup_key k nextState = None) ->
  reduce_slices reducers state action ks nextState hasChanged w
    = (Ok (nextState', hasChanged'), w') ->
  exists slices,
    map slice_key slices = ks /\
    Forall (computed_by reducers state action) slices /\
    nextState' = nextState ++ assembled slices /\
    hasChanged' = hasChanged || negb (forallb unchanged slices).
Proof.
  induction 1 as [|key rest Hnotin Hnd IH]; intros ns hc w ns' hc' w' Hfresh Hrun.
  - simpl in Hrun. unfold ret in Hrun. injection Hrun as <- <- <-.
    exists []. simpl. rewrite app_nil_r, orb_false_r. repeat split. constructor.
  - simpl in Hrun.
    destruct (lookup_key key reducers) as [r|] eqn:Hr; [|discriminate].
    unfold bind, lift in Hrun.
    destruct (read state key) as [prev|] eqn:Hprev; [|discriminate].
    destruct (r prev action w) as [[nxt|e] w1] eqn:Hcall; [|discriminate].
    destruct (is_undefined nxt) eqn:Hundef.
    { destruct (getUndefinedStateErrorMessage key action); discriminate. }
    apply IH in Hrun.
    + destruct Hrun as (slices & Hkeys & Hall & Hns & Hhc).
      exists (Slice key prev nxt :: slices). simpl. repeat split.
      * now rewrite Hkeys.
      * constructor; [|exact Hall].
        repeat split; simpl; try assumption. now exists r, w, w1.
      * rewrite Hns, set_key_fresh by (apply Hfresh; now left).
        now rewrite <- app_assoc.
      * rewrite Hhc. unfold unchanged at 1. simpl.
        now rewrite negb_andb, orb_assoc.
    + intros k Hk. rewrite lookup_key_set_key_ne.
      * apply Hfresh. now right.
      * intros ->. contradiction.
Qed.

Lemma collect_ok reducers ks :
  forall acc w, exists frs w',
    collect reducers ks acc w = (Ok frs, w') /\
    (List.NoDup (keys acc) -> List.NoDup (keys frs)).
Proof.
  induction ks as [|key rest IH]; intros acc w; simpl.
  - exists acc, w. now split.
  - unfold bind.
    set (warn := if negb production then _ else _).
    assert (Hwarn : exists w1, warn w = (Ok tt, w1)).
    { subst warn. destruct (negb production); [|now eexists].
      destruct (lookup_key key reducers) as [[r|[]]|]; now eexists. }
    destruct Hwarn as [w1 ->].
    destruct (lookup_key key reducers) as [[r|v]|].
    + destruct (IH (assign key r acc) w1) as (frs & w' & -> & Hnd).
      exists frs, w'. split; [reflexivity|].
      intros Hacc. apply Hnd. unfold assign.
      destruct (String.eqb key "__proto__"); [exact Hacc|].
      now apply NoDup_keys_set_key.
    + apply IH.
    + apply IH.
Qed.

(** The cache of a composite made outside production is a new one. *)
Lemma allocate_cache_ok w :
  exists cache w',
    allocate_cache w = (Ok cache, w') /\
    next_id w' = next_id w /\
    (production = false -> cache = Some (length (caches w)) /\
                           caches w' = caches w ++ [[]]) /\
    (production = true -> cache = None /\ w' = w).
Proof.
  unfold allocate_cache. destruct production; simpl.
  - exists None, w. repeat split; discriminate.
  - eexists _, _. split; [reflexivity|]. repeat split; discriminate.
Qed.

(** The composite that [combineReducers] returns iterates over the keys of
    its own reducers, each once. *)
Lemma combineReducers_keys reducers w0 c w1 :
  combineReducers reducers w0 = (Ok c, w1) ->
  finalReducerKeys c = keys (finalReducers c) /\
  List.NoDup (finalReducerKeys c).
Proof.
  unfold combineReducers, bind, try_catch, ret. intros H.
  destruct (collect_ok reducers (keys reducers) [] w0) as (frs & w' & Hc & Hnd).
  rewrite Hc in H.
  destruct (allocate_cache_ok w') as (cache & wk & Hk & _). rewrite Hk in H.
  destruct (assertReducerShape frs wk) as [[[]|e] w2];
    injection H as <- <-; simpl; (split; [reflexivity|apply Hnd; constructor]).
Qed.

(** Outside production it has a cache. *)
Lemma combineReducers_cache reducers w0 c w1 :
  combineReducers reducers w0 = (Ok c, w1) ->
  production = false ->
  exists i, unexpectedKeyCache c = Some i.
Proof.
  unfold combineReducers, bind, try_catch, ret. intros H Hdev.
  destruct (collect_ok reducers (keys reducers) [] w0) as (frs & w' & Hc & _).
  rewrite Hc in H.
  destruct (allocate_cache_ok w') as (cache & wk & Hk & _ & Hsome & _).
  rewrite Hk in H. destruct (Hsome Hdev) as [-> _].
  destruct (assertReducerShape frs wk) as [[[]|e] w2];
    injection H as <- <-; simpl; now eexists.
Qed.

(** The state a call works on: [state = {}] replaces an absent state by a
    new empty record. *)
Definition defaulted (state : value) (w : world) : value :=
  if is_undefined state then VObj (next_id w) [] else state.

(** The world after the default of [state = {}]. *)
Definition after_default (state : value) (w : world) : world :=
  if is_undefined state
  then World (S (next_id w)) (draws w) (caches w) (console w)
  else w.

(** Lines 185-195: the diagnostic, outside production. *)
Definition diagnose (c : composite) (state action : value) : M unit :=
  if negb production
  then
    warningMessage <-
      getUnexpectedStateShapeWarningMessage state (finalReducers c) action
        (unexpectedKeyCache c) ;;
    match warningMessage with
    | Some d => warning d
    | None => ret tt
    end
  else ret tt.

(** Lines 197-212: the slices and the result. *)
Definition slices_loop (c : composite) (state action : value) : M value :=
  nextId <- fresh_id ;;
  r <- reduce_slices (finalReducers c) state action (finalReducerKeys c) [] false ;;
  let '(nextState, hasChanged) := r in
  ret (if hasChanged : bool then VObj nextId nextState else state).

(** A call is: the default, the captured error, the diagnostic, the
    slices. *)
Lemma combination_eq c state action w :
  combination c state action w
  = match shapeAssertionError c with
    | Some e =>
        if error_truthy e then (Err e, after_default state w)
        else (diagnose c (defaulted state w) action ;;;
              slices_loop c (defaulted state w) action) (after_default state w)
    | None =>
        (diagnose c (defaulted state w) action ;;;
         slices_loop c (defaulted state w) action) (after_default state w)
    end.
Proof.
  unfold combination, defaulted, after_default, diagnose, slices_loop.
  unfold bind at 1.
  destruct (is_undefined state); unfold alloc, ret at 1;
    (destruct (shapeAssertionError c) as [e|]; [destruct (error_truthy e)|]);
    reflexivity.
Qed.

Lemma slices_loop_ok c state action w v w' :
  finalReducerKeys c = keys (finalReducers c) ->
  List.NoDup (finalReducerKeys c) ->
  slices_loop c state action w = (Ok v, w') ->
  exists slices,
    map slice_key slices = finalReducerKeys c /\
    Forall (computed_by (finalReducers c) state action) slices /\
    v = if forallb unchanged slices
        then state
        else VObj (next_id w) (assembled slices).
Proof.
  intros Hkeys Hnd Hrun. unfold slices_loop, bind, fresh_id in Hrun.
  destruct (reduce_slices _ _ _ _ _ _ _) as [[[ns hc]|e] w2] eqn:Hloop;
    [|discriminate].
  unfold ret in Hrun. injection Hrun as <- <-.
  apply reduce_slices_ok in Hloop; [|exact Hnd|reflexivity].
  destruct Hloop as (slices & Hk & Hall & -> & ->).
  exists slices. repeat split; try assumption.
  simpl. now destruct (forallb unchanged slices).
Qed.

(** Every call of a composite that returns has computed one slice per key,
    in key order, and returns either the state it worked on or the record
    of the slices under an identity allocated during the call. *)
Lemma combination_ok reducers w0 c w1 state action w v w' :
  combineReducers reducers w0 = (Ok c, w1) ->
  combination c state action w = (Ok v, w') ->
  exists slices id,
    map slice_key slices = finalReducerKeys c /\
    Forall (computed_by (finalReducers c) (defaulted state w) action) slices /\
    v = if forallb unchanged slices
        then defaulted state w
        else VObj id (assembled slices).
Proof.
  intros Hc Hrun. apply combineReducers_keys in Hc as [Hkeys Hnd].
  rewrite combination_eq in Hrun.
  assert (Hloop : exists wb,
            slices_loop c (defaulted state w) action wb = (Ok v, w')).
  { destruct (shapeAssertionError c) as [e|]; [destruct (error_truthy e)|];
      try discriminate; unfold bind at 1 in Hrun;
      (destruct (diagnose _ _ _ _) as [[[]|e0] wb]; [|discriminate]);
      now exists wb. }
  destruct Hloop as (wb & Hloop).
  destruct (slices_loop_ok _ _ _ _ _ _ Hkeys Hnd Hloop) as (slices & H1 & H2 & H3).
  now exists slices, (next_id wb).
Qed.

Lemma lookup_assembled slices s :
  List.NoDup (map slice_key slices) ->
  In s slices ->
  lookup_key (slice_key s) (assembled slices) = Some (next s).
Proof.
  induction slices as [|s0 slices IH]; simpl; [tauto|].
  intros Hnd Hin. inversion Hnd as [|? ? Hnotin Hnd']; subst.
  destruct Hin as [->|Hin].
  - now rewrite String.eqb_refl.
  - destruct (String.eqb_spec (slice_key s) (slice_key s0)) as [Heq|_].
    + exfalso. apply Hnotin. rewrite <- Heq. now apply in_map.
    + now apply IH.
Qed.

Lemma keys_assembled slices : keys (assembled slices) = map slice_key slices.
Proof.
  unfold keys, assembled. rewrite map_map. reflexivity.
Qed.

(** The sub-reducers of [reducers] answer [action] on the slices of
    [state] with a defined slice: none throws, none returns [undefined]. *)
Definition slices_defined (reducers : list (string * reducer))
    (state action : value) : Prop :=
  forall k r, lookup_key k reducers = Some r ->
    forall prev, read state k = Ok prev ->
    forall w1, exists nxt w2,
      r prev action w1 = (Ok nxt, w2) /\
      is_undefined nxt = false.

(** Outside production a call runs the state-shape diagnostic before it
    computes any slice, and the diagnostic can throw: it calls the
    sub-reducer registered under the key [hasOwnProperty], if there is one
    (line 61), and it fails on a state that is not a plain record and
    whose class name the pattern of line 54 does not match.  Here it does
    neither. *)
Definition diagnostic_safe (reducers : list (string * reducer))
    (state : value) : Prop :=
  production = false ->
  lookup_key "hasOwnProperty" reducers = None /\
  (isPlainObject plain state = false -> matched_class state <> None).

Lemma unexpected_quiet reducers i ks :
  lookup_key "hasOwnProperty" reducers = None ->
  forall w, exists found, unexpected reducers (Some i) ks w = (Ok found, w).
Proof.
  intros Hnone. induction ks as [|key rest IH]; intros w; simpl.
  - now eexists.
  - unfold bind at 1, hasOwnProperty. rewrite Hnone. unfold ret at 1.
    destruct (IH w) as (more & Hmore).
    destruct (has_own key reducers).
    + unfold bind, ret. rewrite Hmore. now eexists.
    + unfold bind, get_cache, ret. rewrite Hmore. now eexists.
Qed.

(** Then it returns, and leaves the allocator and the random draws
    alone. *)
Lemma diagnose_quiet c state action w :
  diagnostic_safe (finalReducers c) state ->
  (production = false -> exists i, unexpectedKeyCache c = Some i) ->
  exists w',
    diagnose c state action w = (Ok tt, w') /\
    next_id w' = next_id w /\ draws w' = draws w.
Proof.
  intros Hsafe Hcache. unfold diagnose.
  destruct production eqn:Hprod; simpl; [now exists w|].
  destruct (Hsafe Hprod) as [Hnone Hclass].
  destruct (Hcache eq_refl) as [i Hi].
  unfold bind at 1, getUnexpectedStateShapeWarningMessage.
  destruct (Nat.eqb _ 0); [now eexists|].
  destruct (isPlainObject plain state) eqn:Hplain; simpl.
  - rewrite Hi. unfold bind at 1.
    destruct (unexpected_quiet (finalReducers c) i
                (match state with VObj _ ps => keys ps | _ => [] end) Hnone w)
      as (found & ->).
    unfold bind at 1, mark_unexpected.
    destruct (is_type action REPLACE); [now eexists|].
    destruct (Nat.ltb 0 _); now eexists.
  - destruct (matched_class state) eqn:Hm; [now eexists|].
    now destruct (Hclass eq_refl).
Qed.

Lemma reduce_slices_returns reducers sid ps action ks :
  slices_defined reducers (VObj sid ps) action ->
  (forall k, In k ks -> In k (keys reducers)) ->
  forall nextState hasChanged w, exists r w',
    reduce_slices reducers (VObj sid ps) action ks nextState hasChanged w
      = (Ok r, w').
Proof.
  intros Hdef. induction ks as [|key rest IH]; intros Hin ns hc w; simpl.
  - now eexists _, _.
  - destruct (lookup_key key reducers) as [r|] eqn:Hr.
    + unfold bind, lift. cbn [read].
      destruct (Hdef key r Hr _ eq_refl w) as (nxt & w2 & -> & ->).
      apply IH. intros k Hk. apply Hin. now right.
    + apply lookup_key_None in Hr. exfalso. apply Hr, Hin. now left.
Qed.

(** A composite whose shape assertion passed returns on every record and
    action that its sub-reducers answer with defined slices, when the
    diagnostic does not throw; the record it may allocate has an identity
    that was not in use. *)
Lemma combination_returns reducers w0 c w1 sid ps action w :
  combineReducers reducers w0 = (Ok c, w1) ->
  shapeAssertionError c = None ->
  diagnostic_safe (finalReducers c) (VObj sid ps) ->
  slices_defined (finalReducers c) (VObj sid ps) action ->
  exists v w' wb,
    combination c (VObj sid ps) action w = (Ok v, w') /\
    slices_loop c (VObj sid ps) action wb = (Ok v, w') /\
    next_id wb = next_id w.
Proof.
  intros Hc Hshape Hsafe Hdef.
  pose proof (combineReducers_cache _ _ _ _ Hc) as Hcache.
  apply combineReducers_keys in Hc as [Hkeys _].
  rewrite combination_eq, Hshape. unfold defaulted, after_default. simpl.
  destruct (diagnose_quiet c (VObj sid ps) action w Hsafe Hcache)
    as (wb & Hdiag & Hid & _).
  unfold bind at 1. rewrite Hdiag.
  assert (Hloop : exists v w', slices_loop c (VObj sid ps) action wb = (Ok v, w')).
  { unfold slices_loop, bind at 1, fresh_id. unfold bind.
    edestruct (reduce_slices_returns (finalReducers c) sid ps action
                 (finalReducerKeys c) Hdef) as ([ns hc] & w' & ->).
    { intros k Hk. now rewrite <- Hkeys. }
    now eexists _, _. }
  destruct Hloop as (v & w' & Hloop). now exists v, w', wb.
Qed.

(** C3, as amended: a composite built by [combineReducers] whose shape
    assertion passed, called on a record [state] and an [action] that every
    sub-reducer answers with a defined slice (none throws, none returns
    [undefined]), where the diagnostic of development mode does not throw
    either, returns.  It has computed one slice per key, from what a
    lookup of the key on [state] finds; when every slice is [===] to the
    slice it was computed from, the result is [state] itself; otherwise it
    is a record allocated by the call (so a reference different from
    [state]) that holds every computed slice, and the slices of the
    unchanged keys are [===] to those of [state]. *)
Theorem combination_structural_sharing reducers w0 c w1 sid ps action w :
  combineReducers reducers w0 = (Ok c, w1) ->
  shapeAssertionError c = None ->
  diagnostic_safe (finalReducers c) (VObj sid ps) ->
  slices_defined (finalReducers c) (VObj sid ps) action ->
  exists v w' slices,
    combination c (VObj sid ps) action w = (Ok v, w') /\
    map slice_key slices = finalReducerKeys c /\
    Forall (computed_by (finalReducers c) (VObj sid ps) action) slices /\
    (forallb unchanged slices = true -> v = VObj sid ps) /\
    (forallb unchanged slices = false ->
       exists id,
         v = VObj id (assembled slices) /\
         next_id w <= id /\
         (sid < next_id w -> strict_eq v (VObj sid ps) = false) /\
         forall s, In s slices ->
           read v (slice_key s) = Ok (next s) /\
           (unchanged s = true ->
              read (VObj sid ps) (slice_key s) = Ok (previous s) /\
              strict_eq (next s) (previous s) = true)).
Proof.
  intros Hc Hshape Hsafe Hdef.
  destruct (combination_returns _ _ _ _ sid ps action w Hc Hshape Hsafe Hdef)
    as (v & w' & wb & Hrun & Hloop & Hid).
  destruct (combineReducers_keys _ _ _ _ Hc) as [Hkeys Hnd].
  destruct (slices_loop_ok _ _ _ _ _ _ Hkeys Hnd Hloop)
    as (slices & Hk & Hall & Hv).
  exists v, w', slices.
  split; [exact Hrun|]. split; [exact Hk|]. split; [exact Hall|]. split.
  - intros Hsame. now rewrite Hsame in Hv.
  - intros Hdiff. rewrite Hdiff in Hv. exists (next_id wb).
    split; [exact Hv|]. split; [lia|]. split.
    + intros Hlt. subst v. simpl. apply Nat.eqb_neq. lia.
    + intros s Hs. split.
      * subst v. cbn [read]. rewrite lookup_assembled; [reflexivity| |assumption].
        now rewrite Hk.
      * intros Hsame. split; [|exact Hsame].
        eapply List.Forall_forall in Hall; [|eassumption].
        apply Hall.
Qed.

(** C9: a composite built by [combineReducers] is called with a record
    [state] that has a key [u] outside the sub-reducer keys.  Whenever the
    call returns: if a slice changed, the returned record has exactly the
    sub-reducer keys, so [u] is not a key of it, and a lookup of [u] on it
    finds only what the record inherits; if none changed, the result is
    [state] itself and [u] is still there.  The call does return whenever
    the shape assertion passed, every sub-reducer answers with a defined
    slice and the diagnostic of development mode does not throw. *)
Theorem unknown_key_dropped_on_change reducers w0 c w1 sid ps u x action w :
  combineReducers reducers w0 = (Ok c, w1) ->
  lookup_key u ps = Some x ->
  ~ In u (finalReducerKeys c) ->
  (forall v w', combination c (VObj sid ps) action w = (Ok v, w') ->
     exists slices,
       map slice_key slices = finalReducerKeys c /\
       Forall (computed_by (finalReducers c) (VObj sid ps) action) slices /\
       (forallb unchanged slices = false ->
          exists id,
            v = VObj id (assembled slices) /\
            keys (assembled slices) = finalReducerKeys c /\
            ~ In u (keys (assembled slices)) /\
            lookup_key u (assembled slices) = None /\
            read v u = Ok (default VUndef (inherited v u))) /\
       (forallb unchanged slices = true ->
          v = VObj sid ps /\ In u (keys ps) /\ read v u = Ok x)) /\
  (shapeAssertionError c = None ->
   diagnostic_safe (finalReducers c) (VObj sid ps) ->
   slices_defined (finalReducers c) (VObj sid ps) action ->
   exists v w', combination c (VObj sid ps) action w = (Ok v, w')).
Proof.
  intros Hc Hu Hnotin. split.
  - intros v w' Hrun.
    destruct (combination_ok _ _ _ _ _ _ _ _ _ Hc Hrun)
      as (slices & id & Hkeys & Hall & Hv).
    unfold defaulted in Hv, Hall. simpl in Hv, Hall.
    exists slices. split; [exact Hkeys|]. split; [exact Hall|]. split.
    + intros Hdiff. rewrite Hdiff in Hv. exists id.
      assert (Hout : ~ In u (keys (assembled slices))).
      { now rewrite keys_assembled, Hkeys. }
      assert (Hnone : lookup_key u (assembled slices) = None).
      { now apply lookup_key_None. }
      split; [exact Hv|]. split; [now rewrite keys_assembled|].
      split; [exact Hout|]. split; [exact Hnone|].
      subst v. cbn [read]. now rewrite Hnone.
    + intros Hsame. rewrite Hsame in Hv. subst v. split; [reflexivity|]. split.
      * destruct (in_dec String.string_dec u (keys ps)) as [Hin|Hnin];
          [exact Hin|].
        apply lookup_key_None in Hnin. congruence.
      * cbn [read]. now rewrite Hu.
  - intros Hshape Hsafe Hdef.
    destruct (combination_returns _ _ _ _ sid ps action w Hc Hshape Hsafe Hdef)
      as (v & w' & _ & Hrun & _).
    now exists v, w'.
Qed.

(** ** Deferred shape errors *)

(** The two probes of one sub-reducer, as [assertReducerShape] runs them
    from [w]: does the first, or after a defined first the second, return
    [undefined]? *)
Definition probe_returns_undefined (r : reducer) (w : world) : bool :=
  match (initAction <- alloc [("type", VStr INIT)] ;; r VUndef initAction) w with
  | (Ok VUndef, _) => true
  | (Ok _, w1) =>
      match (suffix <- random_suffix ;;
             probeAction <-
               alloc [("type", VStr ("@@redux/PROBE_UNKNOWN_ACTION_" ++ suffix))] ;;
             r VUndef probeAction) w1 with
      | (Ok VUndef, _) => true
      | _ => false
      end
  | (Err _, _) => false
  end.

(** During [combineReducers(reducers)] started in [w0], the probes reach the
    sub-reducer of [key] and one of its two probes returns [undefined]. *)
Definition probed_undefined (reducers : list (string * entry)) (w0 : world)
    (key : string) : Prop :=
  exists frs wc cache wk pre r post wp,
    collect reducers (keys reducers) [] w0 = (Ok frs, wc) /\
    allocate_cache wc = (Ok cache, wk) /\
    frs = pre ++ (key, r) :: post /\
    assertReducerShape pre wk = (Ok tt, wp) /\
    probe_returns_undefined r wp = true.

Lemma probe_undefined_throws key r w :
  probe_returns_undefined r w = true ->
  exists m w',
    probe key r w = (Err (Error m), w') /\
    (m = UndefinedDuringInitialization key \/ m = UndefinedWhenProbed key).
Proof.
  unfold probe_returns_undefined, probe, bind, alloc, random_suffix.
  destruct (r VUndef _ _) as [[v|e] w1]; [|discriminate].
  destruct (is_undefined v) eqn:Hv.
  - intros _. eexists _, _. split; [reflexivity|now left].
  - destruct v; try discriminate Hv;
      (destruct (r VUndef _ _) as [[[]|e] w2]; try discriminate;
       intros _; eexists _, _; (split; [reflexivity|now right])).
Qed.

Lemma assertReducerShape_stops pre key r post w wp e we :
  assertReducerShape pre w = (Ok tt, wp) ->
  probe key r wp = (Err e, we) ->
  assertReducerShape (pre ++ (key, r) :: post) w = (Err e, we).
Proof.
  revert w. induction pre as [|[k0 r0] pre IH]; intros w Hpre Hprobe; simpl in *.
  - unfold ret in Hpre. injection Hpre as ->. unfold bind. now rewrite Hprobe.
  - unfold bind in *. destruct (probe k0 r0 w) as [[[]|e0] w0]; [|discriminate].
    now apply IH.
Qed.


(** A composite that holds a truthy captured error throws it first thing. *)
Lemma combination_rethrows c e state action w :
  shapeAssertionError c = Some e ->
  error_truthy e = true ->
  exists w', combination c state action w = (Err e, w').
Proof.
  intros Hc He. rewrite combination_eq, Hc, He. now eexists.
Qed.

(** C4: when a probe of [combineReducers] finds a sub-reducer that returns
    [undefined] (for an absent state and the INIT action, or for an absent
    state and the random probe type), the call of [combineReducers] still
    returns a composite; the shape-assertion error is kept in it, and every
    call of the composite, the first one included, throws that error. *)
Theorem shape_error_is_deferred reducers w0 key :
  probed_undefined reducers w0 key ->
  exists c w1 m,
    combineReducers reducers w0 = (Ok c, w1) /\
    (m = UndefinedDuringInitialization key \/ m = UndefinedWhenProbed key) /\
    shapeAssertionError c = Some (Error m) /\
    forall state action w, exists w',
      combination c state action w = (Err (Error m), w').
Proof.
  intros (frs & wc & cache & wk & pre & r & post & wp
          & Hcollect & Hcache & -> & Hpre & Hbad).
  destruct (probe_undefined_throws key r wp Hbad) as (m & we & Hprobe & Hm).
  pose proof (assertReducerShape_stops pre key r post wk wp _ we Hpre Hprobe)
    as Hshape.
  exists (Composite (pre ++ (key, r) :: post)
            (keys (pre ++ (key, r) :: post)) cache (Some (Error m))), we, m.
  split; [|split; [exact Hm|split; [reflexivity|]]].
  - unfold combineReducers, bind, try_catch, ret.
    now rewrite Hcollect, Hcache, Hshape.
  - intros state action w. now apply combination_rethrows.
Qed.

End WithEnvironment.

(** ** The composite at work on concrete reducers *)

Definition demo_INIT : string := "@@redux/INIT".
Definition demo_REPLACE : string := "@@redux/REPLACE".
Definition demo_plain : nat -> bool := fun _ => true.
Definition demo_random : nat -> string := fun _ => "4.k.z.q".

(** Some of the methods that records inherit from [Object.prototype]. *)
Definition demo_Object_prototype (key : string) : option value :=
  match key with
  | "constructor" => Some (VFun 100)
  | "toString" => Some (VFun 101)
  | "hasOwnProperty" => Some (VFun 102)
  | "valueOf" => Some (VFun 103)
  | _ => None
  end.
Definition demo_inherited (v : value) (key : string) : option value :=
  match v with
  | VObj _ _ => demo_Object_prototype key
  | _ => None
  end.
Definition demo_class : value -> option string := fun _ => Some "Object".
Definition demo_unprintable : value -> option error := fun _ => None.

(** [(state = 0, action) =>
      typeof state === 'number' && (action && action.type) === 'inc'
        ? state + 1 : state] *)
Definition counter : reducer := fun state action =>
  match state with
  | VUndef => ret (VNum 0)
  | VNum n => if strict_eq (and_type action) (VStr "inc")
              then ret (VNum (n + 1)) else ret state
  | _ => ret state
  end.

(** [(state = null, action) => state] *)
Definition keep : reducer := fun state action =>
  match state with
  | VUndef => ret VNull
  | _ => ret state
  end.

(** [(state, action) =>
      (action && action.type) === 'X' ? state
                                      : (state === undefined ? 0 : state)]:
    passes both probes, and answers ['X'] on an absent slice with
    [undefined]. *)
Definition lenient : reducer := fun state action =>
  if strict_eq (and_type action) (VStr "X") then ret state
  else match state with
       | VUndef => ret (VNum 0)
       | _ => ret state
       end.

(** [(state, action) => (action && action.type) === INIT ? 0 : state]:
    handles the private INIT type only, so the random probe gets [undefined]. *)
Definition init_only : reducer := fun state action =>
  if strict_eq (and_type action) (VStr demo_INIT) then ret (VNum 0)
  else ret state.

(** [(state, action) => { action.type; return counter(state, action) }]:
    called without an action, reading [action.type] throws. *)
Definition typed : reducer := fun state action =>
  match get_prop action "type" with
  | Err e => throw e
  | Ok _ => counter state action
  end.

Definition demo_combine := combineReducers demo_INIT false demo_random.
Definition demo_read := read demo_inherited.
Definition demo_combination :=
  combination demo_INIT demo_REPLACE demo_plain false demo_inherited
              demo_Object_prototype demo_class demo_unprintable.
(** The same composite in production. *)
Definition production_combination :=
  combination demo_INIT demo_REPLACE demo_plain true demo_inherited
              demo_Object_prototype demo_class demo_unprintable.

Definition boot : world := World 0 0 [] [].

Definition ab_reducers : list (string * entry) :=
  [("a", EFun counter); ("b", EFun keep)].
Definition ab : composite :=
  Composite [("a", counter); ("b", keep)] ["a"; "b"] (Some 0) None.
Definition ab_state : value :=
  VObj 10 [("a", VNum 1); ("b", VObj 7 [("x", VNum 5)]); ("zzz", VStr "stale")].
Definition inc : value := VObj 11 [("type", VStr "inc")].
Definition other : value := VObj 11 [("type", VStr "other")].

Example ab_built : demo_combine ab_reducers boot = (Ok ab, World 4 2 [[]] []).
Proof. reflexivity. Qed.

(** Only [a] changes: a new record, [b] shared, [zzz] dropped (and warned
    about). *)
Example ab_inc :
  demo_combination ab ab_state inc (World 12 2 [[]] [])
  = (Ok (VObj 12 [("a", VNum 2); ("b", VObj 7 [("x", VNum 5)])]),
     World 13 2 [[("zzz", true)]] [UnexpectedKeys false ["zzz"] ["a"; "b"]]).
Proof. reflexivity. Qed.

(** Nothing changes: the very same record, [zzz] included. *)
Example ab_other :
  fst (demo_combination ab ab_state other (World 12 2 [[]] [])) = Ok ab_state.
Proof. reflexivity. Qed.

(** A sub-reducer under a key that records inherit receives the inherited
    method as its slice of [{}]: [combineReducers({constructor: keep})]
    called without a state returns the empty record itself. *)
Example inherited_slice :
  demo_combine [("constructor", EFun keep)] boot
  = (Ok (Composite [("constructor", keep)] ["constructor"] (Some 0) None),
     World 2 1 [[]] []) /\
  demo_read (VObj 2 []) "constructor" = Ok (VFun 100) /\
  fst (demo_combination
         (Composite [("constructor", keep)] ["constructor"] (Some 0) None)
         VUndef inc (World 2 1 [[]] []))
  = Ok (VObj 2 []).
Proof. repeat split; reflexivity. Qed.

(** A sub-reducer under the key [hasOwnProperty] is what the diagnostic
    calls at line 61, with a key as its state and no action: outside
    production the call throws where the same call in production returns
    the state. *)
Example hasOwnProperty_is_called :
  demo_combine [("hasOwnProperty", EFun typed)] boot
  = (Ok (Composite [("hasOwnProperty", typed)] ["hasOwnProperty"] (Some 0) None),
     World 2 1 [[]] []) /\
  fst (demo_combination
         (Composite [("hasOwnProperty", typed)] ["hasOwnProperty"] (Some 0) None)
         (VObj 5 [("hasOwnProperty", VNum 1); ("x", VNum 3)]) other
         (World 12 1 [[]] []))
  = Err TypeError /\
  fst (production_combination
         (Composite [("hasOwnProperty", typed)] ["hasOwnProperty"] (Some 0) None)
         (VObj 5 [("hasOwnProperty", VNum 1); ("x", VNum 3)]) other
         (World 12 1 [[]] []))
  = Ok (VObj 5 [("hasOwnProperty", VNum 1); ("x", VNum 3)]).
Proof. repeat split; reflexivity. Qed.

Example ab_diagnostic_safe state :
  diagnostic_safe demo_plain false demo_class (finalReducers ab) state.
Proof.
  intros _. split; [reflexivity|]. intros _. destruct state; discriminate.
Qed.

Example ab_slices_defined action :
  slices_defined demo_inherited (finalReducers ab) ab_state action.
Proof.
  intros k r Hk prev Hread w1. simpl in Hk.
  destruct (String.eqb_spec k "a") as [->|_].
  { injection Hk as <-. injection Hread as <-. simpl.
    destruct (strict_eq _ _); eexists _, _; split; reflexivity. }
  destruct (String.eqb_spec k "b") as [->|_]; [|discriminate].
  injection Hk as <-. injection Hread as <-.
  eexists _, _; split; reflexivity.
Qed.

Lemma combination_structural_sharing_witness :
  exists v w' slices,
    demo_combination ab ab_state inc (World 12 2 [[]] []) = (Ok v, w') /\
    map slice_key slices = finalReducerKeys ab /\
    Forall (computed_by demo_inherited (finalReducers ab) ab_state inc) slices /\
    (forallb unchanged slices = true -> v = ab_state) /\
    (forallb unchanged slices = false ->
       exists id,
         v = VObj id (assembled slices) /\
         next_id (World 12 2 [[]] []) <= id /\
         (10 < next_id (World 12 2 [[]] []) -> strict_eq v ab_state = false) /\
         forall s, In s slices ->
           demo_read v (slice_key s) = Ok (next s) /\
           (unchanged s = true ->
              demo_read ab_state (slice_key s) = Ok (previous s) /\
              strict_eq (next s) (previous s) = true)).
Proof.
  apply (combination_structural_sharing demo_INIT demo_REPLACE demo_plain
           false demo_random demo_inherited demo_Object_prototype demo_class
           demo_unprintable ab_reducers boot ab (World 4 2 [[]] [])).
  - reflexivity.
  - reflexivity.
  - apply ab_diagnostic_safe.
  - apply ab_slices_defined.
Defined.

Lemma unknown_key_dropped_on_change_witness :
  (forall v w',
     demo_combination ab ab_state inc (World 12 2 [[]] []) = (Ok v, w') ->
     exists slices,
       map slice_key slices = finalReducerKeys ab /\
       Forall (computed_by demo_inherited (finalReducers ab) ab_state inc) slices /\
       (forallb unchanged slices = false ->
          exists id,
            v = VObj id (assembled slices) /\
            keys (assembled slices) = finalReducerKeys ab /\
            ~ In "zzz" (keys (assembled slices)) /\
            lookup_key "zzz" (assembled slices) = None /\
            demo_read v "zzz" = Ok (default VUndef (demo_inherited v "zzz"))) /\
       (forallb unchanged slices = true ->
          v = ab_state /\
          In "zzz" (keys [("a", VNum 1); ("b", VObj 7 [("x", VNum 5)]);
                          ("zzz", VStr "stale")]) /\
          demo_read v "zzz" = Ok (VStr "stale"))) /\
  (shapeAssertionError ab = None ->
   diagnostic_safe demo_plain false demo_class (finalReducers ab) ab_state ->
   slices_defined demo_inherited (finalReducers ab) ab_state inc ->
   exists v w',
     demo_combination ab ab_state inc (World 12 2 [[]] []) = (Ok v, w')).
Proof.
  apply (unknown_key_dropped_on_change demo_INIT demo_REPLACE demo_plain
           false demo_random demo_inherited demo_Object_prototype demo_class
           demo_unprintable ab_reducers boot ab (World 4 2 [[]] [])).
  - reflexivity.
  - reflexivity.
  - simpl. intros [H|[H|[]]]; discriminate H.
Defined.

Definition lazy_reducers : list (string * entry) :=
  [("ok", EFun counter); ("bad", EFun init_only)].

Lemma shape_error_is_deferred_witness :
  exists c w1 m,
    demo_combine lazy_reducers boot = (Ok c, w1) /\
    (m = UndefinedDuringInitialization "bad" \/ m = UndefinedWhenProbed "bad") /\
    shapeAssertionError c = Some (Error m) /\
    forall state action w, exists w',
      demo_combination c state action w = (Err (Error m), w').
Proof.
  apply (shape_error_is_deferred demo_INIT demo_REPLACE demo_plain false
           demo_random demo_inherited demo_Object_prototype demo_class
           demo_unprintable lazy_reducers boot "bad").
  exists [("ok", counter); ("bad", init_only)], boot, (Some 0),
         (World 0 0 [[]] []), [("ok", counter)], init_only, [],
         (World 2 1 [[]] []).
  repeat split; reflexivity.
Defined.

Definition lazy_composite : composite :=
  Composite [("ok", counter); ("bad", init_only)] ["ok"; "bad"] (Some 0)
            (Some (Error (UndefinedWhenProbed "bad"))).
Definition lenient_composite : composite :=
  Composite [("a", lenient)] ["a"] (Some 0) None.

(** The composite of [lazy_reducers] is returned, and throws when used. *)
Example lazy_composite_throws :
  demo_combine lazy_reducers boot = (Ok lazy_composite, World 4 2 [[]] []) /\
  fst (demo_combination lazy_composite
         (VObj 9 [("ok", VNum 1); ("bad", VNum 2)]) inc (World 4 2 [[]] []))
  = Err (Error (UndefinedWhenProbed "bad")).
Proof. split; reflexivity. Qed.

Definition x_action : value := VObj 3 [("type", VStr "X")].

(** C3 as stated fails on two inputs where no sub-reducer throws and every
    sub-reducer returns the slice it received.  (1) [{a: lenient}] on the
    record [{}] and an action of type ['X']: the slice is [undefined] before
    and after, and the composite throws instead of returning the record.
    (2) [{ok: counter, bad: init_only}] on [{ok: 1, bad: 2}]: the slices
    are defined and unchanged, and the composite throws the error captured
    when it was built. *)
Lemma sharing_needs_defined_slices :
  (demo_combine [("a", EFun lenient)] boot
   = (Ok lenient_composite, World 2 1 [[]] []) /\
   demo_read (VObj 2 []) "a" = Ok VUndef /\
   (forall w, lenient VUndef x_action w = (Ok VUndef, w)) /\
   strict_eq VUndef VUndef = true /\
   fst (demo_combination lenient_composite (VObj 2 []) x_action
          (World 4 1 [[]] []))
   = Err (Error (UndefinedState "a" (Some (VStr "X")))) /\
   fst (demo_combination lenient_composite (VObj 2 []) x_action
          (World 4 1 [[]] []))
   <> Ok (VObj 2 [])) /\
  (demo_combine lazy_reducers boot = (Ok lazy_composite, World 4 2 [[]] []) /\
   (forall w, counter (VNum 1) x_action w = (Ok (VNum 1), w)) /\
   (forall w, init_only (VNum 2) x_action w = (Ok (VNum 2), w)) /\
   fst (demo_combination lazy_composite
          (VObj 9 [("ok", VNum 1); ("bad", VNum 2)]) x_action
          (World 10 2 [[]] []))
   <> Ok (VObj 9 [("ok", VNum 1); ("bad", VNum 2)])).
Proof.
  split.
  - repeat split; try reflexivity. discriminate.
  - repeat split; try reflexivity. discriminate.
Qed.

End CombineReducers.
(** * createStore.js

    The store engine: [getState], [subscribe], [dispatch],
    [replaceReducer] and the construction, with or without an enhancer.  The observable interop of lines
    259-290 is a client of [subscribe] and [getState] and is left out. *)

Module Store.

(** ** Client code

    Reducers, listeners and middleware are client functions.  All the store
    lets them do is call its API, so a client computation is the tree of
    its API calls: each call hands its result, or the error it threw, to
    the rest of the computation, which may rethrow it, handle it or go on.
    [Dispatch] is the [dispatch] of [createStore]; [EnhancedDispatch] calls
    whatever the [dispatch] variable of [applyMiddleware] holds; [Call] calls
    a function value; [ReadVar] and [WriteVar] are the client's own mutable
    variables; [Log] writes a line to the console. *)
Inductive prog (R : Type) : Type :=
| Ret (r : R)
| Throw (e : error)
| GetState (k : outcome value -> prog R)
| Dispatch (action : value) (k : outcome value -> prog R)
| Subscribe (listener : value) (k : outcome value -> prog R)
| ReplaceReducer (nextReducer : value) (k : outcome value -> prog R)
| Call (f : value) (args : list value) (k : outcome value -> prog R)
| EnhancedDispatch (action : value) (k : outcome value -> prog R)
| ReadVar (x : string) (k : value -> prog R)
| WriteVar (x : string) (v : value) (k : prog R)
| Log (line : string) (k : prog R).
Arguments Ret {R} r.
Arguments Throw {R} e.
Arguments GetState {R} k.
Arguments Dispatch {R} action k.
Arguments Subscribe {R} listener k.
Arguments ReplaceReducer {R} nextReducer k.
Arguments Call {R} f args k.
Arguments EnhancedDispatch {R} action k.
Arguments ReadVar {R} x k.
Arguments WriteVar {R} x v k.
Arguments Log {R} line k.

(** The continuation of a call whose error is not caught. *)
Definition rethrow (o : outcome value) : prog value :=
  match o with
  | Ok v => Ret v
  | Err e => Throw e
  end.

(** ** The variables of one store

    The [let] variables of [createStore], lines 55-59.  The two listener
    arrays are references into [arrays], so that
    [nextListeners === currentListeners] and the writes through
    [nextListeners] are what they are in the source.  [closures] holds, for
    each call of [subscribe], the [listener] and the [isSubscribed] flag its
    [unsubscribe] closure captured.  [dispatchVar] is the [let dispatch] of
    [applyMiddleware] ([None] while it holds the throwing placeholder);
    [variables] are the variables of the client code. *)
Record world : Type := World {
  currentReducer : value;
  currentState : value;
  currentListeners : nat;
  nextListeners : nat;
  isDispatching : bool;
  arrays : list (list value);
  closures : list (value * bool);
  dispatchVar : option (value -> prog value);
  next_id : nat;
  console : list string;
  variables : list (string * value)
}.

Definition set_currentReducer (r : value) (w : world) : world :=
  World r (currentState w) (currentListeners w) (nextListeners w)
        (isDispatching w) (arrays w) (closures w) (dispatchVar w)
        (next_id w) (console w) (variables w).
Definition set_currentState (s : value) (w : world) : world :=
  World (currentReducer w) s (currentListeners w) (nextListeners w)
        (isDispatching w) (arrays w) (closures w) (dispatchVar w)
        (next_id w) (console w) (variables w).
Definition set_currentListeners (r : nat) (w : world) : world :=
  World (currentReducer w) (currentState w) r (nextListeners w)
        (isDispatching w) (arrays w) (closures w) (dispatchVar w)
        (next_id w) (console w) (variables w).
Definition set_nextListeners (r : nat) (w : world) : world :=
  World (currentReducer w) (currentState w) (currentListeners w) r
        (isDispatching w) (arrays w) (closures w) (dispatchVar w)
        (next_id w) (console w) (variables w).
Definition set_isDispatching (b : bool) (w : world) : world :=
  World (currentReducer w) (currentState w) (currentListeners w)
        (nextListeners w) b (arrays w) (closures w) (dispatchVar w)
        (next_id w) (console w) (variables w).
Definition set_arrays (a : list (list value)) (w : world) : world :=
  World (currentReducer w) (currentState w) (currentListeners w)
        (nextListeners w) (isDispatching w) a (closures w) (dispatchVar w)
        (next_id w) (console w) (variables w).
Definition set_closures (c : list (value * bool)) (w : world) : world :=
  World (currentReducer w) (currentState w) (currentListeners w)
        (nextListeners w) (isDispatching w) (arrays w) c (dispatchVar w)
        (next_id w) (console w) (variables w).
Definition set_dispatchVar (d : option (value -> prog value)) (w : world) : world :=
  World (currentReducer w) (currentState w) (currentListeners w)
        (nextListeners w) (isDispatching w) (arrays w) (closures w) d
        (next_id w) (console w) (variables w).
Definition set_next_id (n : nat) (w : world) : world :=
  World (currentReducer w) (currentState w) (currentListeners w)
        (nextListeners w) (isDispatching w) (arrays w) (closures w)
        (dispatchVar w) n (console w) (variables w).
Definition set_console (c : list string) (w : world) : world :=
  World (currentReducer w) (currentState w) (currentListeners w)
        (nextListeners w) (isDispatching w) (arrays w) (closures w)
        (dispatchVar w) (next_id w) c (variables w).

Definition set_variables (v : list (string * value)) (w : world) : world :=
  World (currentReducer w) (currentState w) (currentListeners w)
        (nextListeners w) (isDispatching w) (arrays w) (closures w)
        (dispatchVar w) (next_id w) (console w) v.

(** The array a reference points to. *)
Definition array_at (r : nat) (w : world) : list value :=
  default [] (arrays w !! r).

(** ** Computations of the store

    A result or a [throw] with the world after it; [None] when the fuel
    given to client code ran out. *)
Definition M (A : Type) : Type := world -> option (outcome A * world).

Definition ret {A : Type} (a : A) : M A := fun w => Some (Ok a, w).
Definition throw {A : Type} (e : error) : M A := fun w => Some (Err e, w).
Definition bind {A B : Type} (m : M A) (k : A -> M B) : M B :=
  fun w => match m w with
           | Some (Ok a, w') => k a w'
           | Some (Err e, w') => Some (Err e, w')
           | None => None
           end.
Definition gets {A : Type} (f : world -> A) : M A := fun w => Some (Ok (f w), w).
Definition modify (f : world -> world) : M unit := fun w => Some (Ok tt, f w).
(** The outcome of [m], thrown or not, as a value. *)
Definition attempt {A : Type} (m : M A) : M (outcome A) :=
  fun w => match m w with
           | Some (o, w') => Some (Ok o, w')
           | None => None
           end.
(** [try { m } finally { fin }] *)
Definition try_finally {A : Type} (m : M A) (fin : world -> world) : M A :=
  fun w => match m w with
           | Some (o, w') => Some (o, fin w')
           | None => None
           end.

Notation "x <- m ;; k" := (bind m (fun x => k))
  (at level 90, m at level 89, right associativity).
Notation "m ;;; k" := (bind m (fun _ => k))
  (at level 90, right associativity).

(** [xs.indexOf(x)]: the first index whose element is [===] to [x], or -1. *)
Fixpoint indexOf (x : value) (xs : list value) : Z :=
  match xs with
  | [] => (-1)%Z
  | y :: rest =>
      if strict_eq y x then 0%Z
      else let i := indexOf x rest in
           if (i <? 0)%Z then (-1)%Z else (i + 1)%Z
  end.

(** [xs.splice(start, 1)]: a negative [start] counts from the end. *)
Definition splice1 (start : Z) (xs : list value) : list value :=
  let len := Z.of_nat (length xs) in
  let from := if (start <? 0)%Z then Z.max (len + start) 0 else Z.min start len in
  delete (Z.to_nat from) xs.

(** ** The store engine *)

Section Engine.

(** [utils/actionTypes] and [utils/isPlainObject] are outside the sources;
    [code f] is the body of the client function [VFun f]. *)
Variable INIT REPLACE : string.
Variable plain : nat -> bool.
Variable code : nat -> list value -> prog value.

Section Methods.

(** How client code is run; [run] below ties the knot. *)
Variable exec : forall R : Type, prog R -> M R.

(** An object literal. *)
Definition alloc (ps : list (string * value)) : M value :=
  id <- gets next_id ;;
  modify (set_next_id (S id)) ;;;
  ret (VObj id ps).

(** Lines 61-65: [nextListeners = currentListeners.slice()] when the two
    are the same array. *)
Definition ensureCanMutateNextListeners : M unit :=
  next <- gets nextListeners ;;
  current <- gets currentListeners ;;
  if Nat.eqb next current
  then
    copy <- gets (array_at current) ;;
    fresh <- gets (fun w => length (arrays w)) ;;
    modify (fun w => set_nextListeners fresh (set_arrays (arrays w ++ [copy]) w))
  else ret tt.

(** [getState()], lines 73-83. *)
Definition getState : M value :=
  dispatching <- gets isDispatching ;;
  if dispatching : bool then throw (Error GetStateWhileReducing)
  else gets currentState.

(** The closure returned by [subscribe], lines 138-155. *)
Definition unsubscribe (u : nat) : M value :=
  closure <- gets (fun w => closures w !! u) ;;
  match closure with
  | None => throw TypeError
  | Some (listener, isSubscribed) =>
      if negb isSubscribed then ret VUndef
      else
        dispatching <- gets isDispatching ;;
        if dispatching : bool then throw (Error UnsubscribeWhileReducing)
        else
          modify (fun w => set_closures (<[u := (listener, false)]> (closures w)) w) ;;;
          ensureCanMutateNextListeners ;;;
          modify (fun w =>
            let index := indexOf listener (array_at (nextListeners w) w) in
            set_arrays (alter (splice1 index) (nextListeners w) (arrays w)) w) ;;;
          ret VUndef
  end.

(** [subscribe(listener)], lines 119-156. *)
Definition subscribe (listener : value) : M value :=
  if negb (is_function listener) then throw (Error ExpectedListenerFunction)
  else
    dispatching <- gets isDispatching ;;
    if dispatching : bool then throw (Error SubscribeWhileReducing)
    else
      u <- gets (fun w => length (closures w)) ;;
      modify (fun w => set_closures (closures w ++ [(listener, true)]) w) ;;;
      ensureCanMutateNextListeners ;;;
      modify (fun w =>
        set_arrays (alter (fun a => a ++ [listener]) (nextListeners w) (arrays w)) w) ;;;
      ret (VUnsub u).

(** [f(...args)] *)
Definition call (f : value) (args : list value) : M value :=
  match f with
  | VFun id => exec value (code id args)
  | VUnsub u => unsubscribe u
  | _ => throw TypeError
  end.

(** The loop of lines 221-224 over the array [listeners], from index [i];
    the length and the element are read from the array at every turn.
    [n] bounds the number of turns. *)
Fixpoint notify (n : nat) (listeners : nat) (i : nat) : M unit :=
  match n with
  | 0 => fun _ => None
  | S n' =>
      len <- gets (fun w => length (array_at listeners w)) ;;
      if Nat.ltb i len
      then
        listener <- gets (fun w => default VUndef (array_at listeners w !! i)) ;;
        call listener [] ;;;
        notify n' listeners (S i)
      else ret tt
  end.

(** [dispatch(action)], lines 195-211: the three guards, in order.  The
    action whose [type] is read is a plain object, with nothing but
    [Object.prototype] behind it, which holds no [type]. *)
Definition rejection (action : value) (w : world) : option error :=
  if negb (isPlainObject plain action)
  then Some (Error ActionsMustBePlainObjects)
  else
    match get_prop action "type" with
    | Err e => Some e
    | Ok type =>
        if is_undefined type then Some (Error UndefinedTypeProperty)
        else if isDispatching w then Some (Error ReducersMayNotDispatch)
        else None
    end.

(** Lines 213-218: the reducer runs between the two writes of the flag. *)
Definition reduce (action : value) : M unit :=
  try_finally
    (modify (set_isDispatching true) ;;;
     reducer <- gets currentReducer ;;
     state <- gets currentState ;;
     next <- call reducer [state; action] ;;
     modify (set_currentState next))
    (set_isDispatching false).

(** Lines 220-224: [const listeners = (currentListeners = nextListeners)]
    and the loop. *)
Definition notifyListeners (n : nat) : M unit :=
  modify (fun w => set_currentListeners (nextListeners w) w) ;;;
  listeners <- gets currentListeners ;;
  notify n listeners 0.

(** [dispatch(action)], lines 194-227. *)
Definition dispatch (n : nat) (action : value) : M value :=
  fun w =>
    match rejection action w with
    | Some e => throw e w
    | None => (reduce action ;;; notifyListeners n ;;; ret action) w
    end.

(** [replaceReducer(nextReducer)], lines 242-249. *)
Definition replaceReducer (n : nat) (nextReducer : value) : M value :=
  if negb (is_function nextReducer)
  then throw (Error ExpectedNextReducerFunction)
  else
    modify (set_currentReducer nextReducer) ;;;
    action <- alloc [("type", VStr REPLACE)] ;;
    dispatch n action ;;;
    ret VUndef.

(** [(...args) => dispatch(...args)] of [applyMiddleware], line 48: the
    call goes to what the variable holds when it is made. *)
Definition enhancedDispatch (action : value) : M value :=
  d <- gets dispatchVar ;;
  match d with
  | None => throw (Error DispatchingWhileConstructing)
  | Some f => exec value (f action)
  end.

End Methods.

(** Running client code: every API call is served by the store, and its
    outcome is passed on.  One unit of fuel per call. *)
Fixpoint run (fuel : nat) (R : Type) (p : prog R) {struct fuel} : M R :=
  match fuel with
  | 0 => fun _ => None
  | S f =>
      match p with
      | Ret r => ret r
      | Throw e => throw e
      | GetState k => o <- attempt getState ;; run f R (k o)
      | Dispatch action k =>
          o <- attempt (dispatch (run f) f action) ;; run f R (k o)
      | Subscribe listener k =>
          o <- attempt (subscribe listener) ;; run f R (k o)
      | ReplaceReducer nextReducer k =>
          o <- attempt (replaceReducer (run f) f nextReducer) ;; run f R (k o)
      | Call g args k =>
          o <- attempt (call (run f) g args) ;; run f R (k o)
      | EnhancedDispatch action k =>
          o <- attempt (enhancedDispatch (run f) action) ;; run f R (k o)
      | ReadVar x k =>
          v <- gets (fun w => default VUndef (lookup_key x (variables w))) ;;
          run f R (k v)
      | WriteVar x v k =>
          modify (fun w => set_variables (set_key x v (variables w)) w) ;;;
          run f R k
      | Log line k =>
          modify (fun w => set_console (console w ++ [line]) w) ;;; run f R k
      end
  end.

(** The store object: its methods, as client code calls them. *)
Record store : Type := Store {
  store_dispatch : value -> prog value;
  store_subscribe : value -> prog value;
  store_getState : prog value;
  store_replaceReducer : value -> prog value
}.

Definition base_store : store :=
  Store (fun action => Dispatch action rethrow)
        (fun listener => Subscribe listener rethrow)
        (GetState rethrow)
        (fun nextReducer => ReplaceReducer nextReducer rethrow).

(** [(reducer, preloadedState) => store] and [createStore => createStore]. *)
Definition constructor : Type := value -> value -> M store.
Definition enhancer : Type := constructor -> constructor.

(** What a client function does when it is called as a store enhancer;
    [code] gives it no constructor to call. *)
Variable enhancers : nat -> enhancer.

(** [enhancer(createStore)(reducer, preloadedState)], line 48.  An
    [unsubscribe] closure returns [undefined], which is not callable. *)
Definition enhance (createStore : constructor) (enhancer : value)
    (reducer preloadedState : value) : M store :=
  match enhancer with
  | VFun e => enhancers e createStore reducer preloadedState
  | VUnsub u => unsubscribe u ;;; throw TypeError
  | _ => throw TypeError
  end.

(** Lines 51-59 and 298-306: the variables of the new store replace those
    of the world, INIT is dispatched, the store object is returned. *)
Definition initialise (fuel : nat) (reducer preloadedState : value) : M store :=
  modify (fun w => World reducer preloadedState 0 0 false [[]] []
                         (dispatchVar w) (next_id w) (console w)
                         (variables w)) ;;;
  action <- alloc [("type", VStr INIT)] ;;
  dispatch (run fuel) fuel action ;;;
  ret base_store.

(** [createStore(reducer, preloadedState, enhancer)], lines 34-306.  A
    function given as [preloadedState] with no [enhancer] is the enhancer
    (lines 35-38); an enhancer is checked and called before the reducer is
    looked at (lines 40-49), and gets [createStore] itself, which it calls
    with a reducer and a state. *)
Fixpoint createStore (fuel : nat) (reducer preloadedState enhancer : value)
    {struct fuel} : M store :=
  let shifted := is_function preloadedState && is_undefined enhancer in
  let enhancer := if shifted then preloadedState else enhancer in
  let preloadedState := if shifted then VUndef else preloadedState in
  if negb (is_undefined enhancer)
  then
    if negb (is_function enhancer)
    then throw (Error ExpectedEnhancerFunction)
    else
      match fuel with
      | 0 => fun _ => None
      | S fuel' =>
          enhance (fun reducer preloadedState =>
                     createStore fuel' reducer preloadedState VUndef)
                  enhancer reducer preloadedState
      end
  else if negb (is_function reducer) then throw (Error ExpectedReducerFunction)
  else initialise fuel reducer preloadedState.

(** Without an enhancer, and with a state that is not a function. *)
Lemma createStore_without_enhancer fuel reducer preloadedState :
  is_function preloadedState = false ->
  createStore fuel reducer preloadedState VUndef
  = if negb (is_function reducer) then throw (Error ExpectedReducerFunction)
    else initialise fuel reducer preloadedState.
Proof. intros H. destruct fuel; simpl; rewrite H; reflexivity. Qed.

End Engine.

(** ** While the reducer runs *)

(** The part of the world no API call can change while [isDispatching] is
    set. *)
Definition same_store (w w' : world) : Prop :=
  currentState w' = currentState w /\
  isDispatching w' = isDispatching w /\
  currentListeners w' = currentListeners w /\
  nextListeners w' = nextListeners w /\
  arrays w' = arrays w /\
  closures w' = closures w /\
  dispatchVar w' = dispatchVar w.

Lemma same_store_refl w : same_store w w.
Proof. now repeat split. Qed.

Lemma same_store_trans w1 w2 w3 :
  same_store w1 w2 -> same_store w2 w3 -> same_store w1 w3.
Proof.
  unfold same_store. intros (?&?&?&?&?&?&?) (?&?&?&?&?&?&?).
  repeat split; congruence.
Qed.

Section Reentrancy.

Variable REPLACE : string.
Variable plain : nat -> bool.
Variable code : nat -> list value -> prog value.

Lemma getState_while_dispatching w :
  isDispatching w = true ->
  getState w = Some (Err (Error GetStateWhileReducing), w).
Proof. intros H. unfold getState, bind, gets. now rewrite H. Qed.

Lemma subscribe_while_dispatching listener w :
  isDispatching w = true ->
  exists e, subscribe listener w = Some (Err e, w).
Proof.
  intros H. unfold subscribe, bind, gets.
  destruct (is_function listener); simpl; [|now eexists].
  rewrite H. now eexists.
Qed.

Lemma unsubscribe_while_dispatching u w :
  isDispatching w = true ->
  exists o, unsubscribe u w = Some (o, w).
Proof.
  intros H. unfold unsubscribe, bind, gets.
  destruct (closures w !! u) as [[l []]|]; simpl; try (now eexists).
  rewrite H. now eexists.
Qed.

Lemma rejection_while_dispatching action w :
  isDispatching w = true -> exists e, rejection plain action w = Some e.
Proof.
  intros H. unfold rejection.
  destruct (negb _); [now eexists|].
  destruct (get_prop action "type") as [t|e]; [|now eexists].
  destruct (is_undefined t); [now eexists|]. rewrite H. now eexists.
Qed.

Lemma dispatch_while_dispatching exec n action w :
  isDispatching w = true ->
  exists e, dispatch plain code exec n action w = Some (Err e, w).
Proof.
  intros H. unfold dispatch.
  destruct (rejection_while_dispatching action w H) as [e ->]. now exists e.
Qed.

Lemma replaceReducer_while_dispatching exec n nextReducer w o w' :
  isDispatching w = true ->
  replaceReducer REPLACE plain code exec n nextReducer w = Some (o, w') ->
  same_store w w'.
Proof.
  intros H. unfold replaceReducer.
  destruct (negb _).
  - intros [= <- <-]. apply same_store_refl.
  - unfold bind, modify, alloc, gets, ret. simpl.
    match goal with
    | |- context [dispatch _ _ _ _ ?a ?w1] =>
        destruct (dispatch_while_dispatching exec n a w1 H) as [e ->]
    end.
    intros [= <- <-]. now repeat split.
Qed.

Section WithExec.

Variable exec : forall R : Type, prog R -> M R.
Hypothesis exec_frozen : forall R (p : prog R) w o w',
  isDispatching w = true -> exec R p w = Some (o, w') -> same_store w w'.

Lemma call_while_dispatching f args w o w' :
  isDispatching w = true ->
  call code exec f args w = Some (o, w') ->
  same_store w w'.
Proof.
  intros H. destruct f; simpl; try (intros [= <- <-]; apply same_store_refl).
  - now apply exec_frozen.
  - destruct (unsubscribe_while_dispatching u w H) as [o1 ->].
    intros [= <- <-]. apply same_store_refl.
Qed.

Lemma enhancedDispatch_while_dispatching action w o w' :
  isDispatching w = true ->
  enhancedDispatch exec action w = Some (o, w') ->
  same_store w w'.
Proof.
  intros H. unfold enhancedDispatch, bind, gets.
  destruct (dispatchVar w) as [d|].
  - now apply exec_frozen.
  - intros [= <- <-]. apply same_store_refl.
Qed.

End WithExec.

(** No client code, whatever it calls, changes the state, the flag, the
    listeners or the registrations while the flag is set. *)
Lemma run_while_dispatching fuel :
  forall R (p : prog R) w o w',
    isDispatching w = true ->
    run REPLACE plain code fuel R p w = Some (o, w') ->
    same_store w w'.
Proof.
  induction fuel as [|f IH]; intros R p w o w' Hd; simpl; [discriminate|].
  assert (Hk : forall (m : M value) (k : outcome value -> prog R),
             (forall o1 w1, m w = Some (o1, w1) -> same_store w w1) ->
             (o1 <- attempt m ;; run REPLACE plain code f R (k o1)) w
               = Some (o, w') ->
             same_store w w').
  { intros m k Hm. unfold bind, attempt.
    destruct (m w) as [[o1 w1]|] eqn:Hop; [|discriminate].
    intros Hrest. specialize (Hm _ _ eq_refl).
    eapply same_store_trans; [exact Hm|].
    eapply IH; [|exact Hrest].
    destruct Hm as (_ & -> & _). exact Hd. }
  destruct p; simpl.
  - intros [= <- <-]. apply same_store_refl.
  - intros [= <- <-]. apply same_store_refl.
  - apply Hk. intros o1 w1. rewrite getState_while_dispatching by exact Hd.
    intros [= <- <-]. apply same_store_refl.
  - apply Hk. intros o1 w1.
    destruct (dispatch_while_dispatching (run REPLACE plain code f) f action w Hd)
      as [e ->].
    intros [= <- <-]. apply same_store_refl.
  - apply Hk. intros o1 w1.
    destruct (subscribe_while_dispatching listener w Hd) as [e ->].
    intros [= <- <-]. apply same_store_refl.
  - apply Hk. intros o1 w1.
    now apply replaceReducer_while_dispatching.
  - apply Hk. intros o1 w1. now apply call_while_dispatching.
  - apply Hk. intros o1 w1. now apply enhancedDispatch_while_dispatching.
  - unfold bind, gets. intros Hrest. eapply IH; [exact Hd|exact Hrest].
  - unfold bind, modify. intros Hrest.
    eapply same_store_trans; [|eapply IH; [|exact Hrest]]; [|exact Hd].
    now repeat split.
  - unfold bind, modify. intros Hrest.
    eapply same_store_trans; [|eapply IH; [|exact Hrest]]; [|exact Hd].
    now repeat split.
Qed.

End Reentrancy.

(** ** What a dispatch does *)

Section Dispatching.

Variable REPLACE : string.
Variable plain : nat -> bool.
Variable code : nat -> list value -> prog value.

Lemma rejection_cases action w :
  (exists e, rejection plain action w = Some e) <->
  (isPlainObject plain action = false \/
   get_prop action "type" = Ok VUndef \/
   isDispatching w = true).
Proof.
  split.
  - intros [e He]. unfold rejection in He.
    destruct (isPlainObject plain action) eqn:Hp; simpl in He; [|now left].
    destruct (get_prop action "type") as [t|e'] eqn:Ht.
    + destruct t; simpl in He; try (right; left; reflexivity);
        (destruct (isDispatching w); [right; right; reflexivity|discriminate]).
    + destruct action; simpl in Hp, Ht; discriminate.
  - intros [Hp|[Ht|Hd]].
    + unfold rejection. rewrite Hp. now eexists.
    + unfold rejection. rewrite Ht. destruct (negb _); now eexists.
    + now apply rejection_while_dispatching.
Qed.

(** C1: when the guards of [dispatch(action)] let the action through and
    the reducer throws [e] (the reentrancy error of a [dispatch] called by
    the reducer included), [dispatch] throws [e] with the flag already
    reset; the state, the listeners and the registrations are what they
    were before the dispatch; after it [getState] answers, and no dispatch
    is rejected for reentrancy. *)
Theorem failed_reducer_leaves_store_idle fuel action w e w1 :
  rejection plain action w = None ->
  call code (run REPLACE plain code fuel) (currentReducer w)
       [currentState w; action] (set_isDispatching true w) = Some (Err e, w1) ->
  let w' := set_isDispatching false w1 in
  dispatch plain code (run REPLACE plain code fuel) fuel action w
    = Some (Err e, w') /\
  isDispatching w' = false /\
  currentState w' = currentState w /\
  currentListeners w' = currentListeners w /\
  nextListeners w' = nextListeners w /\
  arrays w' = arrays w /\
  closures w' = closures w /\
  getState w' = Some (Ok (currentState w), w') /\
  forall action', rejection plain action' w' <> Some (Error ReducersMayNotDispatch).
Proof.
  intros Hrej Hcall w'.
  assert (Hsame : same_store (set_isDispatching true w) w1).
  { eapply call_while_dispatching; [|reflexivity|exact Hcall].
    intros R p. apply run_while_dispatching. }
  destruct Hsame as (Hst & _ & Hcur & Hnext & Harr & Hclo & _). simpl in *.
  split.
  { unfold dispatch. rewrite Hrej.
    unfold bind, reduce, try_finally, bind, modify, gets. simpl.
    now rewrite Hcall. }
  repeat split; try assumption.
  - unfold getState, bind, gets. simpl. now rewrite Hst.
  - intros action' H. unfold rejection in H.
    destruct (negb _); [discriminate|].
    destruct (get_prop action' "type") as [t|e'] eqn:Ht.
    + destruct (is_undefined t); discriminate.
    + destruct action'; simpl in Ht; try discriminate; congruence.
Qed.

(** C7, as amended: [dispatch(action)] throws before it calls the reducer
    exactly when [action] is not a plain record, or [action.type] is
    [undefined], or the store is dispatching (the guards, in this order).
    Otherwise the reducer is called on the current state and [action]; an
    error thrown by the reducer, or by a listener, comes out of [dispatch];
    when the reducer returns, its result becomes the current state before
    the listeners are notified, and when they return too, [dispatch]
    returns the very value [action]. *)
Theorem dispatch_outcome (exec : forall R : Type, prog R -> M R) n action w :
  (forall e, rejection plain action w = Some e ->
             dispatch plain code exec n action w = Some (Err e, w)) /\
  ((exists e, rejection plain action w = Some e) <->
   (isPlainObject plain action = false \/
    get_prop action "type" = Ok VUndef \/
    isDispatching w = true)) /\
  (rejection plain action w = None ->
   dispatch plain code exec n action w
   = match call code exec (currentReducer w) [currentState w; action]
                (set_isDispatching true w) with
     | None => None
     | Some (Err e, w1) => Some (Err e, set_isDispatching false w1)
     | Some (Ok next, w1) =>
         match notifyListeners code exec n
                 (set_isDispatching false (set_currentState next w1)) with
         | None => None
         | Some (Err e, w2) => Some (Err e, w2)
         | Some (Ok _, w2) => Some (Ok action, w2)
         end
     end) /\
  (forall v w',
     dispatch plain code exec n action w = Some (Ok v, w') ->
     v = action /\
     rejection plain action w = None /\
     exists next w1,
       call code exec (currentReducer w) [currentState w; action]
            (set_isDispatching true w) = Some (Ok next, w1) /\
       currentState (set_isDispatching false (set_currentState next w1)) = next /\
       notifyListeners code exec n
         (set_isDispatching false (set_currentState next w1))
       = Some (Ok tt, w')).
Proof.
  assert (Hbody : rejection plain action w = None ->
    dispatch plain code exec n action w
    = match call code exec (currentReducer w) [currentState w; action]
                 (set_isDispatching true w) with
      | None => None
      | Some (Err e, w1) => Some (Err e, set_isDispatching false w1)
      | Some (Ok next, w1) =>
          match notifyListeners code exec n
                  (set_isDispatching false (set_currentState next w1)) with
          | None => None
          | Some (Err e, w2) => Some (Err e, w2)
          | Some (Ok _, w2) => Some (Ok action, w2)
          end
      end).
  { intros Hrej. unfold dispatch. rewrite Hrej.
    unfold bind at 1. unfold reduce, try_finally, bind, modify, gets. simpl.
    destruct (call code exec _ _ _) as [[[next|e] w1]|]; reflexivity. }
  split; [|split; [|split]].
  - intros e He. unfold dispatch. now rewrite He.
  - apply rejection_cases.
  - exact Hbody.
  - intros v w' Hd.
    destruct (rejection plain action w) as [e|] eqn:Hrej.
    { unfold dispatch in Hd. rewrite Hrej in Hd. discriminate. }
    rewrite (Hbody eq_refl) in Hd.
    destruct (call code exec _ _ _) as [[[next|e] w1]|]; try discriminate.
    destruct (notifyListeners code exec n _) as [[[[]|e] w2]|] eqn:Hn;
      try discriminate.
    injection Hd as <- <-. split; [reflexivity|]. split; [reflexivity|].
    exists next, w1. split; [reflexivity|]. split; [reflexivity|]. exact Hn.
Qed.

End Dispatching.

(** ** Registrations and the staging array *)

(** The staging list: the array [nextListeners] points to. *)
Definition staging (w : world) : list value := array_at (nextListeners w) w.

(** How many elements of [xs] are [===] to [l]. *)
Fixpoint occurrences (l : value) (xs : list value) : nat :=
  match xs with
  | [] => 0
  | x :: rest => (if strict_eq x l then 1 else 0) + occurrences l rest
  end.

(** How many closures still subscribed captured a listener [===] to [l]. *)
Fixpoint active (l : value) (cs : list (value * bool)) : nat :=
  match cs with
  | [] => 0
  | (x, b) :: rest => (if b && strict_eq x l then 1 else 0) + active l rest
  end.

Lemma strict_eq_function_refl l : is_function l = true -> strict_eq l l = true.
Proof. destruct l; simpl; try discriminate; intros _; apply Nat.eqb_refl. Qed.

Lemma strict_eq_function_eq x l :
  is_function l = true -> strict_eq x l = true -> x = l.
Proof.
  destruct l; simpl; try discriminate; intros _;
    destruct x; simpl; try discriminate; intros H;
    apply Nat.eqb_eq in H; now subst.
Qed.

Lemma strict_eq_congr x l l' :
  strict_eq x l = true -> strict_eq x l' = strict_eq l l'.
Proof.
  destruct x, l; simpl; try discriminate; intros H; destruct l'; simpl;
    try reflexivity.
  - apply Bool.eqb_prop in H. now subst.
  - apply Z.eqb_eq in H. now subst.
  - apply String.eqb_eq in H. now subst.
  - apply Nat.eqb_eq in H. now subst.
  - apply Nat.eqb_eq in H. now subst.
  - apply Nat.eqb_eq in H. now subst.
Qed.

Lemma occurrences_app l xs ys :
  occurrences l (xs ++ ys) = occurrences l xs + occurrences l ys.
Proof. induction xs as [|x xs IH]; simpl; [reflexivity|]. rewrite IH. lia. Qed.

Lemma active_app l cs ds :
  active l (cs ++ ds) = active l cs + active l ds.
Proof.
  induction cs as [|[x b] cs IH]; simpl; [reflexivity|]. rewrite IH. lia.
Qed.

Lemma occurrences_delete l xs i x :
  xs !! i = Some x ->
  occurrences l (delete i xs) + (if strict_eq x l then 1 else 0)
  = occurrences l xs.
Proof.
  revert i. induction xs as [|y xs IH]; intros [|i] H; simpl in *;
    try discriminate.
  - injection H as ->. lia.
  - rewrite <- (IH i H). lia.
Qed.

Lemma active_unsubscribe l cs u x :
  cs !! u = Some (x, true) ->
  active l (<[u := (x, false)]> cs) + (if strict_eq x l then 1 else 0)
  = active l cs.
Proof.
  revert u. induction cs as [|[y b] cs IH]; intros [|u] H; simpl in *;
    try discriminate.
  - injection H as -> ->. simpl. lia.
  - rewrite <- (IH u H). lia.
Qed.

Lemma active_positive l cs u :
  cs !! u = Some (l, true) -> strict_eq l l = true -> 0 < active l cs.
Proof.
  revert u. induction cs as [|[y b] cs IH]; intros [|u] H Hl; simpl in *;
    try discriminate.
  - injection H as -> ->. rewrite Hl. simpl. lia.
  - specialize (IH u H Hl). lia.
Qed.

(** [indexOf] finds the first occurrence. *)
Lemma indexOf_found l xs :
  0 < occurrences l xs ->
  exists i x,
    indexOf l xs = Z.of_nat i /\
    xs !! i = Some x /\
    strict_eq x l = true /\
    forall j y, j < i -> xs !! j = Some y -> strict_eq y l = false.
Proof.
  induction xs as [|y xs IH]; simpl; [lia|].
  destruct (strict_eq y l) eqn:Hy.
  - intros _. exists 0, y. repeat split; try assumption. intros j z Hj. lia.
  - intros Hpos. destruct IH as (i & x & Hi & Hx & Hxl & Hmin); [lia|].
    exists (S i), x. rewrite Hi.
    destruct (Z.ltb_spec (Z.of_nat i) 0); [lia|].
    repeat split; try assumption; [lia|].
    intros [|j] z Hj Hz; simpl in Hz.
    + now injection Hz as <-.
    + eapply Hmin; [|exact Hz]. lia.
Qed.

Lemma indexOf_missing l xs : occurrences l xs = 0 -> indexOf l xs = (-1)%Z.
Proof.
  induction xs as [|y xs IH]; simpl; [reflexivity|].
  destruct (strict_eq y l); [discriminate|].
  intros H. rewrite IH by exact H. reflexivity.
Qed.

(** When [indexOf] finds nothing, [splice(-1, 1)] removes the last
    element; in a store this never happens, see [unsubscribed_staging]. *)
Example splice1_minus_one :
  splice1 (indexOf (VFun 9) [VFun 1; VFun 2; VFun 3]) [VFun 1; VFun 2; VFun 3]
  = [VFun 1; VFun 2].
Proof. reflexivity. Qed.

Lemma splice1_at i xs :
  i < length xs -> splice1 (Z.of_nat i) xs = delete i xs.
Proof.
  intros Hi. unfold splice1.
  destruct (Z.ltb_spec (Z.of_nat i) 0); [lia|].
  rewrite Z.min_l by lia. now rewrite Nat2Z.id.
Qed.

Lemma occurrences_lookup l xs i x :
  xs !! i = Some x -> strict_eq x l = true -> 0 < occurrences l xs.
Proof.
  intros Hx Heq. pose proof (occurrences_delete l xs i x Hx) as H.
  rewrite Heq in H. lia.
Qed.

Lemma active_found l cs :
  0 < active l cs ->
  exists u x, cs !! u = Some (x, true) /\ strict_eq x l = true.
Proof.
  induction cs as [|[x b] cs IH]; simpl; [lia|].
  destruct (b && strict_eq x l) eqn:Hx.
  - apply andb_true_iff in Hx as [-> Hx]. intros _. now exists 0, x.
  - intros H. destruct IH as (u & y & Hu & Hy); [lia|]. now exists (S u), y.
Qed.

(** A function is in a list exactly when it is counted there. *)
Lemma occurrences_In l xs :
  is_function l = true -> (In l xs <-> 0 < occurrences l xs).
Proof.
  intros Hf. split.
  - intros Hin. apply list_elem_of_In, list_elem_of_lookup in Hin as [i Hi].
    eapply occurrences_lookup; [exact Hi|]. now apply strict_eq_function_refl.
  - intros Hpos. destruct (indexOf_found l xs Hpos) as (i & x & _ & Hx & Heq & _).
    apply strict_eq_function_eq in Heq; [|exact Hf]. subst x.
    apply list_elem_of_In. eapply list_elem_of_lookup_2, Hx.
Qed.

(** An array that no write can reach: it is not the staging array, or it
    is also the current snapshot (a write copies the staging array first
    in that case). *)
Definition stable (r : nat) (w : world) : Prop :=
  r < length (arrays w) /\ (r <> nextListeners w \/ r = currentListeners w).

(** The staging list holds one entry per subscribed closure. *)
Definition registered (w : world) : Prop :=
  nextListeners w < length (arrays w) /\
  Forall (fun c => is_function (fst c) = true) (closures w) /\
  forall l, occurrences l (staging w) = active l (closures w).

(** What every step of the store and of its clients maintains. *)
Definition evolves (w w' : world) : Prop :=
  (forall r, stable r w -> stable r w' /\ arrays w' !! r = arrays w !! r) /\
  (registered w -> registered w') /\
  (forall u l, closures w !! u = Some (l, false) ->
               closures w' !! u = Some (l, false)).

Lemma evolves_refl w : evolves w w.
Proof.
  split; [|split].
  - intros r Hr. now split.
  - auto.
  - auto.
Qed.

Lemma evolves_trans w1 w2 w3 : evolves w1 w2 -> evolves w2 w3 -> evolves w1 w3.
Proof.
  intros (Hs1 & Hr1 & Hc1) (Hs2 & Hr2 & Hc2). split; [|split].
  - intros r Hr. destruct (Hs1 r Hr) as [H1 E1].
    destruct (Hs2 r H1) as [H2 E2]. split; [exact H2|congruence].
  - auto.
  - auto.
Qed.

(** Steps that leave the arrays, the two references and the closures
    alone. *)
Lemma evolves_same w w' :
  arrays w' = arrays w ->
  currentListeners w' = currentListeners w ->
  nextListeners w' = nextListeners w ->
  closures w' = closures w ->
  evolves w w'.
Proof.
  intros Ha Hc Hn Hcl. unfold evolves, stable, registered, staging, array_at.
  rewrite Ha, Hc, Hn, Hcl. split; [|split]; auto.
Qed.

(** [currentListeners = nextListeners] *)
Lemma evolves_snapshot w :
  evolves w (set_currentListeners (nextListeners w) w).
Proof.
  unfold evolves, stable, registered, staging, array_at. simpl.
  split; [|split]; auto.
  intros r [Hlen Hr]. split; [|reflexivity]. split; [exact Hlen|].
  destruct (Nat.eq_dec r (nextListeners w)); [now right|now left].
Qed.

(** The world after [ensureCanMutateNextListeners]. *)
Definition ensured (w : world) : world :=
  if Nat.eqb (nextListeners w) (currentListeners w)
  then set_nextListeners (length (arrays w))
         (set_arrays (arrays w ++ [array_at (currentListeners w) w]) w)
  else w.

Lemma ensureCanMutateNextListeners_eq w :
  ensureCanMutateNextListeners w = Some (Ok tt, ensured w).
Proof.
  unfold ensureCanMutateNextListeners, ensured, bind, gets, modify, ret.
  now destruct (Nat.eqb _ _).
Qed.

Lemma staging_ensured w : staging (ensured w) = staging w.
Proof.
  unfold ensured, staging, array_at.
  destruct (Nat.eqb_spec (nextListeners w) (currentListeners w)) as [E|_];
    [|reflexivity].
  simpl. rewrite E.
  now rewrite lookup_app_r, Nat.sub_diag by lia.
Qed.

Lemma closures_ensured w : closures (ensured w) = closures w.
Proof. unfold ensured. now destruct (Nat.eqb _ _). Qed.

Lemma ensured_valid w :
  nextListeners w < length (arrays w) ->
  nextListeners (ensured w) < length (arrays (ensured w)).
Proof.
  unfold ensured. destruct (Nat.eqb _ _); simpl; [|auto].
  rewrite length_app. simpl. lia.
Qed.

(** The world after a write [f] to the staging array: the copy first, then
    the write (lines 135-136 and 152-154). *)
Definition written (f : list value -> list value) (w : world) : world :=
  set_arrays (alter f (nextListeners (ensured w)) (arrays (ensured w)))
             (ensured w).

Lemma stable_written f w r :
  stable r w ->
  stable r (written f w) /\ arrays (written f w) !! r = arrays w !! r.
Proof.
  unfold stable, written, ensured. intros [Hlen Hr].
  destruct (Nat.eqb_spec (nextListeners w) (currentListeners w)) as [E|E]; simpl.
  - rewrite length_alter, length_app. simpl.
    split; [split; [lia|left; lia]|].
    rewrite list_lookup_alter_ne by lia. now rewrite lookup_app_l.
  - rewrite length_alter. assert (r <> nextListeners w) by (destruct Hr; congruence).
    split; [split; [lia|now left]|].
    now rewrite list_lookup_alter_ne by congruence.
Qed.

Lemma staging_written f w :
  nextListeners w < length (arrays w) ->
  staging (written f w) = f (staging w).
Proof.
  intros Hv. rewrite <- (staging_ensured w).
  pose proof (ensured_valid w Hv) as Hv'.
  unfold written, staging, array_at. simpl.
  rewrite list_lookup_alter_eq.
  destruct (arrays (ensured w) !! nextListeners (ensured w)) eqn:E;
    [reflexivity|].
  apply lookup_ge_None in E. lia.
Qed.

Lemma written_valid f w :
  nextListeners w < length (arrays w) ->
  nextListeners (written f w) < length (arrays (written f w)).
Proof.
  intros Hv. unfold written. simpl. rewrite length_alter.
  now apply ensured_valid.
Qed.

Lemma closures_written f w : closures (written f w) = closures w.
Proof. unfold written. simpl. apply closures_ensured. Qed.

(** [subscribe] in the idle phase: one more closure, one more entry at the
    end of the staging list. *)
Definition subscribed (listener : value) (w : world) : world :=
  written (fun a => a ++ [listener])
          (set_closures (closures w ++ [(listener, true)]) w).

Lemma subscribe_idle listener w :
  is_function listener = true ->
  isDispatching w = false ->
  subscribe listener w
  = Some (Ok (VUnsub (length (closures w))), subscribed listener w).
Proof.
  intros Hf Hd. unfold subscribe. rewrite Hf. simpl.
  unfold bind, gets, modify, ret. rewrite Hd.
  now rewrite ensureCanMutateNextListeners_eq.
Qed.

(** The first call of an [unsubscribe] closure in the idle phase: the flag
    is cleared, the entry [indexOf] finds is spliced out. *)
Definition unsubscribed (u : nat) (listener : value) (w : world) : world :=
  written (splice1 (indexOf listener (staging w)))
          (set_closures (<[u := (listener, false)]> (closures w)) w).

Lemma unsubscribe_idle u listener w :
  closures w !! u = Some (listener, true) ->
  isDispatching w = false ->
  unsubscribe u w = Some (Ok VUndef, unsubscribed u listener w).
Proof.
  intros Hc Hd. unfold unsubscribe, bind, gets, modify, ret.
  rewrite Hc. simpl. rewrite Hd.
  rewrite ensureCanMutateNextListeners_eq. unfold unsubscribed, written.
  do 5 f_equal.
  change (array_at (nextListeners (ensured ?x)) (ensured ?x))
    with (staging (ensured x)).
  now rewrite staging_ensured.
Qed.

Lemma evolves_subscribed listener w :
  is_function listener = true -> evolves w (subscribed listener w).
Proof.
  intros Hf. unfold subscribed.
  set (w0 := set_closures (closures w ++ [(listener, true)]) w).
  split; [|split].
  - intros r Hr. apply (stable_written _ w0 r Hr).
  - intros (Hv & Hfun & Hcount). split; [|split].
    + now apply written_valid.
    + rewrite closures_written. simpl. apply Forall_app. split; [exact Hfun|].
      now repeat constructor.
    + intros l. rewrite staging_written by exact Hv.
      rewrite closures_written. simpl.
      rewrite occurrences_app, active_app.
      change (staging w0) with (staging w). rewrite Hcount. reflexivity.
  - intros u l Hu. rewrite closures_written. simpl.
    now apply lookup_app_l_Some.
Qed.

(** What the first call removes: the entry at the first index whose
    element is the listener. *)
Lemma unsubscribed_staging u listener w :
  registered w ->
  closures w !! u = Some (listener, true) ->
  exists i,
    staging w !! i = Some listener /\
    (forall j y, j < i -> staging w !! j = Some y -> strict_eq y listener = false) /\
    staging (unsubscribed u listener w) = delete i (staging w).
Proof.
  intros (Hv & Hfun & Hcount) Hu.
  assert (Hf : is_function listener = true).
  { rewrite Forall_lookup in Hfun. apply (Hfun u _ Hu). }
  destruct (indexOf_found listener (staging w)) as (i & x & Hi & Hx & Hxl & Hmin).
  { rewrite Hcount. eapply active_positive; [exact Hu|].
    now apply strict_eq_function_refl. }
  apply strict_eq_function_eq in Hxl; [|exact Hf]. subst x.
  exists i. split; [exact Hx|]. split; [exact Hmin|].
  unfold unsubscribed. rewrite staging_written by exact Hv.
  change (staging (set_closures _ w)) with (staging w).
  rewrite Hi. apply splice1_at. now apply lookup_lt_Some in Hx.
Qed.

Lemma evolves_unsubscribed u listener w :
  closures w !! u = Some (listener, true) ->
  evolves w (unsubscribed u listener w).
Proof.
  intros Hu. split; [|split].
  - intros r Hr. unfold unsubscribed.
    apply (stable_written _ (set_closures _ w) r Hr).
  - intros Hreg.
    destruct (unsubscribed_staging u listener w Hreg Hu) as (i & Hi & _ & Hst).
    destruct Hreg as (Hv & Hfun & Hcount).
    assert (Hf : is_function listener = true).
    { rewrite Forall_lookup in Hfun. apply (Hfun u _ Hu). }
    split; [|split].
    + unfold unsubscribed. now apply written_valid.
    + unfold unsubscribed. rewrite closures_written. simpl.
      now apply Forall_insert.
    + intros l. rewrite Hst. unfold unsubscribed. rewrite closures_written.
      simpl.
      pose proof (occurrences_delete l (staging w) i listener Hi) as H1.
      pose proof (active_unsubscribe l (closures w) u listener Hu) as H2.
      rewrite Hcount in H1. lia.
  - intros u' l Hu'. unfold unsubscribed. rewrite closures_written. simpl.
    rewrite list_lookup_insert_ne; [exact Hu'|]. intros ->. congruence.
Qed.

(** ** Every computation maintains the invariants *)

Definition preserves {A : Type} (m : M A) : Prop :=
  forall w o w', m w = Some (o, w') -> evolves w w'.

Lemma preserves_ret {A : Type} (a : A) : preserves (ret a).
Proof. intros w o w' [= <- <-]. apply evolves_refl. Qed.

Lemma preserves_throw {A : Type} (e : error) : preserves (@throw A e).
Proof. intros w o w' [= <- <-]. apply evolves_refl. Qed.

Lemma preserves_gets {A : Type} (f : world -> A) : preserves (gets f).
Proof. intros w o w' [= <- <-]. apply evolves_refl. Qed.

Lemma preserves_modify (f : world -> world) :
  (forall w, evolves w (f w)) -> preserves (modify f).
Proof. intros Hf w o w' [= <- <-]. apply Hf. Qed.

Lemma preserves_bind {A B : Type} (m : M A) (k : A -> M B) :
  preserves m -> (forall a, preserves (k a)) -> preserves (bind m k).
Proof.
  intros Hm Hk w o w'. unfold bind.
  destruct (m w) as [[[a|e] w1]|] eqn:E; [| |discriminate].
  - intros H. eapply evolves_trans; [eapply Hm, E|eapply Hk, H].
  - intros [= <- <-]. eapply Hm, E.
Qed.

Lemma preserves_attempt {A : Type} (m : M A) :
  preserves m -> preserves (attempt m).
Proof.
  intros Hm w o w'. unfold attempt.
  destruct (m w) as [[o1 w1]|] eqn:E; [|discriminate].
  intros [= <- <-]. eapply Hm, E.
Qed.

Lemma preserves_try_finally {A : Type} (m : M A) (fin : world -> world) :
  preserves m -> (forall w, evolves w (fin w)) -> preserves (try_finally m fin).
Proof.
  intros Hm Hfin w o w'. unfold try_finally.
  destruct (m w) as [[o1 w1]|] eqn:E; [|discriminate].
  intros [= <- <-]. eapply evolves_trans; [eapply Hm, E|apply Hfin].
Qed.

Lemma preserves_getState : preserves getState.
Proof.
  apply preserves_bind; [apply preserves_gets|].
  intros []; [apply preserves_throw|apply preserves_gets].
Qed.

Lemma preserves_alloc ps : preserves (alloc ps).
Proof.
  apply preserves_bind; [apply preserves_gets|]. intros id.
  apply preserves_bind; [|intros; apply preserves_ret].
  apply preserves_modify. intros w. now apply evolves_same.
Qed.

Lemma preserves_subscribe listener : preserves (subscribe listener).
Proof.
  intros w o w' H.
  destruct (is_function listener) eqn:Hf.
  - destruct (isDispatching w) eqn:Hd.
    + destruct (subscribe_while_dispatching listener w Hd) as [e He].
      rewrite He in H. injection H as <- <-. apply evolves_refl.
    + rewrite subscribe_idle in H by assumption. injection H as <- <-.
      now apply evolves_subscribed.
  - unfold subscribe in H. rewrite Hf in H. injection H as <- <-.
    apply evolves_refl.
Qed.

Lemma preserves_unsubscribe u : preserves (unsubscribe u).
Proof.
  intros w o w' H.
  destruct (isDispatching w) eqn:Hd.
  - destruct (unsubscribe_while_dispatching u w Hd) as [o1 Ho].
    rewrite Ho in H. injection H as <- <-. apply evolves_refl.
  - destruct (closures w !! u) as [[l [|]]|] eqn:Hu.
    + rewrite (unsubscribe_idle u l) in H by assumption.
      injection H as <- <-. now apply evolves_unsubscribed.
    + unfold unsubscribe, bind, gets in H. rewrite Hu in H.
      injection H as <- <-. apply evolves_refl.
    + unfold unsubscribe, bind, gets in H. rewrite Hu in H.
      injection H as <- <-. apply evolves_refl.
Qed.

Section Preservation.

Variable REPLACE : string.
Variable plain : nat -> bool.
Variable code : nat -> list value -> prog value.

Section WithExec.

Variable exec : forall R : Type, prog R -> M R.
Hypothesis exec_preserves : forall R (p : prog R), preserves (exec R p).

Lemma preserves_call f args : preserves (call code exec f args).
Proof.
  destruct f; simpl; try apply preserves_throw.
  - apply exec_preserves.
  - apply preserves_unsubscribe.
Qed.

Lemma preserves_notify n : forall listeners i,
  preserves (notify code exec n listeners i).
Proof.
  induction n as [|n IH]; intros listeners i; simpl.
  - intros w o w'. discriminate.
  - apply preserves_bind; [apply preserves_gets|]. intros len.
    destruct (Nat.ltb i len); [|apply preserves_ret].
    apply preserves_bind; [apply preserves_gets|]. intros listener.
    apply preserves_bind; [apply preserves_call|]. intros _. apply IH.
Qed.

Lemma preserves_reduce action : preserves (reduce code exec action).
Proof.
  apply preserves_try_finally; [|intros w; now apply evolves_same].
  apply preserves_bind.
  { apply preserves_modify. intros w. now apply evolves_same. }
  intros _. apply preserves_bind; [apply preserves_gets|]. intros reducer.
  apply preserves_bind; [apply preserves_gets|]. intros state.
  apply preserves_bind; [apply preserves_call|]. intros next.
  apply preserves_modify. intros w. now apply evolves_same.
Qed.

Lemma preserves_notifyListeners n : preserves (notifyListeners code exec n).
Proof.
  apply preserves_bind.
  { apply preserves_modify. apply evolves_snapshot. }
  intros _. apply preserves_bind; [apply preserves_gets|]. intros listeners.
  apply preserves_notify.
Qed.

Lemma preserves_dispatch n action :
  preserves (dispatch plain code exec n action).
Proof.
  intros w o w'. unfold dispatch.
  destruct (rejection plain action w).
  - apply preserves_throw.
  - apply preserves_bind; [apply preserves_reduce|]. intros _.
    apply preserves_bind; [apply preserves_notifyListeners|]. intros _.
    apply preserves_ret.
Qed.

Lemma preserves_replaceReducer n nextReducer :
  preserves (replaceReducer REPLACE plain code exec n nextReducer).
Proof.
  unfold replaceReducer. destruct (negb _); [apply preserves_throw|].
  apply preserves_bind.
  { apply preserves_modify. intros w. now apply evolves_same. }
  intros _. apply preserves_bind; [apply preserves_alloc|]. intros action.
  apply preserves_bind; [apply preserves_dispatch|]. intros _.
  apply preserves_ret.
Qed.

Lemma preserves_enhancedDispatch action :
  preserves (enhancedDispatch exec action).
Proof.
  apply preserves_bind; [apply preserves_gets|].
  intros [d|]; [apply exec_preserves|apply preserves_throw].
Qed.

End WithExec.

(** Client code, whatever it does, never writes to an array that a
    dispatch is iterating over, keeps one staging entry per subscribed
    closure, and never subscribes a closure again. *)
Lemma run_preserves fuel :
  forall R (p : prog R), preserves (run REPLACE plain code fuel R p).
Proof.
  induction fuel as [|f IH]; intros R p; simpl.
  - intros w o w'. discriminate.
  - destruct p.
    + apply preserves_ret.
    + apply preserves_throw.
    + apply preserves_bind; [|intros; apply IH].
      apply preserves_attempt, preserves_getState.
    + apply preserves_bind; [|intros; apply IH].
      now apply preserves_attempt, preserves_dispatch.
    + apply preserves_bind; [|intros; apply IH].
      apply preserves_attempt, preserves_subscribe.
    + apply preserves_bind; [|intros; apply IH].
      now apply preserves_attempt, preserves_replaceReducer.
    + apply preserves_bind; [|intros; apply IH].
      now apply preserves_attempt, preserves_call.
    + apply preserves_bind; [|intros; apply IH].
      now apply preserves_attempt, preserves_enhancedDispatch.
    + apply preserves_bind; [|intros; apply IH]. apply preserves_gets.
    + apply preserves_bind; [|intros; apply IH].
      apply preserves_modify. intros w. now apply evolves_same.
    + apply preserves_bind; [|intros; apply IH].
      apply preserves_modify. intros w. now apply evolves_same.
Qed.

End Preservation.

(** ** Notification and registration *)

Section Notification.

Variable REPLACE : string.
Variable plain : nat -> bool.
Variable code : nat -> list value -> prog value.

(** Calling the listeners of a list, first to last, with no arguments,
    until one throws. *)
Fixpoint invoke_in_order (exec : forall R : Type, prog R -> M R)
    (snapshot : list value) : M unit :=
  match snapshot with
  | [] => ret tt
  | listener :: rest =>
      call code exec listener [] ;;; invoke_in_order exec rest
  end.

(** The loop over an array no write can reach calls what the array held
    when the loop began. *)
Lemma notify_reads_snapshot (exec : forall R : Type, prog R -> M R) snapshot :
  (forall R (p : prog R), preserves (exec R p)) ->
  forall n r i w,
    stable r w ->
    array_at r w = snapshot ->
    i <= length snapshot ->
    length snapshot < i + n ->
    notify code exec n r i w = invoke_in_order exec (drop i snapshot) w.
Proof.
  intros Hexec. induction n as [|n IH]; intros r i w Hst Harr Hi Hn; [lia|].
  simpl. unfold bind at 1, gets at 1. rewrite Harr.
  destruct (Nat.ltb_spec i (length snapshot)) as [Hlt|Hge].
  - destruct (lookup_lt_is_Some_2 snapshot i Hlt) as [x Hx].
    rewrite (drop_S _ _ _ Hx). simpl.
    unfold bind at 1, gets at 1. rewrite Harr, Hx. simpl.
    unfold bind.
    destruct (call code exec x [] w) as [[[v|e] w1]|] eqn:Hcall; try reflexivity.
    pose proof (preserves_call code exec Hexec x [] w _ _ Hcall) as (Hs & _).
    destruct (Hs r Hst) as [Hst1 Heq].
    apply IH; try assumption; try lia.
    unfold array_at in *. now rewrite Heq.
  - rewrite drop_ge by lia. reflexivity.
Qed.

(** A dispatch that passes the guards, when the reducer throws and when
    it returns. *)
Lemma dispatch_fails fuel action w e w1 :
  rejection plain action w = None ->
  call code (run REPLACE plain code fuel) (currentReducer w)
       [currentState w; action] (set_isDispatching true w) = Some (Err e, w1) ->
  dispatch plain code (run REPLACE plain code fuel) fuel action w
  = Some (Err e, set_isDispatching false w1) /\
  same_store w (set_isDispatching false w1).
Proof.
  intros Hrej Hcall.
  assert (Hidle : isDispatching w = false).
  { destruct (isDispatching w) eqn:Hd; [|reflexivity].
    destruct (rejection_while_dispatching plain action w Hd). congruence. }
  split.
  - unfold dispatch. rewrite Hrej.
    unfold bind at 1. unfold reduce, try_finally, bind at 1, modify at 1.
    unfold bind at 1, gets at 1. unfold bind at 1, gets at 1. simpl.
    unfold bind at 1. now rewrite Hcall.
  - assert (Hsame : same_store (set_isDispatching true w) w1).
    { eapply call_while_dispatching; [|reflexivity|exact Hcall].
      intros R p. apply run_while_dispatching. }
    destruct Hsame as (H1 & H2 & H3 & H4 & H5 & H6 & H7).
    simpl in *. repeat split; simpl; congruence.
Qed.

Lemma dispatch_passes fuel action w next w1 :
  nextListeners w < length (arrays w) ->
  rejection plain action w = None ->
  call code (run REPLACE plain code fuel) (currentReducer w)
       [currentState w; action] (set_isDispatching true w) = Some (Ok next, w1) ->
  length (staging w) < fuel ->
  same_store (set_isDispatching true w) w1 /\
  dispatch plain code (run REPLACE plain code fuel) fuel action w
  = (invoke_in_order (run REPLACE plain code fuel) (staging w) ;;;
     ret action)
      (set_currentListeners (nextListeners w)
         (set_isDispatching false (set_currentState next w1))).
Proof.
  intros Hvalid Hrej Hcall Hfuel.
  assert (Hsame : same_store (set_isDispatching true w) w1).
  { eapply call_while_dispatching; [|reflexivity|exact Hcall].
    intros R p. apply run_while_dispatching. }
  split; [exact Hsame|].
  destruct Hsame as (_ & _ & _ & Hnext & Harr & _). simpl in Hnext, Harr.
  unfold dispatch. rewrite Hrej.
  unfold bind at 1. unfold reduce, try_finally, bind at 1, modify at 1.
  unfold bind at 1, gets at 1. unfold bind at 1, gets at 1. simpl.
  unfold bind at 1. rewrite Hcall. unfold modify at 1.
  unfold bind at 1. unfold notifyListeners.
  unfold bind at 1, modify at 1. unfold bind at 1, gets at 1. simpl.
  rewrite Hnext.
  rewrite (notify_reads_snapshot (run REPLACE plain code fuel) (staging w)).
  - rewrite drop_0. reflexivity.
  - intros R p. apply run_preserves.
  - split; simpl; [now rewrite Harr|now right].
  - unfold staging, array_at. simpl. now rewrite Harr.
  - lia.
  - lia.
Qed.

(** C8, as amended: a call of [subscribe(listener)] in the idle phase adds
    one entry for [listener] at the end of the staging list and returns a
    closure.  The first call of that closure in the idle phase removes
    exactly one entry of the staging list: the first one that is
    [listener]; the list has one entry of [listener] less, and every other
    entry stays, in order.  From then on its flag stays cleared whatever
    client code runs, and every later call, in any phase, returns without
    throwing and changes nothing. *)
Theorem unsubscribe_removes_one_entry listener w0 :
  registered w0 ->
  isDispatching w0 = false ->
  is_function listener = true ->
  let u := length (closures w0) in
  subscribe listener w0 = Some (Ok (VUnsub u), subscribed listener w0) /\
  staging (subscribed listener w0) = staging w0 ++ [listener] /\
  closures (subscribed listener w0) !! u = Some (listener, true) /\
  registered (subscribed listener w0) /\
  (forall w,
     registered w ->
     isDispatching w = false ->
     closures w !! u = Some (listener, true) ->
     exists i,
       unsubscribe u w = Some (Ok VUndef, unsubscribed u listener w) /\
       staging w !! i = Some listener /\
       (forall j y, j < i -> staging w !! j = Some y ->
                    strict_eq y listener = false) /\
       staging (unsubscribed u listener w) = delete i (staging w) /\
       length (staging (unsubscribed u listener w)) + 1 = length (staging w) /\
       (forall l,
          occurrences l (staging (unsubscribed u listener w))
          + (if strict_eq listener l then 1 else 0)
          = occurrences l (staging w)) /\
       closures (unsubscribed u listener w)
       = <[u := (listener, false)]> (closures w) /\
       registered (unsubscribed u listener w)) /\
  (forall w,
     closures w !! u = Some (listener, false) ->
     unsubscribe u w = Some (Ok VUndef, w) /\
     forall fuel R (p : prog R) o w',
       run REPLACE plain code fuel R p w = Some (o, w') ->
       closures w' !! u = Some (listener, false)).
Proof.
  intros Hreg Hidle Hfun u.
  pose proof (evolves_subscribed listener w0 Hfun) as (_ & Hreg1 & _).
  split; [now apply subscribe_idle|].
  split.
  { unfold subscribed. rewrite staging_written by apply Hreg. reflexivity. }
  split.
  { unfold subscribed. rewrite closures_written. simpl.
    now rewrite lookup_app_r, Nat.sub_diag by lia. }
  split; [now apply Hreg1|].
  split.
  - intros w Hw Hd Hu.
    destruct (unsubscribed_staging u listener w Hw Hu) as (i & Hi & Hmin & Hst).
    exists i. split; [now apply unsubscribe_idle|].
    split; [exact Hi|]. split; [exact Hmin|]. split; [exact Hst|].
    split.
    { rewrite Hst, length_delete by (now exists listener).
      apply lookup_lt_Some in Hi. lia. }
    split.
    { intros l. rewrite Hst. now apply occurrences_delete. }
    split.
    { unfold unsubscribed. now rewrite closures_written. }
    now apply (evolves_unsubscribed u listener w Hu).
  - intros w Hu. split.
    + unfold unsubscribe, bind, gets. now rewrite Hu.
    + intros fuel R p o w' Hrun.
      now apply (run_preserves REPLACE plain code fuel R p w o w' Hrun).
Qed.

End Notification.

(** ** Independence of the [dispatch] variable of [applyMiddleware] *)

(** Client code that never calls the enhanced [dispatch]. *)
Fixpoint base_only {R : Type} (p : prog R) : Prop :=
  match p with
  | Ret _ | Throw _ => True
  | GetState k | Dispatch _ k | Subscribe _ k | ReplaceReducer _ k
  | Call _ _ k => forall o, base_only (k o)
  | EnhancedDispatch _ _ => False
  | ReadVar _ k => forall v, base_only (k v)
  | WriteVar _ _ k | Log _ k => base_only k
  end.

(** The same result, in a world where the variable holds [d]. *)
Definition over {A : Type} (d : option (value -> prog value))
    (r : option (outcome A * world)) : option (outcome A * world) :=
  match r with
  | Some (o, w') => Some (o, set_dispatchVar d w')
  | None => None
  end.

(** [m] neither reads nor writes the variable. *)
Definition commutes {A : Type} (d : option (value -> prog value)) (m : M A) : Prop :=
  forall w, m (set_dispatchVar d w) = over d (m w).

Section Independence.

Variable d : option (value -> prog value).

Lemma commutes_ret {A : Type} (a : A) : commutes d (ret a).
Proof. intros w. reflexivity. Qed.

Lemma commutes_throw {A : Type} (e : error) : commutes d (@throw A e).
Proof. intros w. reflexivity. Qed.

Lemma commutes_gets {A : Type} (f : world -> A) :
  (forall w, f (set_dispatchVar d w) = f w) -> commutes d (gets f).
Proof. intros Hf w. unfold gets. now rewrite Hf. Qed.

Lemma commutes_modify (f : world -> world) :
  (forall w, f (set_dispatchVar d w) = set_dispatchVar d (f w)) ->
  commutes d (modify f).
Proof. intros Hf w. unfold modify. simpl. now rewrite Hf. Qed.

Lemma commutes_bind {A B : Type} (m : M A) (k : A -> M B) :
  commutes d m -> (forall a, commutes d (k a)) -> commutes d (bind m k).
Proof.
  intros Hm Hk w. unfold bind. rewrite Hm.
  destruct (m w) as [[[a|e] w1]|]; simpl; [apply Hk|reflexivity|reflexivity].
Qed.

Lemma commutes_attempt {A : Type} (m : M A) :
  commutes d m -> commutes d (attempt m).
Proof.
  intros Hm w. unfold attempt. rewrite Hm.
  now destruct (m w) as [[o w1]|].
Qed.

Lemma commutes_try_finally {A : Type} (m : M A) (fin : world -> world) :
  commutes d m ->
  (forall w, fin (set_dispatchVar d w) = set_dispatchVar d (fin w)) ->
  commutes d (try_finally m fin).
Proof.
  intros Hm Hfin w. unfold try_finally. rewrite Hm.
  destruct (m w) as [[o w1]|]; simpl; [now rewrite Hfin|reflexivity].
Qed.

Lemma commutes_alloc ps : commutes d (alloc ps).
Proof.
  apply commutes_bind; [now apply commutes_gets|]. intros id.
  apply commutes_bind; [now apply commutes_modify|]. intros _.
  apply commutes_ret.
Qed.

Lemma commutes_ensure : commutes d ensureCanMutateNextListeners.
Proof.
  apply commutes_bind; [now apply commutes_gets|]. intros next.
  apply commutes_bind; [now apply commutes_gets|]. intros current.
  destruct (Nat.eqb next current); [|apply commutes_ret].
  apply commutes_bind; [now apply commutes_gets|]. intros copy.
  apply commutes_bind; [now apply commutes_gets|]. intros fresh.
  now apply commutes_modify.
Qed.

Lemma commutes_getState : commutes d getState.
Proof.
  apply commutes_bind; [now apply commutes_gets|].
  intros []; [apply commutes_throw|now apply commutes_gets].
Qed.

Lemma commutes_unsubscribe u : commutes d (unsubscribe u).
Proof.
  apply commutes_bind; [now apply commutes_gets|].
  intros [[listener []]|]; simpl; try apply commutes_throw; try apply commutes_ret.
  apply commutes_bind; [now apply commutes_gets|].
  intros []; [apply commutes_throw|].
  apply commutes_bind; [now apply commutes_modify|]. intros _.
  apply commutes_bind; [apply commutes_ensure|]. intros _.
  apply commutes_bind; [now apply commutes_modify|]. intros _.
  apply commutes_ret.
Qed.

Lemma commutes_subscribe listener : commutes d (subscribe listener).
Proof.
  unfold subscribe. destruct (negb _); [apply commutes_throw|].
  apply commutes_bind; [now apply commutes_gets|].
  intros []; [apply commutes_throw|].
  apply commutes_bind; [now apply commutes_gets|]. intros u.
  apply commutes_bind; [now apply commutes_modify|]. intros _.
  apply commutes_bind; [apply commutes_ensure|]. intros _.
  apply commutes_bind; [now apply commutes_modify|]. intros _.
  apply commutes_ret.
Qed.

Variable REPLACE : string.
Variable plain : nat -> bool.
Variable code : nat -> list value -> prog value.
Hypothesis code_base_only : forall f args, base_only (code f args).

Section WithExec.

Variable exec : forall R : Type, prog R -> M R.
Hypothesis exec_commutes :
  forall R (p : prog R), base_only p -> commutes d (exec R p).

Lemma commutes_call f args : commutes d (call code exec f args).
Proof.
  destruct f; simpl; try apply commutes_throw.
  - apply exec_commutes, code_base_only.
  - apply commutes_unsubscribe.
Qed.

Lemma commutes_notify n : forall listeners i,
  commutes d (notify code exec n listeners i).
Proof.
  induction n as [|n IH]; intros listeners i; simpl.
  - intros w. reflexivity.
  - apply commutes_bind; [now apply commutes_gets|]. intros len.
    destruct (Nat.ltb i len); [|apply commutes_ret].
    apply commutes_bind; [now apply commutes_gets|]. intros listener.
    apply commutes_bind; [apply commutes_call|]. intros _. apply IH.
Qed.

Lemma commutes_dispatch n action :
  commutes d (dispatch plain code exec n action).
Proof.
  intros w. unfold dispatch.
  change (rejection plain action (set_dispatchVar d w))
    with (rejection plain action w).
  destruct (rejection plain action w); [reflexivity|].
  revert w. apply commutes_bind.
  { apply commutes_try_finally; [|reflexivity].
    apply commutes_bind; [now apply commutes_modify|]. intros _.
    apply commutes_bind; [now apply commutes_gets|]. intros reducer.
    apply commutes_bind; [now apply commutes_gets|]. intros state.
    apply commutes_bind; [apply commutes_call|]. intros next.
    now apply commutes_modify. }
  intros _. apply commutes_bind; [|intros _; apply commutes_ret].
  apply commutes_bind; [now apply commutes_modify|]. intros _.
  apply commutes_bind; [now apply commutes_gets|]. intros listeners.
  apply commutes_notify.
Qed.

Lemma commutes_replaceReducer n nextReducer :
  commutes d (replaceReducer REPLACE plain code exec n nextReducer).
Proof.
  unfold replaceReducer. destruct (negb _); [apply commutes_throw|].
  apply commutes_bind; [now apply commutes_modify|]. intros _.
  apply commutes_bind; [apply commutes_alloc|]. intros action.
  apply commutes_bind; [apply commutes_dispatch|]. intros _.
  apply commutes_ret.
Qed.

End WithExec.

(** Client code that never calls the enhanced [dispatch] runs the same
    whatever the variable holds. *)
Lemma run_commutes fuel :
  forall R (p : prog R),
    base_only p -> commutes d (run REPLACE plain code fuel R p).
Proof.
  induction fuel as [|f IH]; intros R p Hp; simpl.
  - intros w. reflexivity.
  - destruct p; simpl in Hp.
    + apply commutes_ret.
    + apply commutes_throw.
    + apply commutes_bind; [|intros; now apply IH].
      apply commutes_attempt, commutes_getState.
    + apply commutes_bind; [|intros; now apply IH].
      now apply commutes_attempt, commutes_dispatch.
    + apply commutes_bind; [|intros; now apply IH].
      apply commutes_attempt, commutes_subscribe.
    + apply commutes_bind; [|intros; now apply IH].
      now apply commutes_attempt, commutes_replaceReducer.
    + apply commutes_bind; [|intros; now apply IH].
      now apply commutes_attempt, commutes_call.
    + contradiction.
    + apply commutes_bind; [|intros; now apply IH]. now apply commutes_gets.
    + apply commutes_bind; [|intros; now apply IH].
      now apply commutes_modify.
    + apply commutes_bind; [|intros; now apply IH].
      now apply commutes_modify.
Qed.

End Independence.

(** ** The phase after a call *)

Definition keeps_phase {A : Type} (m : M A) : Prop :=
  forall w o w', m w = Some (o, w') -> isDispatching w' = isDispatching w.

Lemma keeps_phase_bind {A B : Type} (m : M A) (k : A -> M B) :
  keeps_phase m -> (forall a, keeps_phase (k a)) -> keeps_phase (bind m k).
Proof.
  intros Hm Hk w o w'. unfold bind.
  destruct (m w) as [[[a|e] w1]|] eqn:E; [| |discriminate].
  - intros H. rewrite (Hk a _ _ _ H). eapply Hm, E.
  - intros [= <- <-]. eapply Hm, E.
Qed.

Lemma keeps_phase_attempt {A : Type} (m : M A) :
  keeps_phase m -> keeps_phase (attempt m).
Proof.
  intros Hm w o w'. unfold attempt.
  destruct (m w) as [[o1 w1]|] eqn:E; [|discriminate].
  intros [= <- <-]. eapply Hm, E.
Qed.

Lemma keeps_phase_alloc ps : keeps_phase (alloc ps).
Proof.
  intros w o w'. unfold alloc, bind, gets, modify, ret.
  now intros [= <- <-].
Qed.

Lemma keeps_phase_ensure : keeps_phase ensureCanMutateNextListeners.
Proof.
  intros w o w'. rewrite ensureCanMutateNextListeners_eq.
  intros [= <- <-]. unfold ensured. now destruct (Nat.eqb _ _).
Qed.

Lemma keeps_phase_subscribe listener : keeps_phase (subscribe listener).
Proof.
  intros w o w' H.
  destruct (is_function listener) eqn:Hf.
  - destruct (isDispatching w) eqn:Hd.
    + destruct (subscribe_while_dispatching listener w Hd) as [e He].
      rewrite He in H. now injection H as <- <-.
    + rewrite subscribe_idle in H by assumption. injection H as <- <-.
      unfold subscribed, written, ensured. simpl.
      now destruct (Nat.eqb _ _).
  - unfold subscribe in H. rewrite Hf in H. now injection H as <- <-.
Qed.

Lemma keeps_phase_unsubscribe u : keeps_phase (unsubscribe u).
Proof.
  intros w o w' H.
  destruct (isDispatching w) eqn:Hd.
  - destruct (unsubscribe_while_dispatching u w Hd) as [o1 Ho].
    rewrite Ho in H. now injection H as <- <-.
  - destruct (closures w !! u) as [[l [|]]|] eqn:Hu.
    + rewrite (unsubscribe_idle u l) in H by assumption.
      injection H as <- <-. unfold unsubscribed, written, ensured. simpl.
      now destruct (Nat.eqb _ _).
    + unfold unsubscribe, bind, gets in H. rewrite Hu in H.
      now injection H as <- <-.
    + unfold unsubscribe, bind, gets in H. rewrite Hu in H.
      now injection H as <- <-.
Qed.

Section Phase.

Variable REPLACE : string.
Variable plain : nat -> bool.
Variable code : nat -> list value -> prog value.

Section WithExec.

Variable exec : forall R : Type, prog R -> M R.
Hypothesis exec_keeps_phase : forall R (p : prog R), keeps_phase (exec R p).

Lemma keeps_phase_call f args : keeps_phase (call code exec f args).
Proof.
  destruct f; simpl; try (intros w o w' [= <- <-]; reflexivity).
  - apply exec_keeps_phase.
  - apply keeps_phase_unsubscribe.
Qed.

Lemma keeps_phase_notify n : forall listeners i,
  keeps_phase (notify code exec n listeners i).
Proof.
  induction n as [|n IH]; intros listeners i; simpl.
  - intros w o w'. discriminate.
  - apply keeps_phase_bind; [now intros w o w' [= <- <-]|]. intros len.
    destruct (Nat.ltb i len); [|now intros w o w' [= <- <-]].
    apply keeps_phase_bind; [now intros w o w' [= <- <-]|]. intros listener.
    apply keeps_phase_bind; [apply keeps_phase_call|]. intros _. apply IH.
Qed.

Lemma keeps_phase_dispatch n action :
  keeps_phase (dispatch plain code exec n action).
Proof.
  intros w o w'. unfold dispatch.
  destruct (rejection plain action w) eqn:Hrej.
  { now intros [= <- <-]. }
  assert (Hidle : isDispatching w = false).
  { destruct (isDispatching w) eqn:Hd; [|reflexivity].
    destruct (rejection_while_dispatching plain action w Hd). congruence. }
  unfold bind at 1.
  destruct (reduce code exec action w) as [[[[]|e] w1]|] eqn:Hred;
    try discriminate.
  - assert (H1 : isDispatching w1 = false).
    { unfold reduce, try_finally in Hred.
      destruct (bind _ _ w) as [[o1 w2]|]; [|discriminate].
      now injection Hred as _ <-. }
    intros H. rewrite Hidle, <- H1. revert H.
    apply keeps_phase_bind; [|now intros _ w2 o2 w2' [= <- <-]].
    apply keeps_phase_bind; [now intros w2 o2 w2' [= <- <-]|]. intros _.
    apply keeps_phase_bind; [now intros w2 o2 w2' [= <- <-]|]. intros ls.
    apply keeps_phase_notify.
  - intros [= <- <-]. rewrite Hidle.
    unfold reduce, try_finally in Hred.
    destruct (bind _ _ w) as [[o1 w2]|]; [|discriminate].
    now injection Hred as _ <-.
Qed.

Lemma keeps_phase_replaceReducer n nextReducer :
  keeps_phase (replaceReducer REPLACE plain code exec n nextReducer).
Proof.
  unfold replaceReducer. destruct (negb _); [now intros w o w' [= <- <-]|].
  apply keeps_phase_bind; [now intros w o w' [= <- <-]|]. intros _.
  apply keeps_phase_bind; [apply keeps_phase_alloc|].
  intros action. apply keeps_phase_bind; [apply keeps_phase_dispatch|].
  now intros _ w o w' [= <- <-].
Qed.

End WithExec.

(** Every call leaves the store in the phase it found it in. *)
Lemma run_keeps_phase fuel :
  forall R (p : prog R), keeps_phase (run REPLACE plain code fuel R p).
Proof.
  induction fuel as [|f IH]; intros R p; simpl.
  - intros w o w'. discriminate.
  - destruct p.
    + now intros w o w' [= <- <-].
    + now intros w o w' [= <- <-].
    + apply keeps_phase_bind; [|intros; apply IH].
      apply keeps_phase_attempt. unfold getState.
      apply keeps_phase_bind; [now intros w o w' [= <- <-]|].
      intros []; now intros w o w' [= <- <-].
    + apply keeps_phase_bind; [|intros; apply IH].
      now apply keeps_phase_attempt, keeps_phase_dispatch.
    + apply keeps_phase_bind; [|intros; apply IH].
      apply keeps_phase_attempt, keeps_phase_subscribe.
    + apply keeps_phase_bind; [|intros; apply IH].
      now apply keeps_phase_attempt, keeps_phase_replaceReducer.
    + apply keeps_phase_bind; [|intros; apply IH].
      now apply keeps_phase_attempt, keeps_phase_call.
    + apply keeps_phase_bind; [|intros; apply IH].
      apply keeps_phase_attempt. unfold enhancedDispatch.
      apply keeps_phase_bind; [now intros w o w' [= <- <-]|].
      intros [g|]; [apply IH|now intros w o w' [= <- <-]].
    + apply keeps_phase_bind; [|intros; apply IH].
      now intros w o w' [= <- <-].
    + apply keeps_phase_bind; [|intros; apply IH].
      now intros w o w' [= <- <-].
    + apply keeps_phase_bind; [|intros; apply IH].
      now intros w o w' [= <- <-].
Qed.

(** A store that [createStore] makes itself is idle, its staging list is
    empty or holds what its reducer and nobody else registered during INIT,
    one entry per subscribed closure. *)
Lemma initialise_registered INIT fuel reducer preloadedState w s w' :
  initialise INIT REPLACE plain code fuel reducer preloadedState w
    = Some (Ok s, w') ->
  s = base_store /\ isDispatching w' = false /\ registered w'.
Proof.
  unfold initialise.
  unfold bind at 1, modify at 1.
  set (w0 := World reducer preloadedState 0 0 false [[]] [] _ _ _ _).
  assert (Hreg : registered w0).
  { split; [simpl; lia|]. split; [constructor|]. intros l. reflexivity. }
  unfold bind at 1.
  destruct (alloc _ w0) as [[[action|e] w1]|] eqn:Halloc; try discriminate.
  assert (H1 : isDispatching w1 = false /\ registered w1).
  { split.
    - now rewrite (keeps_phase_alloc _ _ _ _ Halloc).
    - now apply (preserves_alloc _ _ _ _ Halloc). }
  destruct H1 as [Hidle1 Hreg1].
  unfold bind at 1.
  destruct (dispatch _ _ _ _ _ w1) as [[[v|e] w2]|] eqn:Hd; try discriminate.
  intros [= <- <-]. split; [reflexivity|]. split.
  - rewrite <- Hidle1. eapply keeps_phase_dispatch; [|exact Hd].
    apply run_keeps_phase.
  - eapply (preserves_dispatch plain code); [|exact Hd|exact Hreg1].
    intros R p. apply run_preserves.
Qed.

Lemma createStore_registered INIT enhancers fuel reducer preloadedState
    w s w' :
  is_function preloadedState = false ->
  createStore INIT REPLACE plain code enhancers fuel reducer preloadedState
    VUndef w = Some (Ok s, w') ->
  s = base_store /\ isDispatching w' = false /\ registered w'.
Proof.
  intros Hstate. rewrite createStore_without_enhancer by exact Hstate.
  destruct (negb _); [discriminate|]. apply initialise_registered.
Qed.

(** So is every store later on, between two calls of its clients. *)
Lemma store_stays_registered INIT enhancers fuel reducer preloadedState
    w s w0 fuel' R (p : prog R) o w' :
  is_function preloadedState = false ->
  createStore INIT REPLACE plain code enhancers fuel reducer preloadedState
    VUndef w = Some (Ok s, w0) ->
  run REPLACE plain code fuel' R p w0 = Some (o, w') ->
  isDispatching w' = false /\ registered w' /\
  nextListeners w' < length (arrays w').
Proof.
  intros Hstate Hcreate Hrun.
  apply createStore_registered in Hcreate as (_ & Hidle & Hreg);
    [|exact Hstate].
  pose proof (run_keeps_phase fuel' R p w0 o w' Hrun) as Hphase.
  pose proof (run_preserves REPLACE plain code fuel' R p w0 o w' Hrun)
    as (_ & Hkeep & _).
  split; [congruence|]. split; [auto|]. now apply Hkeep.
Qed.

End Phase.

(** ** The snapshot of a dispatch and the registrations made meanwhile *)

Section Snapshot.

Variable REPLACE : string.
Variable plain : nat -> bool.
Variable code : nat -> list value -> prog value.

(** The world in which the listeners are called: the reducer has returned
    [next] in [w1], the flag is cleared, and [currentListeners] is the
    staging array (line 220). *)
Definition snapshot_taken (w : world) (next : value) (w1 : world) : world :=
  set_currentListeners (nextListeners w)
    (set_isDispatching false (set_currentState next w1)).

(** A listener with a subscribed closure is in the staging list. *)
Lemma subscribed_is_staged w u l :
  registered w -> closures w !! u = Some (l, true) -> In l (staging w).
Proof.
  intros (_ & Hfun & Hcount) Hu.
  assert (Hf : is_function l = true).
  { rewrite Forall_lookup in Hfun. apply (Hfun u _ Hu). }
  apply occurrences_In; [exact Hf|]. rewrite Hcount.
  eapply active_positive; [exact Hu|]. now apply strict_eq_function_refl.
Qed.

(** C2: when [dispatch(action)] passes the guards and the reducer returns,
    - this dispatch does exactly this: it calls the listeners of the
      staging list as it is at that moment (the snapshot), first to last
      with no arguments, up to the first that throws, and returns
      [action];
    - the listeners are arbitrary client code; in every world [wi] that
      client code brings about from then on, the notification loop
      included, the store is idle, the array of the snapshot holds what it
      held, and it still does after a [subscribe] or an [unsubscribe] made
      there, which do take effect on the staging list at once:
      [subscribe(l)] puts [l] at its end, behind every earlier
      registration, and the first call of an [unsubscribe] closure takes
      the first entry of its listener out;
    - in the world [w'] the dispatch ends in, thrown or not, every closure
      still subscribed has its listener in the staging list, and that list
      is what the next dispatch calls, first to last. *)
Theorem listeners_invoked_from_snapshot fuel action w next w1 :
  registered w ->
  rejection plain action w = None ->
  call code (run REPLACE plain code fuel) (currentReducer w)
       [currentState w; action] (set_isDispatching true w) = Some (Ok next, w1) ->
  length (staging w) < fuel ->
  staging w1 = staging w /\
  array_at (currentListeners (snapshot_taken w next w1)) (snapshot_taken w next w1)
  = staging w /\
  dispatch plain code (run REPLACE plain code fuel) fuel action w
  = (invoke_in_order code (run REPLACE plain code fuel) (staging w) ;;; ret action)
      (snapshot_taken w next w1) /\
  (forall fuel' R (p : prog R) o wi,
     run REPLACE plain code fuel' R p (snapshot_taken w next w1) = Some (o, wi) ->
     isDispatching wi = false /\
     registered wi /\
     array_at (nextListeners w) wi = staging w /\
     (forall l,
        is_function l = true ->
        subscribe l wi
        = Some (Ok (VUnsub (length (closures wi))), subscribed l wi) /\
        staging (subscribed l wi) = staging wi ++ [l] /\
        closures (subscribed l wi) = closures wi ++ [(l, true)] /\
        array_at (nextListeners w) (subscribed l wi) = staging w) /\
     (forall u l,
        closures wi !! u = Some (l, true) ->
        exists i,
          unsubscribe u wi = Some (Ok VUndef, unsubscribed u l wi) /\
          staging wi !! i = Some l /\
          (forall j y, j < i -> staging wi !! j = Some y ->
                       strict_eq y l = false) /\
          staging (unsubscribed u l wi) = delete i (staging wi) /\
          closures (unsubscribed u l wi) = <[u := (l, false)]> (closures wi) /\
          array_at (nextListeners w) (unsubscribed u l wi) = staging w)) /\
  (forall o w',
     dispatch plain code (run REPLACE plain code fuel) fuel action w
       = Some (o, w') ->
     isDispatching w' = false /\
     registered w' /\
     (forall u l, closures w' !! u = Some (l, true) -> In l (staging w')) /\
     forall fuel' action' next' w1',
       rejection plain action' w' = None ->
       call code (run REPLACE plain code fuel') (currentReducer w')
            [currentState w'; action'] (set_isDispatching true w')
         = Some (Ok next', w1') ->
       length (staging w') < fuel' ->
       dispatch plain code (run REPLACE plain code fuel') fuel' action' w'
       = (invoke_in_order code (run REPLACE plain code fuel') (staging w') ;;;
          ret action')
           (snapshot_taken w' next' w1')).
Proof.
  intros Hreg Hrej Hcall Hfuel.
  assert (Hidle : isDispatching w = false).
  { destruct (isDispatching w) eqn:Hd; [|reflexivity].
    destruct (rejection_while_dispatching plain action w Hd). congruence. }
  destruct (dispatch_passes REPLACE plain code fuel action w next w1) as [Hsame Hd];
    [apply Hreg|exact Hrej|exact Hcall|exact Hfuel|].
  destruct Hsame as (_ & _ & _ & Hnext & Harr & Hclo & _).
  simpl in Hnext, Harr, Hclo.
  assert (Hst1 : staging w1 = staging w).
  { unfold staging, array_at. now rewrite Hnext, Harr. }
  set (taken := snapshot_taken w next w1) in *.
  assert (Htaken : array_at (nextListeners w) taken = staging w).
  { unfold staging, array_at. simpl. now rewrite Harr. }
  assert (Hregt : registered taken).
  { destruct Hreg as (Hv & Hfun & Hcount).
    unfold registered, staging, array_at. simpl.
    rewrite Hnext, Harr, Hclo. split; [exact Hv|]. split; [exact Hfun|].
    exact Hcount. }
  assert (Hstable : stable (nextListeners w) taken).
  { split; simpl; [rewrite Harr; apply Hreg|now right]. }
  split; [exact Hst1|]. split; [exact Htaken|]. split; [exact Hd|].
  split.
  - intros fuel' R p o wi Hrun.
    pose proof (run_keeps_phase REPLACE plain code fuel' R p _ _ _ Hrun)
      as Hphase.
    pose proof (run_preserves REPLACE plain code fuel' R p _ _ _ Hrun)
      as (Hs & Hkeep & _).
    destruct (Hs _ Hstable) as [Hstable' Heq].
    assert (Hregi : registered wi) by now apply Hkeep.
    assert (Hidlei : isDispatching wi = false) by (rewrite Hphase; reflexivity).
    assert (Hsnap : array_at (nextListeners w) wi = staging w).
    { rewrite <- Htaken. unfold array_at. now rewrite Heq. }
    split; [exact Hidlei|]. split; [exact Hregi|]. split; [exact Hsnap|].
    split.
    + intros l Hf. split; [now apply subscribe_idle|].
      split.
      { unfold subscribed. rewrite staging_written by apply Hregi.
        reflexivity. }
      split.
      { unfold subscribed. now rewrite closures_written. }
      rewrite <- Hsnap. unfold subscribed, array_at.
      destruct (stable_written (fun a => a ++ [l])
                  (set_closures (closures wi ++ [(l, true)]) wi)
                  (nextListeners w) Hstable') as [_ ->].
      reflexivity.
    + intros u l Hu.
      destruct (unsubscribed_staging u l wi Hregi Hu) as (i & Hi & Hmin & Hst).
      exists i. split; [now apply unsubscribe_idle|].
      split; [exact Hi|]. split; [exact Hmin|]. split; [exact Hst|].
      split.
      { unfold unsubscribed. now rewrite closures_written. }
      rewrite <- Hsnap. unfold unsubscribed, array_at.
      destruct (stable_written (splice1 (indexOf l (staging wi)))
                  (set_closures (<[u := (l, false)]> (closures wi)) wi)
                  (nextListeners w) Hstable') as [_ ->].
      reflexivity.
  - intros o w' Hout.
    assert (Hidle' : isDispatching w' = false).
    { rewrite <- Hidle. eapply keeps_phase_dispatch; [|exact Hout].
      apply run_keeps_phase. }
    assert (Hreg' : registered w').
    { eapply (preserves_dispatch plain code); [|exact Hout|exact Hreg].
      intros R p. apply run_preserves. }
    split; [exact Hidle'|]. split; [exact Hreg'|].
    split; [intros u l; now apply subscribed_is_staged|].
    intros fuel' action' next' w1' Hrej' Hcall' Hfuel'.
    now apply dispatch_passes; [apply Hreg'|..].
Qed.

(** [replaceReducer(nextReducer)] in an idle store: the reducer variable
    is assigned, and REPLACE goes to [dispatch], which calls [nextReducer]
    on it. *)
Lemma replaceReducer_idle fuel nextReducer w :
  is_function nextReducer = true ->
  isDispatching w = false ->
  plain (next_id w) = true ->
  nextListeners w < length (arrays w) ->
  length (staging w) < fuel ->
  let action := VObj (next_id w) [("type", VStr REPLACE)] in
  let wi := set_next_id (S (next_id w)) (set_currentReducer nextReducer w) in
  (forall next w1,
     call code (run REPLACE plain code fuel) nextReducer
          [currentState w; action] (set_isDispatching true wi)
       = Some (Ok next, w1) ->
     replaceReducer REPLACE plain code (run REPLACE plain code fuel) fuel
                    nextReducer w
     = (invoke_in_order code (run REPLACE plain code fuel) (staging w) ;;;
        ret VUndef) (snapshot_taken wi next w1)) /\
  (forall e w1,
     call code (run REPLACE plain code fuel) nextReducer
          [currentState w; action] (set_isDispatching true wi)
       = Some (Err e, w1) ->
     replaceReducer REPLACE plain code (run REPLACE plain code fuel) fuel
                    nextReducer w
     = Some (Err e, set_isDispatching false w1)).
Proof.
  intros Hf Hidle Hplain Hvalid Hfuel action wi.
  assert (Hrej : rejection plain action wi = None).
  { unfold rejection. simpl. now rewrite Hplain, Hidle. }
  assert (Hreplace :
    replaceReducer REPLACE plain code (run REPLACE plain code fuel) fuel
                   nextReducer w
    = (dispatch plain code (run REPLACE plain code fuel) fuel action ;;;
       ret VUndef) wi).
  { unfold replaceReducer. rewrite Hf. reflexivity. }
  split.
  - intros next w1 Hcall.
    destruct (dispatch_passes REPLACE plain code fuel action wi next w1)
      as [_ Hd]; [exact Hvalid|exact Hrej|exact Hcall|exact Hfuel|].
    rewrite Hreplace. unfold bind at 1. rewrite Hd.
    change (staging wi) with (staging w). unfold snapshot_taken, bind.
    now destruct (invoke_in_order _ _ _ _) as [[[[]|e] w2]|].
  - intros e w1 Hcall.
    destruct (dispatch_fails REPLACE plain code fuel action wi e w1 Hrej Hcall)
      as [Hd _].
    rewrite Hreplace. unfold bind at 1. now rewrite Hd.
Qed.

End Snapshot.

(** ** A store at work *)

Definition demo_INIT : string := "@@redux/INIT".
Definition demo_REPLACE : string := "@@redux/REPLACE".
Definition demo_plain : nat -> bool := fun _ => true.

(** The client functions of the scenarios.  [0] is the reducer: a counter
    that also throws on ['boom'], dispatches from inside on ['reenter'] and
    calls [replaceReducer] from inside on ['swap'].
    [1], [2] and [4] are listeners that log their name; [3] logs and
    subscribes [4] while it is being notified; [5] logs and calls the
    [unsubscribe] closure of the second registration; [6] logs only the
    first time it is notified, which it remembers in a variable. *)
Definition demo_code (f : nat) (args : list value) : prog value :=
  match f, args with
  | 0, [state; action] =>
      match and_type action with
      | VStr "inc" =>
          match state with
          | VNum n => Ret (VNum (n + 1))
          | _ => Ret state
          end
      | VStr "boom" => Throw (Thrown (VStr "boom"))
      | VStr "reenter" => Dispatch (VObj 90 [("type", VStr "inc")]) rethrow
      | VStr "swap" => ReplaceReducer (VFun 7) rethrow
      | _ =>
          match state with
          | VUndef => Ret (VNum 0)
          | _ => Ret state
          end
      end
  | 1, _ => Log "L1" (Ret VUndef)
  | 2, _ => Log "L2" (Ret VUndef)
  | 3, _ => Log "L3" (Subscribe (VFun 4) (fun _ => Ret VUndef))
  | 4, _ => Log "L4" (Ret VUndef)
  | 5, _ => Log "L5" (Call (VUnsub 1) [] (fun _ => Ret VUndef))
  | 6, _ => ReadVar "seen" (fun seen =>
              if truthy seen then Ret VUndef
              else WriteVar "seen" (VBool true) (Log "L6" (Ret VUndef)))
  | _, _ => Ret VUndef
  end.

Definition demo_run := run demo_REPLACE demo_plain demo_code.
Definition demo_dispatch (fuel : nat) :=
  dispatch demo_plain demo_code (demo_run fuel) fuel.

(** The store enhancers of the scenarios: [20] is
    [createStore => createStore], [21] is
    [createStore => reducer => createStore(reducer, 5)]; the other
    functions return nothing that can be called. *)
Definition demo_enhancers (f : nat) : enhancer :=
  match f with
  | 20 => fun createStore => createStore
  | 21 => fun createStore reducer _ => createStore reducer (VNum 5)
  | _ => fun _ _ _ => throw TypeError
  end.

Definition demo_createStore :=
  createStore demo_INIT demo_REPLACE demo_plain demo_code demo_enhancers.

Definition blank : world := World VUndef VUndef 0 0 false [] [] None 0 [] [].

(** The store after [createStore(reducer)]. *)
Definition fresh_store : world :=
  World (VFun 0) (VNum 0) 0 0 false [[]] [] None 1 [] [].

Example createStore_demo :
  demo_createStore 5 (VFun 0) VUndef VUndef blank
  = Some (Ok base_store, fresh_store).
Proof. reflexivity. Qed.

(** [createStore(reducer, enhancer)] is [createStore(reducer, undefined,
    enhancer)]: the function in the place of the state is called as the
    enhancer and is not the state; the reducer is not looked at before. *)
Example createStore_with_two_arguments :
  demo_createStore 5 (VFun 0) (VFun 21) VUndef blank
  = Some (Ok base_store, set_currentState (VNum 5) fresh_store) /\
  demo_createStore 5 (VFun 0) (VFun 21) VUndef blank
  = demo_createStore 5 (VFun 0) VUndef (VFun 21) blank /\
  demo_createStore 5 (VNum 3) (VFun 1) VUndef blank = Some (Err TypeError, blank) /\
  demo_createStore 5 (VNum 3) VUndef (VNum 1) blank
  = Some (Err (Error ExpectedEnhancerFunction), blank).
Proof. repeat split; reflexivity. Qed.

Definition lines_of {A : Type} (r : option (outcome A * world))
  : option (list string) :=
  option_map (fun r => console (snd r)) r.

Definition inc : value := VObj 50 [("type", VStr "inc")].
Definition boom : value := VObj 51 [("type", VStr "boom")].
Definition reenter : value := VObj 52 [("type", VStr "reenter")].

(** A reducer that dispatches: the inner call is rejected, the outer one
    fails with that error, the state stays, the store is idle again. *)
Example reentrant_dispatch_fails :
  demo_dispatch 5 reenter fresh_store
  = Some (Err (Error ReducersMayNotDispatch), fresh_store).
Proof. reflexivity. Qed.

(** A reducer that calls [replaceReducer]: the dispatch fails in the same
    way and the state stays; the reducer variable, which is assigned before
    the inner dispatch is rejected (line 247), has changed. *)
Example replaceReducer_from_a_reducer :
  demo_dispatch 5 (VObj 53 [("type", VStr "swap")]) fresh_store
  = Some (Err (Error ReducersMayNotDispatch),
          set_next_id 2 (set_currentReducer (VFun 7) fresh_store)).
Proof. reflexivity. Qed.

Lemma failed_reducer_leaves_store_idle_witness :
  let w' := set_isDispatching false (set_isDispatching true fresh_store) in
  demo_dispatch 5 reenter fresh_store
    = Some (Err (Error ReducersMayNotDispatch), w') /\
  isDispatching w' = false /\
  currentState w' = currentState fresh_store /\
  currentListeners w' = currentListeners fresh_store /\
  nextListeners w' = nextListeners fresh_store /\
  arrays w' = arrays fresh_store /\
  closures w' = closures fresh_store /\
  getState w' = Some (Ok (currentState fresh_store), w') /\
  forall action',
    rejection demo_plain action' w' <> Some (Error ReducersMayNotDispatch).
Proof.
  apply (failed_reducer_leaves_store_idle demo_REPLACE demo_plain demo_code
           5 reenter fresh_store (Error ReducersMayNotDispatch)
           (set_isDispatching true fresh_store)).
  - reflexivity.
  - reflexivity.
Defined.

(** C7 as stated fails: [boom] is a plain record with a type, the store is
    idle, and [dispatch(boom)] throws all the same, because the reducer
    does. *)
Lemma dispatch_throws_with_reducer :
  isPlainObject demo_plain boom = true /\
  get_prop boom "type" = Ok (VStr "boom") /\
  isDispatching fresh_store = false /\
  demo_dispatch 5 boom fresh_store
  = Some (Err (Thrown (VStr "boom")), fresh_store).
Proof. repeat split; reflexivity. Qed.

(** Two listeners are registered; the first subscribes a third one each
    time it is notified. *)
Definition two_listeners : world :=
  World (VFun 0) (VNum 0) 0 1 false [[]; [VFun 3; VFun 2]]
        [(VFun 3, true); (VFun 2, true)] None 1 [] [].

Example two_listeners_reached :
  demo_run 5 value
    (Subscribe (VFun 3) (fun _ => Subscribe (VFun 2) (fun _ => Ret VUndef)))
    fresh_store
  = Some (Ok VUndef, two_listeners).
Proof. reflexivity. Qed.

(** The first dispatch notifies [L3] and [L2] only; the listener that [L3]
    subscribed meanwhile is notified from the second dispatch on. *)
Example subscription_during_notification :
  lines_of
    (demo_run 9 value (Dispatch inc (fun _ => Ret VUndef)) two_listeners)
  = Some ["L3"; "L2"] /\
  lines_of
    (demo_run 9 value
       (Dispatch inc (fun _ => Dispatch inc (fun _ => Ret VUndef)))
       two_listeners)
  = Some ["L3"; "L2"; "L3"; "L2"; "L4"].
Proof. split; reflexivity. Qed.

(** [L5] unsubscribes [L2] while it is notified: [L2] is still called by
    this dispatch, and no more by the next.  [L6] keeps a variable. *)
Example unsubscription_during_notification :
  lines_of
    (demo_run 9 value
       (Subscribe (VFun 5) (fun _ =>
        Subscribe (VFun 2) (fun _ =>
        Subscribe (VFun 6) (fun _ =>
        Dispatch inc (fun _ => Dispatch inc (fun _ => Ret VUndef))))))
       fresh_store)
  = Some ["L5"; "L2"; "L6"; "L5"].
Proof. reflexivity. Qed.

(** The world after one dispatch of [inc] at [two_listeners]: [L3] has
    subscribed [L4] into a copy of the staging array; the snapshot, array
    1, is as it was. *)
Definition after_one_dispatch : world :=
  World (VFun 0) (VNum 1) 1 2 false
        [[]; [VFun 3; VFun 2]; [VFun 3; VFun 2; VFun 4]]
        [(VFun 3, true); (VFun 2, true); (VFun 4, true)] None 1 ["L3"; "L2"] [].

Example subscription_reaches_the_next_dispatch :
  demo_dispatch 9 inc two_listeners = Some (Ok inc, after_one_dispatch) /\
  staging after_one_dispatch = staging two_listeners ++ [VFun 4] /\
  lines_of (demo_dispatch 9 inc after_one_dispatch)
  = Some ["L3"; "L2"; "L3"; "L2"; "L4"].
Proof. repeat split; reflexivity. Qed.

Lemma listeners_invoked_from_snapshot_witness :
  let w := two_listeners in
  let w1 := set_isDispatching true two_listeners in
  staging w1 = staging w /\
  array_at (currentListeners (snapshot_taken w (VNum 1) w1))
           (snapshot_taken w (VNum 1) w1)
  = staging w /\
  demo_dispatch 5 inc w
  = (invoke_in_order demo_code (demo_run 5) (staging w) ;;; ret inc)
      (snapshot_taken w (VNum 1) w1) /\
  (forall fuel' R (p : prog R) o wi,
     demo_run fuel' R p (snapshot_taken w (VNum 1) w1) = Some (o, wi) ->
     isDispatching wi = false /\
     registered wi /\
     array_at (nextListeners w) wi = staging w /\
     (forall l,
        is_function l = true ->
        subscribe l wi
        = Some (Ok (VUnsub (length (closures wi))), subscribed l wi) /\
        staging (subscribed l wi) = staging wi ++ [l] /\
        closures (subscribed l wi) = closures wi ++ [(l, true)] /\
        array_at (nextListeners w) (subscribed l wi) = staging w) /\
     (forall u l,
        closures wi !! u = Some (l, true) ->
        exists i,
          unsubscribe u wi = Some (Ok VUndef, unsubscribed u l wi) /\
          staging wi !! i = Some l /\
          (forall j y, j < i -> staging wi !! j = Some y ->
                       strict_eq y l = false) /\
          staging (unsubscribed u l wi) = delete i (staging wi) /\
          closures (unsubscribed u l wi) = <[u := (l, false)]> (closures wi) /\
          array_at (nextListeners w) (unsubscribed u l wi) = staging w)) /\
  (forall o w',
     demo_dispatch 5 inc w = Some (o, w') ->
     isDispatching w' = false /\
     registered w' /\
     (forall u l, closures w' !! u = Some (l, true) -> In l (staging w')) /\
     forall fuel' action' next' w1',
       rejection demo_plain action' w' = None ->
       call demo_code (demo_run fuel') (currentReducer w')
            [currentState w'; action'] (set_isDispatching true w')
         = Some (Ok next', w1') ->
       length (staging w') < fuel' ->
       demo_dispatch fuel' action' w'
       = (invoke_in_order demo_code (demo_run fuel') (staging w') ;;;
          ret action')
           (snapshot_taken w' next' w1')).
Proof.
  apply (listeners_invoked_from_snapshot demo_REPLACE demo_plain demo_code
           5 inc two_listeners (VNum 1) (set_isDispatching true two_listeners)).
  - split; [simpl; lia|]. split; [repeat constructor|].
    intros l. unfold staging, array_at. simpl.
    destruct (strict_eq (VFun 3) l), (strict_eq (VFun 2) l); reflexivity.
  - reflexivity.
  - reflexivity.
  - simpl. lia.
Defined.

(** The same callback registered twice, another one in between. *)
Definition f_g_f : world :=
  World (VFun 0) (VNum 0) 0 1 false [[]; [VFun 1; VFun 2; VFun 1]]
        [(VFun 1, true); (VFun 2, true); (VFun 1, true)] None 1 [] [].

Example f_g_f_reached :
  demo_run 5 value
    (Subscribe (VFun 1) (fun _ =>
     Subscribe (VFun 2) (fun _ =>
     Subscribe (VFun 1) (fun o => match o with
                                  | Ok unsubscribe => Ret unsubscribe
                                  | Err e => Throw e
                                  end))))
    fresh_store
  = Some (Ok (VUnsub 2), f_g_f).
Proof. reflexivity. Qed.

(** C8 as stated fails on duplicates.  The third [subscribe] put its entry
    at index 2 of the staging list and returned closure 2; calling that
    closure removes the entry at index 0, which the first [subscribe] put
    there, and keeps the one at index 2: the listeners are then notified in
    the order [L2], [L1], not [L1], [L2]. *)
Lemma duplicate_unsubscribe_removes_first_entry :
  staging f_g_f = [VFun 1; VFun 2; VFun 1] /\
  (exists w,
     unsubscribe 2 f_g_f = Some (Ok VUndef, w) /\
     staging w = [VFun 2; VFun 1] /\
     staging w = delete 0 (staging f_g_f) /\
     staging w <> delete 2 (staging f_g_f) /\
     closures w = [(VFun 1, true); (VFun 2, true); (VFun 1, false)] /\
     lines_of (demo_dispatch 5 inc w) = Some ["L2"; "L1"]).
Proof.
  split; [reflexivity|]. eexists. split; [reflexivity|].
  repeat split; try reflexivity. discriminate.
Qed.

Lemma unsubscribe_removes_one_entry_witness :
  let u := length (closures f_g_f) in
  subscribe (VFun 4) f_g_f = Some (Ok (VUnsub u), subscribed (VFun 4) f_g_f) /\
  staging (subscribed (VFun 4) f_g_f) = staging f_g_f ++ [VFun 4] /\
  closures (subscribed (VFun 4) f_g_f) !! u = Some (VFun 4, true) /\
  registered (subscribed (VFun 4) f_g_f) /\
  (forall w,
     registered w ->
     isDispatching w = false ->
     closures w !! u = Some (VFun 4, true) ->
     exists i,
       unsubscribe u w = Some (Ok VUndef, unsubscribed u (VFun 4) w) /\
       staging w !! i = Some (VFun 4) /\
       (forall j y, j < i -> staging w !! j = Some y ->
                    strict_eq y (VFun 4) = false) /\
       staging (unsubscribed u (VFun 4) w) = delete i (staging w) /\
       length (staging (unsubscribed u (VFun 4) w)) + 1 = length (staging w) /\
       (forall l,
          occurrences l (staging (unsubscribed u (VFun 4) w))
          + (if strict_eq (VFun 4) l then 1 else 0)
          = occurrences l (staging w)) /\
       closures (unsubscribed u (VFun 4) w)
       = <[u := (VFun 4, false)]> (closures w) /\
       registered (unsubscribed u (VFun 4) w)) /\
  (forall w,
     closures w !! u = Some (VFun 4, false) ->
     unsubscribe u w = Some (Ok VUndef, w) /\
     forall fuel R (p : prog R) o w',
       demo_run fuel R p w = Some (o, w') ->
       closures w' !! u = Some (VFun 4, false)).
Proof.
  apply (unsubscribe_removes_one_entry demo_REPLACE demo_plain demo_code
           (VFun 4) f_g_f).
  - split; [simpl; lia|]. split; [repeat constructor|].
    intros l. unfold staging, array_at. simpl.
    destruct (strict_eq (VFun 1) l), (strict_eq (VFun 2) l); reflexivity.
  - reflexivity.
  - reflexivity.
Defined.

End Store.

(** * applyMiddleware.js *)

Module Middleware.

Import Store.

(** [Dispatch: (Action) => Action], as client code calls it. *)
Definition dispatcher : Type := value -> prog value.

(** [{ getState, dispatch }], lines 46-49. *)
Record middlewareAPI : Type := MiddlewareAPI {
  api_getState : prog value;
  api_dispatch : dispatcher
}.

(** [next => action => ...]: what a middleware returns for the chain. *)
Definition wrapper : Type := dispatcher -> dispatcher.

(** [api => next => action => ...]: the call with the API is client code
    that may use the API, or throw, before it returns the wrapper. *)
Definition middleware : Type := middlewareAPI -> prog wrapper.

Section WithEnvironment.

Variable REPLACE : string.
Variable plain : nat -> bool.
Variable code : nat -> list value -> prog value.

(** [middlewares.map(middleware => middleware(middlewareAPI))], line 53. *)
Fixpoint build_chain (fuel : nat) (api : middlewareAPI)
    (middlewares : list middleware) : M (list wrapper) :=
  match middlewares with
  | [] => ret []
  | m :: rest =>
      w <- run REPLACE plain code fuel wrapper (m api) ;;
      chain <- build_chain fuel api rest ;;
      ret (w :: chain)
  end.

(** [applyMiddleware(...middlewares)], lines 34-75. *)
Definition applyMiddleware (fuel : nat) (middlewares : list middleware)
  : enhancer :=
  fun createStore reducer preloadedState =>
    store <- createStore reducer preloadedState ;;
    modify (set_dispatchVar None) ;;;
    let api := MiddlewareAPI (store_getState store)
                             (fun action => EnhancedDispatch action rethrow) in
    chain <- build_chain fuel api middlewares ;;
    let dispatch := Compose.compose chain (store_dispatch store) in
    modify (set_dispatchVar (Some dispatch)) ;;;
    ret (Store dispatch (store_subscribe store) (store_getState store)
               (store_replaceReducer store)).

End WithEnvironment.

(** ** The composed dispatch *)

Section Order.

Variable REPLACE : string.
Variable plain : nat -> bool.
Variable code : nat -> list value -> prog value.

Lemma build_chain_ok fuel api middlewares :
  forall w chain w',
    build_chain REPLACE plain code fuel api middlewares w = Some (Ok chain, w') ->
    Forall2 (fun m c => exists wa wb,
               run REPLACE plain code fuel wrapper (m api) wa = Some (Ok c, wb))
            middlewares chain.
Proof.
  induction middlewares as [|m rest IH]; intros w chain w'; simpl.
  - intros [= <- <-]. constructor.
  - unfold bind.
    destruct (run REPLACE plain code fuel wrapper (m api) w)
      as [[[c|e] w1]|] eqn:Hm; try discriminate.
    destruct (build_chain REPLACE plain code fuel api rest w1)
      as [[[cs|e] w2]|] eqn:Hrest; try discriminate.
    intros [= <- <-]. constructor; [now exists w, w1|]. eapply IH, Hrest.
Qed.

(** C5: in a store built by [applyMiddleware(m1, ..., mn)], [dispatch] is
    the chain of the wrappers the middlewares returned, in their order,
    composed from right to left on the [dispatch] of the base store:
    [c1 (c2 (... (cn base)))].  So every action goes to the first wrapper
    first, and the [next] of each wrapper is the composition of those after
    it on the base dispatch.  A wrapper that handles an action without
    calling [next] yields the same computation whatever stands behind it:
    neither the inner wrappers nor the base dispatch take part. *)
Theorem composed_dispatch_order fuel middlewares (createStore : constructor)
    reducer preloadedState w s w' :
  applyMiddleware REPLACE plain code fuel middlewares createStore
                  reducer preloadedState w = Some (Ok s, w') ->
  exists base chain,
    (exists w1, createStore reducer preloadedState w = Some (Ok base, w1)) /\
    Forall2 (fun m c => exists wa wb,
               run REPLACE plain code fuel wrapper
                   (m (MiddlewareAPI (store_getState base)
                         (fun action => EnhancedDispatch action rethrow))) wa
               = Some (Ok c, wb))
            middlewares chain /\
    store_dispatch s = Compose.compose chain (store_dispatch base) /\
    dispatchVar w' = Some (store_dispatch s) /\
    (forall action,
       store_dispatch s action
       = fold_right (fun c next => c next) (store_dispatch base) chain action) /\
    (forall outer c inner,
       chain = outer ++ c :: inner ->
       store_dispatch s
       = Compose.compose outer (c (Compose.compose inner (store_dispatch base))) /\
       forall action,
         (forall next next' : dispatcher, c next action = c next' action) ->
         forall inner' base',
           c (Compose.compose inner (store_dispatch base)) action
           = c (Compose.compose inner' base') action).
Proof.
  unfold applyMiddleware, bind, modify, ret. intros H.
  destruct (createStore reducer preloadedState w) as [[[base|e] w1]|] eqn:Hbase;
    try discriminate.
  destruct (build_chain _ _ _ _ _ _ _) as [[[chain|e] w2]|] eqn:Hchain;
    try discriminate.
  injection H as <- <-. exists base, chain.
  cbn [store_dispatch dispatchVar set_dispatchVar].
  split; [now exists w1|].
  split; [eapply build_chain_ok, Hchain|].
  split; [reflexivity|]. split; [reflexivity|].
  split.
  { intros action.
    now rewrite (@Compose.compose_fold_right dispatcher chain (store_dispatch base)). }
  intros outer c inner ->. split.
  - etransitivity; [apply (@Compose.compose_app dispatcher)|].
    f_equal. apply (@Compose.compose_cons dispatcher).
  - intros action Hc inner' base'. apply Hc.
Qed.

End Order.

(** ** replaceReducer in an enhanced store *)

Section Replace.

Variable INIT REPLACE : string.
Variable plain : nat -> bool.
Variable code : nat -> list value -> prog value.
Variable enhancers : nat -> enhancer.

(** C10: in a store that [applyMiddleware] built on [createStore], whatever
    the middlewares are,
    - [replaceReducer] is the [replaceReducer] of the base store;
    - a call of it in an idle store does what [replaceReducer] of
      [createStore] does and nothing else: the reducer variable is
      assigned, and the first client function to run is [nextReducer]
      itself, called on the current state and on the new action of type
      REPLACE by the [dispatch] of [createStore]; when it returns, its
      result is stored, the listeners are notified and [undefined] is
      returned; when it throws, so does the call.  No wrapper of the chain
      is called on the way, whereas [dispatch] of the same store starts
      with the first wrapper;
    - as long as the reducers and listeners do not themselves call the
      enhanced [dispatch], the call runs the same whatever chain the
      [dispatch] variable of [applyMiddleware] holds. *)
Theorem replaceReducer_bypasses_middleware fuel middlewares fuel0
    reducer preloadedState w s w' :
  is_function preloadedState = false ->
  applyMiddleware REPLACE plain code fuel middlewares
    (fun reducer preloadedState =>
       createStore INIT REPLACE plain code enhancers fuel0
                   reducer preloadedState VUndef)
    reducer preloadedState w = Some (Ok s, w') ->
  store_replaceReducer s = store_replaceReducer base_store /\
  (exists chain,
     store_dispatch s = Compose.compose chain (store_dispatch base_store) /\
     length chain = length middlewares) /\
  (forall f nextReducer w0,
     is_function nextReducer = true ->
     isDispatching w0 = false ->
     plain (next_id w0) = true ->
     nextListeners w0 < length (arrays w0) ->
     length (staging w0) < f ->
     let action := VObj (next_id w0) [("type", VStr REPLACE)] in
     let wi := set_next_id (S (next_id w0)) (set_currentReducer nextReducer w0) in
     (forall next w1,
        call code (run REPLACE plain code f) nextReducer
             [currentState w0; action] (set_isDispatching true wi)
          = Some (Ok next, w1) ->
        run REPLACE plain code (S f) value (store_replaceReducer s nextReducer) w0
        = (invoke_in_order code (run REPLACE plain code f) (staging w0) ;;;
           ret VUndef) (snapshot_taken wi next w1)) /\
     (forall e w1,
        call code (run REPLACE plain code f) nextReducer
             [currentState w0; action] (set_isDispatching true wi)
          = Some (Err e, w1) ->
        run REPLACE plain code (S f) value (store_replaceReducer s nextReducer) w0
        = Some (Err e, set_isDispatching false w1))) /\
  ((forall g args, base_only (code g args)) ->
   forall f nextReducer d w0,
     run REPLACE plain code f value (store_replaceReducer s nextReducer)
         (set_dispatchVar d w0)
     = over d (run REPLACE plain code f value
                   (store_replaceReducer s nextReducer) w0)).
Proof.
  intros Hstate. unfold applyMiddleware, bind, modify, ret. intros H.
  destruct (createStore _ _ _ _ _ _ _ _ _ w) as [[[base|e] wb]|] eqn:Hbase;
    try discriminate.
  apply createStore_registered in Hbase as [-> _]; [|exact Hstate].
  destruct (build_chain _ _ _ _ _ _ _) as [[[chain|e] wc]|] eqn:Hchain;
    try discriminate.
  injection H as <- <-. cbn [store_replaceReducer store_dispatch base_store].
  split; [reflexivity|].
  split.
  { exists chain. split; [reflexivity|].
    symmetry. eapply Forall2_length, build_chain_ok, Hchain. }
  split.
  - intros f nextReducer w0 Hf Hidle Hplain Hvalid Hfuel.
    destruct (replaceReducer_idle REPLACE plain code f nextReducer w0
                Hf Hidle Hplain Hvalid Hfuel) as [Hok Hfail].
    destruct f as [|f']; [lia|].
    split.
    + intros next w1 Hcall.
      change (run REPLACE plain code (S (S f')) value
                (ReplaceReducer nextReducer rethrow) w0)
        with ((o <- attempt (replaceReducer REPLACE plain code
                               (run REPLACE plain code (S f')) (S f')
                               nextReducer) ;;
               run REPLACE plain code (S f') value (rethrow o)) w0).
      unfold bind at 1, attempt. rewrite (Hok next w1 Hcall).
      unfold bind.
      now destruct (invoke_in_order _ _ _ _) as [[[[]|e] w2]|].
    + intros e w1 Hcall.
      change (run REPLACE plain code (S (S f')) value
                (ReplaceReducer nextReducer rethrow) w0)
        with ((o <- attempt (replaceReducer REPLACE plain code
                               (run REPLACE plain code (S f')) (S f')
                               nextReducer) ;;
               run REPLACE plain code (S f') value (rethrow o)) w0).
      unfold bind at 1, attempt. now rewrite (Hfail e w1 Hcall).
  - intros Hcode f nextReducer d w0.
    apply run_commutes; [exact Hcode|]. simpl. now intros [v|e].
Qed.

End Replace.

(** ** Middleware at work *)

(** [api => next => action => { console.log(name); return next(action) }] *)
Definition logger (name : string) : middleware :=
  fun api => Ret (fun next action => Log name (next action)).

(** [api => next => action => { console.log(name); return action }]: never
    calls [next]. *)
Definition blocker (name : string) : middleware :=
  fun api => Ret (fun next action => Log name (Ret action)).

(** A reducer that logs the type of every action it receives, and counts. *)
Definition logging_code (f : nat) (args : list value) : prog value :=
  match f, args with
  | 0, [state; action] =>
      Log (match and_type action with VStr s => s | _ => "?" end)
          (match state, and_type action with
           | VUndef, _ => Ret (VNum 0)
           | VNum n, VStr "inc" => Ret (VNum (n + 1))
           | _, _ => Ret state
           end)
  | _, _ => Ret VUndef
  end.

(** Every function called as an enhancer is
    [applyMiddleware(...middlewares)]. *)
Definition applied (middlewares : list middleware) : nat -> enhancer :=
  fun _ => applyMiddleware demo_REPLACE demo_plain logging_code 9 middlewares.

(** [createStore(reducer, applyMiddleware(...middlewares))]: the enhancer
    stands in the place of the state. *)
Definition demo_create (middlewares : list middleware) :=
  createStore demo_INIT demo_REPLACE demo_plain logging_code
    (applied middlewares) 9 (VFun 0) (VFun 1) VUndef blank.

(** The [createStore] that the enhancer receives. *)
Definition inner_create (middlewares : list middleware) : constructor :=
  fun reducer preloadedState =>
    createStore demo_INIT demo_REPLACE demo_plain logging_code
      (applied middlewares) 8 reducer preloadedState VUndef.

Definition store_of (r : option (outcome store * world)) : store :=
  match r with
  | Some (Ok s, _) => s
  | _ => base_store
  end.
Definition world_of (r : option (outcome store * world)) : world :=
  match r with
  | Some (_, w) => w
  | None => blank
  end.

Definition logged : store := store_of (demo_create [logger "m1"; logger "m2"]).
Definition logged_world : world :=
  world_of (demo_create [logger "m1"; logger "m2"]).
Definition blocked : store := store_of (demo_create [blocker "m1"; logger "m2"]).
Definition blocked_world : world :=
  world_of (demo_create [blocker "m1"; logger "m2"]).

Definition state_after (r : option (outcome value * world)) : option value :=
  option_map (fun r => currentState (snd r)) r.

(** [m1] logs, then [m2], then the base dispatch runs the reducer. *)
Example loggers_in_order :
  demo_create [logger "m1"; logger "m2"] = Some (Ok logged, logged_world) /\
  console logged_world = [demo_INIT] /\
  lines_of (run demo_REPLACE demo_plain logging_code 9 value
           (store_dispatch logged inc) logged_world)
  = Some [demo_INIT; "m1"; "m2"; "inc"] /\
  state_after (run demo_REPLACE demo_plain logging_code 9 value
                 (store_dispatch logged inc) logged_world)
  = Some (VNum 1).
Proof. repeat split; reflexivity. Qed.

(** [m1] returns without calling [next]: neither [m2] nor the reducer
    runs. *)
Example blocker_stops_the_chain :
  demo_create [blocker "m1"; logger "m2"] = Some (Ok blocked, blocked_world) /\
  lines_of (run demo_REPLACE demo_plain logging_code 9 value
           (store_dispatch blocked inc) blocked_world)
  = Some [demo_INIT; "m1"] /\
  state_after (run demo_REPLACE demo_plain logging_code 9 value
                 (store_dispatch blocked inc) blocked_world)
  = Some (VNum 0).
Proof. repeat split; reflexivity. Qed.

(** [api => { api.dispatch({type: 'inc'}); return next => next }]: a
    middleware that dispatches while the chain is being built gets the
    placeholder of lines 38-43, and the construction fails. *)
Definition hasty : middleware :=
  fun api => EnhancedDispatch (VObj 60 [("type", VStr "inc")])
               (fun o => match o with
                         | Ok _ => Ret (fun next => next)
                         | Err e => Throw e
                         end).

Example dispatch_while_constructing :
  option_map fst (demo_create [logger "m1"; hasty])
  = Some (Err (Error DispatchingWhileConstructing)).
Proof. reflexivity. Qed.

(** [replaceReducer] reaches the reducer with REPLACE, and no logger. *)
Example replace_skips_the_loggers :
  lines_of (run demo_REPLACE demo_plain logging_code 9 value
           (store_replaceReducer logged (VFun 0)) logged_world)
  = Some [demo_INIT; demo_REPLACE].
Proof. reflexivity. Qed.

(** The reducer of the scenario never calls the enhanced [dispatch], so
    [replaceReducer] runs the same under any chain. *)
Example logging_code_base_only : forall g args, base_only (logging_code g args).
Proof.
  intros [|g] args; [|exact I].
  destruct args as [|state [|action [|x rest]]]; try exact I.
  simpl. destruct state; try exact I; destruct (and_type action); try exact I.
  destruct s as [|a s]; try exact I.
  repeat (match goal with
          | |- context [match ?x with _ => _ end] => destruct x; try exact I
          end).
Qed.

Lemma composed_dispatch_order_witness :
  exists base chain,
    (exists w1,
       inner_create [blocker "m1"; logger "m2"] (VFun 0) VUndef blank
       = Some (Ok base, w1)) /\
    Forall2 (fun m c => exists wa wb,
               run demo_REPLACE demo_plain logging_code 9 wrapper
                   (m (MiddlewareAPI (store_getState base)
                         (fun action => EnhancedDispatch action rethrow))) wa
               = Some (Ok c, wb))
            [blocker "m1"; logger "m2"] chain /\
    store_dispatch blocked = Compose.compose chain (store_dispatch base) /\
    dispatchVar blocked_world = Some (store_dispatch blocked) /\
    (forall action,
       store_dispatch blocked action
       = fold_right (fun c next => c next) (store_dispatch base) chain action) /\
    (forall outer c inner,
       chain = outer ++ c :: inner ->
       store_dispatch blocked
       = Compose.compose outer (c (Compose.compose inner (store_dispatch base))) /\
       forall action,
         (forall next next' : dispatcher, c next action = c next' action) ->
         forall inner' base',
           c (Compose.compose inner (store_dispatch base)) action
           = c (Compose.compose inner' base') action).
Proof.
  apply (composed_dispatch_order demo_REPLACE demo_plain logging_code 9
           [blocker "m1"; logger "m2"]
           (inner_create [blocker "m1"; logger "m2"])
           (VFun 0) VUndef blank blocked blocked_world).
  reflexivity.
Defined.

(** In the store whose first middleware lets nothing through,
    [replaceReducer] still reaches the reducer with REPLACE, and [m1] is not
    called; [dispatch] of the same store stops at [m1]. *)
Example replace_passes_the_blocker :
  lines_of (run demo_REPLACE demo_plain logging_code 9 value
           (store_replaceReducer blocked (VFun 0)) blocked_world)
  = Some [demo_INIT; demo_REPLACE] /\
  lines_of (run demo_REPLACE demo_plain logging_code 9 value
           (store_dispatch blocked (VObj 70 [("type", VStr demo_REPLACE)]))
           blocked_world)
  = Some [demo_INIT; "m1"].
Proof. split; reflexivity. Qed.

Lemma replaceReducer_bypasses_middleware_witness :
  store_replaceReducer blocked = store_replaceReducer base_store /\
  (exists chain,
     store_dispatch blocked = Compose.compose chain (store_dispatch base_store) /\
     length chain = length [blocker "m1"; logger "m2"]) /\
  (forall f nextReducer w0,
     is_function nextReducer = true ->
     isDispatching w0 = false ->
     demo_plain (next_id w0) = true ->
     nextListeners w0 < length (arrays w0) ->
     length (staging w0) < f ->
     let action := VObj (next_id w0) [("type", VStr demo_REPLACE)] in
     let wi := set_next_id (S (next_id w0)) (set_currentReducer nextReducer w0) in
     (forall next w1,
        call logging_code (run demo_REPLACE demo_plain logging_code f) nextReducer
             [currentState w0; action] (set_isDispatching true wi)
          = Some (Ok next, w1) ->
        run demo_REPLACE demo_plain logging_code (S f) value
            (store_replaceReducer blocked nextReducer) w0
        = (invoke_in_order logging_code
             (run demo_REPLACE demo_plain logging_code f) (staging w0) ;;;
           ret VUndef) (snapshot_taken wi next w1)) /\
     (forall e w1,
        call logging_code (run demo_REPLACE demo_plain logging_code f) nextReducer
             [currentState w0; action] (set_isDispatching true wi)
          = Some (Err e, w1) ->
        run demo_REPLACE demo_plain logging_code (S f) value
            (store_replaceReducer blocked nextReducer) w0
        = Some (Err e, set_isDispatching false w1))) /\
  ((forall g args, base_only (logging_code g args)) ->
   forall f nextReducer d w0,
     run demo_REPLACE demo_plain logging_code f value
         (store_replaceReducer blocked nextReducer) (set_dispatchVar d w0)
     = over d (run demo_REPLACE demo_plain logging_code f value
                   (store_replaceReducer blocked nextReducer) w0)).
Proof.
  apply (replaceReducer_bypasses_middleware demo_INIT demo_REPLACE demo_plain
           logging_code (applied [blocker "m1"; logger "m2"]) 9
           [blocker "m1"; logger "m2"] 8 (VFun 0) VUndef blank
           blocked blocked_world).
  - reflexivity.
  - reflexivity.
Defined.

End Middleware.

(** * Further properties of compose.js *)

Module ComposeFacts.

Import Compose.

(** X1: pipelines nest.  Composing functions that are themselves results
    of [compose] is composing the concatenation of their argument lists:
    [compose(compose(a, b), compose(), compose(c))] is [compose(a, b, c)];
    in particular [compose()] is neutral. *)
Theorem compose_flattens {A : Type} (pipelines : list (list (A -> A))) (x : A) :
  compose (map compose pipelines) x = compose (concat pipelines) x.
Proof.
  induction pipelines as [|p rest IH]; [reflexivity|].
  cbn [map concat]. now rewrite compose_cons, IH, compose_app.
Qed.

End ComposeFacts.

(** * Further properties of combineReducers.js *)

Module CombineReducersFacts.

Import CombineReducers.

(** The function-valued entries of the [reducers] argument, in order,
    except under the key [__proto__]. *)
Fixpoint functions_of (reducers : list (string * entry))
  : list (string * reducer) :=
  match reducers with
  | [] => []
  | (key, EFun r) :: rest =>
      if String.eqb key "__proto__" then functions_of rest
      else (key, r) :: functions_of rest
  | _ :: rest => functions_of rest
  end.

(** The keys whose entry is [undefined]. *)
Fixpoint undefined_keys (reducers : list (string * entry)) : list string :=
  match reducers with
  | [] => []
  | (key, EVal VUndef) :: rest => key :: undefined_keys rest
  | _ :: rest => undefined_keys rest
  end.

Lemma lookup_key_In {A : Type} (k : string) (v : A) ps :
  lookup_key k ps = Some v -> In (k, v) ps.
Proof.
  induction ps as [|[k' v'] ps IH]; simpl; [discriminate|].
  destruct (String.eqb_spec k k') as [->|_].
  - intros [= ->]. now left.
  - intros H. right. now apply IH.
Qed.

Lemma lookup_key_NoDup {A : Type} (k : string) (v : A) ps :
  List.NoDup (keys ps) -> In (k, v) ps -> lookup_key k ps = Some v.
Proof.
  induction ps as [|[k' v'] ps IH]; simpl; [tauto|].
  intros Hnd. inversion Hnd as [|? ? Hnotin Hnd']; subst.
  intros [[= -> ->]|Hin].
  - now rewrite String.eqb_refl.
  - destruct (String.eqb_spec k k') as [->|_]; [|now apply IH].
    exfalso. apply Hnotin. change k' with (fst (k', v)). now apply in_map.
Qed.

Lemma lookup_key_app {A : Type} (k : string) (ps qs : list (string * A)) :
  lookup_key k (ps ++ qs)
  = match lookup_key k ps with Some v => Some v | None => lookup_key k qs end.
Proof.
  induction ps as [|[k' v'] ps IH]; simpl; [reflexivity|].
  now destruct (String.eqb k k').
Qed.

Lemma keys_functions_of reducers k :
  In k (keys (functions_of reducers)) -> In k (keys reducers).
Proof.
  induction reducers as [|[k' [r|v]] rest IH]; simpl; [tauto| |].
  - destruct (String.eqb k' "__proto__"); simpl; intuition.
  - intuition.
Qed.

Lemma functions_of_proto reducers :
  ~ In "__proto__" (keys (functions_of reducers)).
Proof.
  induction reducers as [|[k' [r|v]] rest IH]; simpl; [tauto| |exact IH].
  destruct (String.eqb_spec k' "__proto__") as [->|Hne]; [exact IH|].
  simpl. intros [H|H]; [now apply Hne|now apply IH].
Qed.


Lemma lookup_functions_of reducers k (r : reducer) :
  List.NoDup (keys reducers) ->
  (lookup_key k (functions_of reducers) = Some r <->
   k <> "__proto__" /\ lookup_key k reducers = Some (EFun r)).
Proof.
  induction reducers as [|[k' e] rest IH]; simpl.
  { intros _. split; [discriminate|]. now intros [_ H]. }
  intros Hnd. inversion Hnd as [|? ? Hnotin Hnd']; subst.
  specialize (IH Hnd').
  assert (Hrest : forall x : reducer,
            lookup_key k' (functions_of rest) = Some x -> False).
  { intros x H. apply Hnotin, keys_functions_of.
    apply lookup_key_In in H. change k' with (fst (k', x)). now apply in_map. }
  destruct e as [r'|v].
  - destruct (String.eqb_spec k' "__proto__") as [->|Hproto].
    + destruct (String.eqb_spec k "__proto__") as [->|Hne]; [|exact IH].
      split.
      * intros H. exfalso. apply (functions_of_proto rest).
        apply lookup_key_In in H. change "__proto__" with (fst ("__proto__", r)).
        now apply in_map.
      * now intros [H _].
    + simpl. destruct (String.eqb_spec k k') as [->|Hne]; [|exact IH].
      split.
      * intros [= ->]. now split.
      * now intros [_ [= ->]].
  - destruct (String.eqb_spec k k') as [->|Hne]; [|exact IH].
    split.
    + intros H. destruct (Hrest r H).
    + now intros [_ H].
Qed.



Section WithEnvironment.

Variable INIT REPLACE : string.
Variable plain : nat -> bool.
Variable production : bool.
Variable random_string : nat -> string.
Variable inherited : value -> string -> option value.
Variable Object_prototype : string -> option value.
Variable class_name : value -> option string.
Variable unprintable : value -> option error.

(** The loop of lines 150-163 on a part [sub] of the entries. *)
Lemma collect_functions reducers sub :
  (forall k e, In (k, e) sub -> lookup_key k reducers = Some e) ->
  List.NoDup (keys sub) ->
  forall acc w,
    (forall k, In k (keys sub) -> lookup_key k acc = None) ->
    collect production reducers (keys sub) acc w
    = (Ok (acc ++ functions_of sub),
       World (next_id w) (draws w) (caches w)
             (console w ++ if production then []
                           else map NoReducerProvided (undefined_keys sub))).
Proof.
  induction sub as [|[key e] sub IH]; intros Hlook Hnd acc w Hacc.
  - simpl. rewrite !app_nil_r. destruct production; destruct w; simpl;
      now rewrite ?app_nil_r.
  - inversion Hnd as [|? ? Hnotin Hnd']; subst.
    cbn [keys map fst collect]. rewrite (Hlook key e) by now left.
    assert (Hlook' : forall k e', In (k, e') sub -> lookup_key k reducers = Some e').
    { intros k e' H. apply Hlook. now right. }
    unfold bind.
    destruct e as [r|v].
    + replace ((if negb production then ret tt else ret tt) w) with (Ok tt, w)
        by now destruct production.
      change (map fst sub) with (keys sub).
      cbn [functions_of undefined_keys]. unfold assign.
      destruct (String.eqb key "__proto__").
      { rewrite IH; try assumption; [reflexivity|].
        intros k Hk. apply Hacc. now right. }
      rewrite IH; try assumption.
      * rewrite set_key_fresh by (apply Hacc; now left).
        simpl. now rewrite <- app_assoc.
      * intros k Hk. rewrite lookup_key_set_key_ne; [apply Hacc; now right|].
        intros ->. contradiction.
    + change (map fst sub) with (keys sub).
      destruct production; simpl.
      * destruct v; simpl;
          (rewrite IH; try assumption; [reflexivity|
           intros k Hk; apply Hacc; now right]).
      * destruct v; simpl; unfold warning, ret;
          (rewrite IH; try assumption;
           [simpl; now rewrite <- ?app_assoc|
            intros k Hk; apply Hacc; now right]).
Qed.

(** What [combineReducers] returns, given what the loop collected. *)
Lemma combineReducers_collected reducers w c w' :
  List.NoDup (keys reducers) ->
  combineReducers INIT production random_string reducers w = (Ok c, w') ->
  finalReducers c = functions_of reducers /\
  finalReducerKeys c = keys (functions_of reducers) /\
  exists wc wk,
    collect production reducers (keys reducers) [] w
    = (Ok (functions_of reducers), wc) /\
    next_id wc = next_id w /\
    console wc
    = console w ++ (if production then []
                    else map NoReducerProvided (undefined_keys reducers)) /\
    allocate_cache production wc = (Ok (unexpectedKeyCache c), wk) /\
    shapeAssertionError c
    = match assertReducerShape INIT random_string (functions_of reducers) wk with
      | (Ok _, _) => None
      | (Err e, _) => Some e
      end.
Proof.
  intros Hnd Hc.
  pose proof (collect_functions reducers reducers
                (fun k e => lookup_key_NoDup k e reducers Hnd) Hnd [] w
                (fun _ _ => eq_refl)) as Hcollect.
  simpl in Hcollect.
  unfold combineReducers, bind, try_catch, ret in Hc. rewrite Hcollect in Hc.
  destruct (allocate_cache production _) as [[cache|e] wk] eqn:Hcache;
    [|discriminate].
  destruct (assertReducerShape _ _ _ wk) as [[[]|e] w2] eqn:Hshape;
    injection Hc as <- <-; (split; [reflexivity|]); (split; [reflexivity|]);
    eexists _, wk; (split; [exact Hcollect|]); cbn [unexpectedKeyCache
      shapeAssertionError next_id console]; rewrite Hshape; now repeat split.
Qed.

(** X2: [combineReducers] keeps exactly the entries of [reducers] whose
    value is a function, in the order of the keys: these are the reducers
    and the keys of the composite, whatever else the argument holds.  The
    one exception is a function under the key [__proto__], which the
    assignment of line 161 does not make an entry.  Before the probes, the
    only trace of the others is, outside production, one "No reducer
    provided" warning per key whose value is [undefined]. *)
Theorem combineReducers_keeps_functions reducers w c w' :
  List.NoDup (keys reducers) ->
  combineReducers INIT production random_string reducers w = (Ok c, w') ->
  finalReducers c = functions_of reducers /\
  finalReducerKeys c = keys (functions_of reducers) /\
  (forall k r, lookup_key k (finalReducers c) = Some r <->
               k <> "__proto__" /\ lookup_key k reducers = Some (EFun r)) /\
  exists wc,
    collect production reducers (keys reducers) [] w
    = (Ok (functions_of reducers), wc) /\
    next_id wc = next_id w /\
    console wc
    = console w ++ (if production then []
                    else map NoReducerProvided (undefined_keys reducers)).
Proof.
  intros Hnd Hc.
  destruct (combineReducers_collected reducers w c w' Hnd Hc)
    as (Hf & Hk & wc & wk & Hcollect & Hid & Hconsole & _).
  split; [exact Hf|]. split; [exact Hk|]. split.
  - intros k r. rewrite Hf. now apply lookup_functions_of.
  - exists wc. now repeat split.
Qed.

(** X3: a composite without any reducer (no entry of [reducers] is a
    function, the empty record included) returns its [state] argument as it
    is for every action, [null] and non-records too; an absent state comes
    back as a new empty record.  Outside production every call warns that
    the store has no valid reducer. *)
Theorem composite_without_reducers reducers w0 c w1 state action w :
  List.NoDup (keys reducers) ->
  functions_of reducers = [] ->
  combineReducers INIT production random_string reducers w0 = (Ok c, w1) ->
  exists w',
    combination INIT REPLACE plain production inherited Object_prototype
                class_name unprintable c state action w
    = (Ok (defaulted state w), w') /\
    console w' = console w ++ (if production then [] else [NoValidReducer]).
Proof.
  intros Hnd Hnone Hc.
  destruct (combineReducers_collected reducers w0 c w1 Hnd Hc)
    as (Hf & Hk & wc & wk & _ & _ & _ & _ & Hshape).
  rewrite Hnone in Hf, Hk, Hshape. simpl in Hshape.
  rewrite combination_eq, Hshape.
  unfold diagnose, getUnexpectedStateShapeWarningMessage, slices_loop, bind,
    fresh_id, defaulted, after_default.
  rewrite Hf, Hk. simpl.
  destruct (is_undefined state), production; simpl;
    eexists; (split; [reflexivity|]); simpl; now rewrite ?app_nil_r.
Qed.

(** X4: the default [state = {}] covers [undefined] only.  A composite
    with at least one reducer, called with the state [null], throws a
    [TypeError] at [state[key]] before any sub-reducer is called. *)
Theorem null_state_is_a_type_error c key rest action w :
  shapeAssertionError c = None ->
  finalReducerKeys c = key :: rest ->
  exists w',
    combination INIT REPLACE plain production inherited Object_prototype
                class_name unprintable c VNull action w
    = (Err TypeError, w').
Proof.
  intros Hshape Hkeys. rewrite combination_eq, Hshape.
  unfold defaulted, after_default. simpl. unfold bind at 1.
  assert (Hdiag : exists wb,
            diagnose INIT REPLACE plain production inherited Object_prototype
                     class_name c VNull action w
            = (Ok tt, wb)).
  { unfold diagnose. destruct production; simpl; [now eexists|].
    unfold bind, getUnexpectedStateShapeWarningMessage.
    destruct (Nat.eqb _ 0); now eexists. }
  destruct Hdiag as (wb & ->).
  unfold slices_loop, bind, fresh_id. rewrite Hkeys. simpl.
  destruct (lookup_key key (finalReducers c)); now eexists.
Qed.

Lemma combination_absent c action w :
  combination INIT REPLACE plain production inherited Object_prototype
              class_name unprintable c VUndef action w
  = combination INIT REPLACE plain production inherited Object_prototype
                class_name unprintable c (VObj (next_id w) []) action
      (World (S (next_id w)) (draws w) (caches w) (console w)).
Proof. reflexivity. Qed.

(** X5: initialisation.  A composite with at least one reducer is called
    with an absent state, so that it works on a new empty record.  When
    that record inherits nothing under a reducer key, every sub-reducer
    receives [undefined]; when they all answer it with a defined slice
    (and the diagnostic of development mode does not throw), the call
    returns a new record with every reducer key, never the empty record
    itself. *)
Theorem absent_state_is_initialised reducers w0 c w1 key rest action w :
  combineReducers INIT production random_string reducers w0 = (Ok c, w1) ->
  shapeAssertionError c = None ->
  finalReducerKeys c = key :: rest ->
  (forall k, In k (finalReducerKeys c) ->
             inherited (VObj (next_id w) []) k = None) ->
  diagnostic_safe plain production class_name (finalReducers c)
                  (VObj (next_id w) []) ->
  slices_defined inherited (finalReducers c) (VObj (next_id w) []) action ->
  exists slices id w',
    combination INIT REPLACE plain production inherited Object_prototype
                class_name unprintable c VUndef action w
    = (Ok (VObj id (assembled slices)), w') /\
    next_id w < id /\
    keys (assembled slices) = finalReducerKeys c /\
    Forall (fun s => previous s = VUndef /\ is_undefined (next s) = false) slices.
Proof.
  intros Hc Hshape Hkeys Hproto Hsafe Hdef.
  destruct (combination_returns INIT REPLACE plain production random_string
              inherited Object_prototype class_name unprintable
              _ _ _ _ (next_id w) [] action
              (World (S (next_id w)) (draws w) (caches w) (console w))
              Hc Hshape Hsafe Hdef) as (v & w' & wb & Hrun & Hloop & Hid).
  destruct (combineReducers_keys _ _ _ _ _ _ _ Hc) as [Hck Hnd].
  destruct (slices_loop_ok _ _ _ _ _ _ _ _ Hck Hnd Hloop)
    as (slices & Hk & Hall & Hv).
  rewrite <- combination_absent in Hrun. simpl in Hid.
  assert (Hprev : Forall (fun s => previous s = VUndef /\
                                   is_undefined (next s) = false) slices).
  { rewrite <- Hk in Hproto. clear - Hall Hproto.
    induction Hall as [|s slices (Hp & Hn & _) _ IH]; constructor.
    - cbn [read lookup_key] in Hp. rewrite Hproto in Hp by now left.
      injection Hp as <-. now split.
    - apply IH. intros k Hin. apply Hproto. now right. }
  assert (Hchanged : forallb unchanged slices = false).
  { destruct slices as [|s slices]; [rewrite Hkeys in Hk; discriminate|].
    inversion Hprev as [|? ? [Hp Hn] _]; subst. simpl.
    unfold unchanged at 1. rewrite Hp. now destruct (next s). }
  rewrite Hchanged in Hv.
  exists slices, (next_id wb), w'. subst v. split; [exact Hrun|].
  split; [lia|]. split; [now rewrite keys_assembled|exact Hprev].
Qed.

Lemma reduce_slices_stops (reducers : list (string * reducer)) sid ps action
    key (r : reducer) m :
  lookup_key key reducers = Some r ->
  getUndefinedStateErrorMessage inherited unprintable key action = Ok m ->
  (forall prev, read inherited (VObj sid ps) key = Ok prev ->
     forall w1, exists nxt w2,
       r prev action w1 = (Ok nxt, w2) /\ is_undefined nxt = true) ->
  forall before,
  (forall k, In k before -> exists r' : reducer,
     lookup_key k reducers = Some r' /\
     forall prev, read inherited (VObj sid ps) k = Ok prev ->
       forall w1, exists nxt w2,
         r' prev action w1 = (Ok nxt, w2) /\ is_undefined nxt = false) ->
  forall after nextState hasChanged w, exists w',
    reduce_slices inherited unprintable reducers (VObj sid ps) action
                  (before ++ key :: after) nextState hasChanged w
    = (Err (Error m), w').
Proof.
  intros Hr Hm Hundef. induction before as [|k before IH];
    intros Hbefore after ns hc w; simpl.
  - rewrite Hr. unfold bind, lift.
    destruct (Hundef _ eq_refl w) as (nxt & w2 & -> & ->).
    rewrite Hm. now eexists.
  - destruct (Hbefore k (or_introl eq_refl)) as (r' & -> & Hr').
    unfold bind, lift.
    destruct (Hr' _ eq_refl w) as (nxt & w2 & -> & ->).
    apply IH. intros k' Hk'. apply Hbefore. now right.
Qed.

(** X6: the first sub-reducer, in key order, that returns [undefined]
    for the slice it receives (what a lookup of its key on the state
    finds) stops the composite: the composite throws the error of
    [getUndefinedStateErrorMessage] for that key, which describes the
    action by its type when the type is truthy and [String] can print it;
    the remaining sub-reducers are not called and no state is returned. *)
Theorem undefined_slice_throws
    reducers w0 c w1 before key after (r : reducer) sid ps action w :
  combineReducers INIT production random_string reducers w0 = (Ok c, w1) ->
  shapeAssertionError c = None ->
  diagnostic_safe plain production class_name (finalReducers c) (VObj sid ps) ->
  finalReducerKeys c = before ++ key :: after ->
  lookup_key key (finalReducers c) = Some r ->
  unprintable (action_type inherited action) = None ->
  (forall prev, read inherited (VObj sid ps) key = Ok prev ->
     forall w1, exists nxt w2,
       r prev action w1 = (Ok nxt, w2) /\ is_undefined nxt = true) ->
  (forall k, In k before -> exists r' : reducer,
     lookup_key k (finalReducers c) = Some r' /\
     forall prev, read inherited (VObj sid ps) k = Ok prev ->
       forall w1, exists nxt w2,
         r' prev action w1 = (Ok nxt, w2) /\ is_undefined nxt = false) ->
  exists w',
    combination INIT REPLACE plain production inherited Object_prototype
                class_name unprintable c (VObj sid ps) action w
    = (Err (Error (UndefinedState key
                     (if truthy (action_type inherited action)
                      then Some (action_type inherited action) else None))),
       w').
Proof.
  intros Hc Hshape Hsafe Hkeys Hr Hprint Hundef Hbefore.
  pose proof (combineReducers_cache _ _ _ _ _ _ _ Hc) as Hcache.
  rewrite combination_eq, Hshape. unfold defaulted, after_default. simpl.
  destruct (diagnose_quiet INIT REPLACE plain production inherited
              Object_prototype class_name c (VObj sid ps) action w Hsafe Hcache)
    as (wb & Hdiag & _).
  unfold bind at 1. rewrite Hdiag.
  assert (Hm : getUndefinedStateErrorMessage inherited unprintable key action
               = Ok (UndefinedState key
                       (if truthy (action_type inherited action)
                        then Some (action_type inherited action) else None))).
  { unfold getUndefinedStateErrorMessage.
    destruct (truthy (action_type inherited action)); [|reflexivity].
    now rewrite Hprint. }
  unfold slices_loop, bind at 1, fresh_id. unfold bind. rewrite Hkeys.
  edestruct (reduce_slices_stops (finalReducers c) sid ps action key r _
               Hr Hm Hundef before Hbefore after) as (w' & ->).
  now eexists.
Qed.







(** Worlds that differ in the diagnostics only. *)
Definition agree (w1 w2 : world) : Prop :=
  next_id w1 = next_id w2 /\ draws w1 = draws w2.

(** A reducer that does not look at the diagnostics of the composite. *)
Definition oblivious (r : reducer) : Prop :=
  forall state action w1 w2,
    agree w1 w2 ->
    fst (r state action w1) = fst (r state action w2) /\
    agree (snd (r state action w1)) (snd (r state action w2)).

Lemma reduce_slices_agree (reducers : list (string * reducer)) state action ks :
  (forall k r, lookup_key k reducers = Some r -> oblivious r) ->
  forall nextState hasChanged w1 w2,
    agree w1 w2 ->
    fst (reduce_slices inherited unprintable reducers state action ks
           nextState hasChanged w1)
    = fst (reduce_slices inherited unprintable reducers state action ks
             nextState hasChanged w2).
Proof.
  intros Hobl. induction ks as [|key rest IH]; intros ns hc w1 w2 Hagree; simpl.
  - reflexivity.
  - destruct (lookup_key key reducers) as [r|] eqn:Hr; [|reflexivity].
    unfold bind at 1 3, lift.
    destruct (read inherited state key) as [prev|e]; [|reflexivity].
    unfold bind.
    destruct (Hobl key r Hr prev action w1 w2 Hagree) as [Hfst Hsnd].
    destruct (r prev action w1) as [[v1|e1] w1'],
             (r prev action w2) as [[v2|e2] w2']; simpl in Hfst, Hsnd;
      try discriminate; injection Hfst as ->; [|reflexivity].
    destruct (is_undefined v2).
    + now destruct (getUndefinedStateErrorMessage inherited unprintable key action).
    + now apply IH.
Qed.

Lemma slices_loop_agree c state action w1 w2 :
  (forall k r, lookup_key k (finalReducers c) = Some r -> oblivious r) ->
  agree w1 w2 ->
  fst (slices_loop inherited unprintable c state action w1)
  = fst (slices_loop inherited unprintable c state action w2).
Proof.
  intros Hobl [Hid Hdraws]. unfold slices_loop, bind, fresh_id.
  set (wa := World (S (next_id w1)) _ _ _).
  set (wb := World (S (next_id w2)) _ _ _).
  assert (Hab : agree wa wb) by (split; simpl; congruence).
  pose proof (reduce_slices_agree (finalReducers c) state action
                (finalReducerKeys c) Hobl [] false wa wb Hab) as H.
  rewrite Hid.
  destruct (reduce_slices _ _ _ _ _ _ _ _ wa) as [[[ns1 hc1]|e1] wa'],
           (reduce_slices _ _ _ _ _ _ _ _ wb) as [[[ns2 hc2]|e2] wb'];
    simpl in H; try discriminate; injection H as <-; try subst; reflexivity.
Qed.

(** X9: the diagnostics do not change what the composite computes.  Take
    a composite with a cache whose sub-reducers do not look at the console
    or at the caches, none of them registered under the key
    [hasOwnProperty], and a state that is a plain record or has a class
    name.  A call returns the same state, or throws the same error, in
    production and outside, whatever has been reported before. *)
Theorem diagnostics_do_not_change_the_result c state action w1 w2 :
  (forall k r, lookup_key k (finalReducers c) = Some r -> oblivious r) ->
  (exists i, unexpectedKeyCache c = Some i) ->
  diagnostic_safe plain false class_name (finalReducers c) (defaulted state w2) ->
  agree w1 w2 ->
  fst (combination INIT REPLACE plain true inherited Object_prototype
         class_name unprintable c state action w1)
  = fst (combination INIT REPLACE plain false inherited Object_prototype
           class_name unprintable c state action w2).
Proof.
  intros Hobl Hcache Hsafe Hagree. rewrite !combination_eq.
  assert (Hst : defaulted state w1 = defaulted state w2).
  { unfold defaulted. destruct Hagree as [-> _]. reflexivity. }
  assert (Hwa : agree (after_default state w1) (after_default state w2)).
  { unfold after_default. destruct Hagree as [Hid Hdr].
    destruct (is_undefined state); split; simpl; congruence. }
  destruct (diagnose_quiet INIT REPLACE plain false inherited Object_prototype
              class_name c (defaulted state w2) action (after_default state w2)
              Hsafe (fun _ => Hcache)) as (wb & Hdiag & Hid & Hdr).
  assert (Hloops :
    fst ((diagnose INIT REPLACE plain true inherited Object_prototype class_name
            c (defaulted state w1) action ;;;
          slices_loop inherited unprintable c (defaulted state w1) action)
           (after_default state w1))
    = fst ((diagnose INIT REPLACE plain false inherited Object_prototype
              class_name c (defaulted state w2) action ;;;
            slices_loop inherited unprintable c (defaulted state w2) action)
             (after_default state w2))).
  { unfold bind at 2. rewrite Hdiag. rewrite Hst.
    apply slices_loop_agree; [exact Hobl|].
    destruct Hwa as [Ha Hb]. split; congruence. }
  destruct (shapeAssertionError c) as [e|]; [destruct (error_truthy e)|];
    [reflexivity|exact Hloops|exact Hloops].
Qed.

End WithEnvironment.

(** ** The facts on concrete reducers *)

(** [{a: counter, n: 3, u: undefined, b: keep}] *)
Definition mixed_reducers : list (string * entry) :=
  [("a", EFun counter); ("n", EVal (VNum 3)); ("u", EVal VUndef);
   ("b", EFun keep)].

Lemma combineReducers_keeps_functions_witness :
  finalReducers ab = functions_of mixed_reducers /\
  finalReducerKeys ab = keys (functions_of mixed_reducers) /\
  (forall k r, lookup_key k (finalReducers ab) = Some r <->
               k <> "__proto__" /\ lookup_key k mixed_reducers = Some (EFun r)) /\
  exists wc,
    collect false mixed_reducers (keys mixed_reducers) [] boot
    = (Ok (functions_of mixed_reducers), wc) /\
    next_id wc = next_id boot /\
    console wc
    = console boot ++ map NoReducerProvided (undefined_keys mixed_reducers).
Proof.
  apply (combineReducers_keeps_functions demo_INIT false demo_random
           mixed_reducers boot ab (World 4 2 [[]] [NoReducerProvided "u"])).
  - repeat constructor; simpl; intuition discriminate.
  - reflexivity.
Defined.

(** [{['__proto__']: keep, a: counter}]: the reducer under [__proto__] is
    not a reducer of the composite. *)
Example proto_is_not_a_reducer_key :
  demo_combine [("__proto__", EFun keep); ("a", EFun counter)] boot
  = (Ok (Composite [("a", counter)] ["a"] (Some 0) None), World 2 1 [[]] []).
Proof. reflexivity. Qed.

(** [{n: 3}]: nothing to combine. *)
Definition no_reducers : list (string * entry) := [("n", EVal (VNum 3))].

Lemma composite_without_reducers_witness :
  exists w',
    demo_combination (Composite [] [] (Some 0) None) (VNum 7) inc
                     (World 12 0 [[]] [])
    = (Ok (VNum 7), w') /\
    console w' = [NoValidReducer].
Proof.
  apply (composite_without_reducers demo_INIT demo_REPLACE demo_plain false
           demo_random demo_inherited demo_Object_prototype demo_class
           demo_unprintable no_reducers boot (Composite [] [] (Some 0) None)
           (World 0 0 [[]] []) (VNum 7) inc (World 12 0 [[]] [])).
  - repeat constructor; simpl; intuition.
  - reflexivity.
  - reflexivity.
Defined.

Lemma null_state_is_a_type_error_witness :
  exists w',
    demo_combination ab VNull inc (World 12 2 [[]] []) = (Err TypeError, w').
Proof.
  apply (null_state_is_a_type_error demo_INIT demo_REPLACE demo_plain false
           demo_inherited demo_Object_prototype demo_class demo_unprintable
           ab "a" ["b"] inc (World 12 2 [[]] [])); reflexivity.
Defined.

Lemma absent_state_is_initialised_witness :
  exists slices id w',
    demo_combination ab VUndef other (World 12 2 [[]] [])
    = (Ok (VObj id (assembled slices)), w') /\
    12 < id /\
    keys (assembled slices) = ["a"; "b"] /\
    Forall (fun s => previous s = VUndef /\ is_undefined (next s) = false) slices.
Proof.
  apply (absent_state_is_initialised demo_INIT demo_REPLACE demo_plain false
           demo_random demo_inherited demo_Object_prototype demo_class
           demo_unprintable ab_reducers boot ab (World 4 2 [[]] []) "a" ["b"]
           other (World 12 2 [[]] [])).
  - reflexivity.
  - reflexivity.
  - reflexivity.
  - intros k [<-|[<-|[]]]; reflexivity.
  - apply ab_diagnostic_safe.
  - intros k r Hk prev Hread w1. simpl in Hk.
    destruct (String.eqb_spec k "a") as [->|_].
    { injection Hk as <-. injection Hread as <-.
      eexists _, _; split; reflexivity. }
    destruct (String.eqb_spec k "b") as [->|_]; [|discriminate].
    injection Hk as <-. injection Hread as <-.
    eexists _, _; split; reflexivity.
Defined.

(** [{a: counter, x: lenient, b: keep}], as built by [combineReducers]. *)
Definition axb_reducers : list (string * entry) :=
  [("a", EFun counter); ("x", EFun lenient); ("b", EFun keep)].
Definition axb : composite :=
  Composite [("a", counter); ("x", lenient); ("b", keep)] ["a"; "x"; "b"]
            (Some 0) None.

Example axb_built : demo_combine axb_reducers boot = (Ok axb, World 6 3 [[]] []).
Proof. reflexivity. Qed.

Lemma undefined_slice_throws_witness :
  exists w',
    demo_combination axb (VObj 9 [("a", VNum 1)]) x_action (World 10 3 [[]] [])
    = (Err (Error (UndefinedState "x" (Some (VStr "X")))), w').
Proof.
  apply (undefined_slice_throws demo_INIT demo_REPLACE demo_plain false
           demo_random demo_inherited demo_Object_prototype demo_class
           demo_unprintable axb_reducers boot axb (World 6 3 [[]] [])
           ["a"] "x" ["b"] lenient 9 [("a", VNum 1)] x_action
           (World 10 3 [[]] [])).
  - reflexivity.
  - reflexivity.
  - intros _. split; [reflexivity|]. intros H. discriminate H.
  - reflexivity.
  - reflexivity.
  - reflexivity.
  - intros prev Hread w1. injection Hread as <-. now exists VUndef, w1.
  - intros k [<-|[]]. exists counter. split; [reflexivity|].
    intros prev Hread w1. injection Hread as <-. now exists (VNum 1), w1.
Defined.


(** A key that records inherit from [Object.prototype] is never reported:
    the cache, an empty record, holds the inherited method under it. *)
Example inherited_key_is_not_reported :
  getUnexpectedStateShapeWarningMessage demo_INIT demo_REPLACE demo_plain
    demo_inherited demo_Object_prototype demo_class
    (VObj 10 [("a", VNum 1); ("constructor", VNum 3); ("zzz", VNum 4)])
    [("a", counter)] other (Some 0) (World 12 2 [[]] [])
  = (Ok (Some (UnexpectedKeys false ["zzz"] ["a"])),
     World 12 2 [[("zzz", true)]] []).
Proof. reflexivity. Qed.




Example counter_oblivious : oblivious counter.
Proof.
  intros state action w1 w2 Hagree. unfold counter.
  destruct state; try (split; [reflexivity|exact Hagree]).
  destruct (strict_eq _ _); (split; [reflexivity|exact Hagree]).
Qed.

Example keep_oblivious : oblivious keep.
Proof.
  intros state action w1 w2 Hagree. unfold keep.
  destruct state; (split; [reflexivity|exact Hagree]).
Qed.

Lemma diagnostics_do_not_change_the_result_witness :
  fst (production_combination ab ab_state inc (World 12 2 [[]] []))
  = fst (demo_combination ab ab_state inc
           (World 12 2 [[("q", true)]] [NoValidReducer])).
Proof.
  apply (diagnostics_do_not_change_the_result demo_INIT demo_REPLACE demo_plain
           demo_inherited demo_Object_prototype demo_class demo_unprintable
           ab ab_state inc (World 12 2 [[]] [])
           (World 12 2 [[("q", true)]] [NoValidReducer])).
  - intros k r Hk. simpl in Hk.
    destruct (String.eqb k "a"); [injection Hk as <-; exact counter_oblivious|].
    destruct (String.eqb k "b"); [injection Hk as <-; exact keep_oblivious|].
    discriminate Hk.
  - now exists 0.
  - apply ab_diagnostic_safe.
  - split; reflexivity.
Defined.

End CombineReducersFacts.
(** * createStore.js: further facts *)

Module StoreFacts.

Import Store.

Section WithEnvironment.

Variable INIT REPLACE : string.
Variable plain : nat -> bool.
Variable code : nat -> list value -> prog value.
Variable enhancers : nat -> enhancer.

(** X10: while a reducer runs, the store refuses every call.  [getState],
    [subscribe] of a function, the first call of an [unsubscribe] closure
    and [dispatch] of a well-formed action each throw their own error and
    leave every variable as it is; the type check of [subscribe] comes
    before the phase check.  [replaceReducer] fails too, with the error of
    the inner [dispatch], but only after it has assigned the reducer
    variable.  Whatever the reducer calls, the state, the flag, the two
    listener arrays and the registrations are the same when it ends. *)
Theorem reentrant_calls_are_refused w :
  isDispatching w = true ->
  getState w = Some (Err (Error GetStateWhileReducing), w) /\
  (forall listener,
     subscribe listener w
     = Some (Err (Error (if is_function listener then SubscribeWhileReducing
                         else ExpectedListenerFunction)), w)) /\
  (forall u listener,
     closures w !! u = Some (listener, true) ->
     unsubscribe u w = Some (Err (Error UnsubscribeWhileReducing), w)) /\
  (forall exec n action type,
     isPlainObject plain action = true ->
     get_prop action "type" = Ok type ->
     is_undefined type = false ->
     dispatch plain code exec n action w
     = Some (Err (Error ReducersMayNotDispatch), w)) /\
  (forall exec n nextReducer,
     is_function nextReducer = true ->
     plain (next_id w) = true ->
     replaceReducer REPLACE plain code exec n nextReducer w
     = Some (Err (Error ReducersMayNotDispatch),
             set_next_id (S (next_id w)) (set_currentReducer nextReducer w))) /\
  (forall fuel R (p : prog R) o w',
     run REPLACE plain code fuel R p w = Some (o, w') -> same_store w w').
Proof.
  intros Hd. split; [now apply getState_while_dispatching|]. split.
  { intros listener. unfold subscribe.
    destruct (is_function listener); [|reflexivity].
    simpl. unfold bind, gets. now rewrite Hd. }
  split.
  { intros u listener Hu. unfold unsubscribe, bind, gets. rewrite Hu. simpl.
    now rewrite Hd. }
  split.
  { intros exec n action type Hplain Htype Hdef. unfold dispatch, rejection.
    now rewrite Hplain, Htype, Hdef, Hd. }
  split.
  { intros exec n nextReducer Hf Hplain. unfold replaceReducer.
    rewrite Hf. simpl. unfold bind, modify, alloc, bind, gets, modify, ret.
    simpl. unfold dispatch, rejection. simpl. rewrite Hplain, Hd. reflexivity. }
  intros fuel R p o w'. now apply run_while_dispatching.
Qed.

(** X11: arguments are checked first.  [createStore] looks at its enhancer
    before its reducer: an enhancer that is neither [undefined] nor a
    function is rejected whatever the reducer and the state are; a function
    in the place of the state, with no enhancer behind it, is the enhancer:
    [createStore(reducer, g)] is [createStore(reducer, undefined, g)]; and
    with no enhancer at all a reducer that is not a function is rejected.
    [subscribe] with a listener that is not a function and [replaceReducer]
    with a next reducer that is not a function throw their own error in any
    phase.  Nothing has changed when these errors are thrown. *)
Theorem non_functions_are_rejected fuel exec f w :
  is_function f = false ->
  (forall preloadedState,
     is_function preloadedState = false ->
     createStore INIT REPLACE plain code enhancers fuel f preloadedState VUndef w
     = Some (Err (Error ExpectedReducerFunction), w)) /\
  (forall reducer preloadedState,
     is_undefined f = false ->
     createStore INIT REPLACE plain code enhancers fuel reducer preloadedState f w
     = Some (Err (Error ExpectedEnhancerFunction), w)) /\
  (forall reducer g,
     is_function g = true ->
     createStore INIT REPLACE plain code enhancers fuel reducer g VUndef w
     = createStore INIT REPLACE plain code enhancers fuel reducer VUndef g w) /\
  subscribe f w = Some (Err (Error ExpectedListenerFunction), w) /\
  replaceReducer REPLACE plain code exec fuel f w
  = Some (Err (Error ExpectedNextReducerFunction), w).
Proof.
  intros Hf. split.
  { intros preloadedState Hstate.
    rewrite createStore_without_enhancer by exact Hstate. now rewrite Hf. }
  split.
  { intros reducer preloadedState Hdef.
    destruct fuel; simpl; rewrite Hdef, Bool.andb_false_r; simpl;
      rewrite Hdef, Hf; reflexivity. }
  split.
  { intros reducer g Hg. destruct g; try discriminate; destruct fuel; reflexivity. }
  unfold subscribe, replaceReducer. rewrite Hf. now split.
Qed.

(** X12: no call leaves the store locked.  Whatever an idle store is
    asked, by any client code, and however the call ends (a rejected
    action, a reducer or a listener that throws, a normal return), the
    store is idle afterwards: [getState] answers and no dispatch is
    rejected for reentrancy. *)
Theorem store_is_idle_after_every_call fuel R (p : prog R) w o w' :
  isDispatching w = false ->
  run REPLACE plain code fuel R p w = Some (o, w') ->
  isDispatching w' = false /\
  getState w' = Some (Ok (currentState w'), w') /\
  (forall action,
     rejection plain action w' <> Some (Error ReducersMayNotDispatch)) /\
  (forall n action o1 w1,
     dispatch plain code (run REPLACE plain code n) n action w' = Some (o1, w1) ->
     isDispatching w1 = false).
Proof.
  intros Hidle Hrun.
  assert (Hidle' : isDispatching w' = false).
  { rewrite <- Hidle. eapply run_keeps_phase, Hrun. }
  split; [exact Hidle'|]. split.
  { unfold getState, bind, gets. now rewrite Hidle'. }
  split.
  { intros action. unfold rejection. rewrite Hidle'.
    destruct (negb _); [discriminate|].
    destruct (get_prop action "type") as [t|e] eqn:Htype.
    - destruct (is_undefined t); discriminate.
    - intros [= ->]. destruct action; discriminate Htype. }
  intros n action o1 w1 Hdis. rewrite <- Hidle'.
  eapply (keeps_phase_dispatch plain code); [|exact Hdis].
  intros R' p'. apply run_keeps_phase.
Qed.

(** X13: [ensureCanMutateNextListeners] copies at most once per
    snapshot.  When both references are valid, after the call the staging
    array is not the array of the current snapshot, it holds what it held,
    and the snapshot array holds what it held; when the two already
    differed nothing changes at all, so a second call does nothing. *)
Theorem listeners_are_copied_once w :
  nextListeners w < length (arrays w) ->
  currentListeners w < length (arrays w) ->
  exists w',
    ensureCanMutateNextListeners w = Some (Ok tt, w') /\
    nextListeners w' <> currentListeners w' /\
    currentListeners w' = currentListeners w /\
    staging w' = staging w /\
    array_at (currentListeners w) w' = array_at (currentListeners w) w /\
    (nextListeners w <> currentListeners w -> w' = w) /\
    ensureCanMutateNextListeners w' = Some (Ok tt, w').
Proof.
  intros Hnext Hcur. exists (ensured w).
  split; [apply ensureCanMutateNextListeners_eq|].
  assert (Hdiff : nextListeners (ensured w) <> currentListeners (ensured w)).
  { unfold ensured. destruct (Nat.eqb_spec (nextListeners w) (currentListeners w));
      simpl; [lia|assumption]. }
  split; [exact Hdiff|]. split.
  { unfold ensured. now destruct (Nat.eqb _ _). }
  split; [apply staging_ensured|]. split.
  { unfold ensured. destruct (Nat.eqb _ _); [|reflexivity].
    unfold array_at. simpl. now rewrite lookup_app_l. }
  split.
  { intros Hne. unfold ensured.
    now destruct (Nat.eqb_spec (nextListeners w) (currentListeners w)). }
  rewrite ensureCanMutateNextListeners_eq. do 2 f_equal.
  unfold ensured at 1.
  now destruct (Nat.eqb_spec (nextListeners (ensured w))
                             (currentListeners (ensured w))).
Qed.

(** X14: the array a dispatch iterates over is never written.  Whatever
    client code does (subscribe, unsubscribe, dispatch, replace the
    reducer, in any nesting), the array that [currentListeners] pointed to
    before holds the same listeners afterwards. *)
Theorem snapshot_is_never_written fuel R (p : prog R) w o w' :
  currentListeners w < length (arrays w) ->
  run REPLACE plain code fuel R p w = Some (o, w') ->
  array_at (currentListeners w) w' = array_at (currentListeners w) w.
Proof.
  intros Hcur Hrun.
  destruct (run_preserves REPLACE plain code fuel R p w o w' Hrun) as (Hst & _).
  destruct (Hst (currentListeners w)) as [_ Heq].
  { split; [exact Hcur|now right]. }
  unfold array_at. now rewrite Heq.
Qed.

(** X15: subscribing and then unsubscribing gives the listeners back.
    In an idle store, [subscribe(listener)] followed by a call of the
    closure it returned leaves, for every listener, as many entries in the
    staging list as before, and the closure is no longer subscribed; when
    [listener] had no entry before, the staging list is exactly what it
    was. *)
Theorem subscribe_then_unsubscribe listener w :
  registered w ->
  isDispatching w = false ->
  is_function listener = true ->
  exists u w1 w2,
    subscribe listener w = Some (Ok (VUnsub u), w1) /\
    unsubscribe u w1 = Some (Ok VUndef, w2) /\
    (forall l, occurrences l (staging w2) = occurrences l (staging w)) /\
    length (staging w2) = length (staging w) /\
    (occurrences listener (staging w) = 0 -> staging w2 = staging w) /\
    closures w2 = closures w ++ [(listener, false)] /\
    registered w2 /\
    isDispatching w2 = false.
Proof.
  intros Hreg Hidle Hf.
  set (u := length (closures w)). set (w1 := subscribed listener w).
  assert (Hvalid : nextListeners w < length (arrays w)) by apply Hreg.
  assert (Hreg1 : registered w1) by now apply (evolves_subscribed listener w Hf).
  assert (Hclos1 : closures w1 = closures w ++ [(listener, true)]).
  { unfold w1, subscribed. now rewrite closures_written. }
  assert (Hu : closures w1 !! u = Some (listener, true)).
  { rewrite Hclos1. unfold u. rewrite lookup_app_r by lia.
    now rewrite Nat.sub_diag. }
  assert (Hidle1 : isDispatching w1 = false).
  { rewrite <- Hidle.
    eapply keeps_phase_subscribe, subscribe_idle; assumption. }
  assert (Hstag1 : staging w1 = staging w ++ [listener]).
  { unfold w1, subscribed. now rewrite staging_written. }
  set (w2 := unsubscribed u listener w1).
  destruct (unsubscribed_staging u listener w1 Hreg1 Hu) as (i & Hi & Hfirst & Hdel).
  fold w2 in Hdel.
  assert (Hcount : forall l, occurrences l (staging w2) = occurrences l (staging w)).
  { intros l. pose proof (occurrences_delete l (staging w1) i listener Hi) as H.
    rewrite <- Hdel, Hstag1, occurrences_app in H. simpl in H. lia. }
  exists u, w1, w2.
  split; [now apply subscribe_idle|].
  split; [now apply unsubscribe_idle|].
  split; [exact Hcount|]. split.
  { rewrite Hdel, length_delete by (now exists listener).
    rewrite Hstag1, length_app. simpl. lia. }
  split.
  { intros Hnone. rewrite Hdel, Hstag1.
    assert (Hlast : i = length (staging w)).
    { destruct (Nat.lt_trichotomy i (length (staging w))) as [Hlt|[Heq|Hgt]].
      - exfalso. rewrite Hstag1, lookup_app_l in Hi by exact Hlt.
        pose proof (occurrences_lookup listener _ _ _ Hi
                      (strict_eq_function_refl _ Hf)). lia.
      - exact Heq.
      - apply lookup_lt_Some in Hi. rewrite Hstag1, length_app in Hi.
        simpl in Hi. lia. }
    subst i. rewrite (delete_middle (staging w) [] listener).
    apply app_nil_r. }
  split.
  { unfold w2, unsubscribed. rewrite closures_written.
    unfold set_closures. cbn [closures]. rewrite Hclos1.
    unfold u. rewrite insert_app_r_alt by lia. now rewrite Nat.sub_diag. }
  split.
  { now apply (evolves_unsubscribed u listener w1 Hu). }
  rewrite <- Hidle1.
  eapply keeps_phase_unsubscribe, unsubscribe_idle; assumption.
Qed.

(** ** What a dispatch that passes the guards runs *)

Lemma invoke_in_order_app exec before after w :
  invoke_in_order code exec (before ++ after) w
  = (invoke_in_order code exec before ;;; invoke_in_order code exec after) w.
Proof.
  revert w. induction before as [|l before IH]; intros w; simpl.
  - reflexivity.
  - unfold bind. unfold bind in IH.
    destruct (call code exec l [] w) as [[[v|e] w1]|]; try reflexivity.
    apply IH.
Qed.

Lemma keeps_phase_invoke exec snapshot :
  (forall R (p : prog R), keeps_phase (exec R p)) ->
  keeps_phase (invoke_in_order code exec snapshot).
Proof.
  intros Hexec. induction snapshot as [|l rest IH]; simpl.
  - now intros w o w' [= <- <-].
  - apply keeps_phase_bind; [now apply keeps_phase_call|]. intros _. exact IH.
Qed.

(** X16: a listener that throws ends the notification.  When the
    reducer has returned [next] and the listeners before [listener] in the
    staging list have returned, an error thrown by [listener] comes out of
    [dispatch] as it is: the listeners after it are not called, the state
    the reducer returned has been stored before the first listener ran,
    and the store is idle. *)
Theorem throwing_listener_stops_notification
    fuel action w next w1 before listener after wb e wc :
  nextListeners w < length (arrays w) ->
  rejection plain action w = None ->
  call code (run REPLACE plain code fuel) (currentReducer w)
       [currentState w; action] (set_isDispatching true w) = Some (Ok next, w1) ->
  length (staging w) < fuel ->
  staging w = before ++ listener :: after ->
  invoke_in_order code (run REPLACE plain code fuel) before
    (set_currentListeners (nextListeners w)
       (set_isDispatching false (set_currentState next w1)))
  = Some (Ok tt, wb) ->
  call code (run REPLACE plain code fuel) listener [] wb = Some (Err e, wc) ->
  dispatch plain code (run REPLACE plain code fuel) fuel action w
  = Some (Err e, wc) /\
  getState (set_currentListeners (nextListeners w)
              (set_isDispatching false (set_currentState next w1)))
  = Some (Ok next,
          set_currentListeners (nextListeners w)
            (set_isDispatching false (set_currentState next w1))) /\
  isDispatching wc = false.
Proof.
  intros Hvalid Hrej Hcall Hfuel Hsplit Hbefore Hthrow.
  destruct (dispatch_passes REPLACE plain code fuel action w next w1 Hvalid Hrej Hcall Hfuel)
    as [_ ->].
  split.
  { rewrite Hsplit. unfold bind at 1. rewrite invoke_in_order_app.
    unfold bind at 1. rewrite Hbefore. simpl. unfold bind at 1.
    now rewrite Hthrow. }
  split; [reflexivity|].
  assert (Hb : isDispatching wb = false).
  { pose proof (keeps_phase_invoke (run REPLACE plain code fuel) before
                  (run_keeps_phase REPLACE plain code fuel) _ _ _ Hbefore) as H.
    exact H. }
  rewrite <- Hb.
  eapply (keeps_phase_call code); [|exact Hthrow].
  apply run_keeps_phase.
Qed.

(** X17: what [createStore(reducer, preloadedState)] builds when
    [preloadedState] is not a function (a function would be taken for the
    enhancer).  The reducer is called once, on [preloadedState] and a new
    action of type INIT, while the store is dispatching.  When it returns [next], the
    store is returned with [next] as its state, no listener, no
    registration, idle; when it throws, [createStore] throws the same
    error and no store is returned. *)
Theorem createStore_initialises fuel reducer preloadedState w :
  is_function reducer = true ->
  is_function preloadedState = false ->
  plain (next_id w) = true ->
  0 < fuel ->
  let action := VObj (next_id w) [("type", VStr INIT)] in
  let w0 := World reducer preloadedState 0 0 true [[]] [] (dispatchVar w)
                  (S (next_id w)) (console w) (variables w) in
  (forall next w1,
     call code (run REPLACE plain code fuel) reducer [preloadedState; action] w0
     = Some (Ok next, w1) ->
     exists w',
       createStore INIT REPLACE plain code enhancers fuel reducer
                   preloadedState VUndef w
       = Some (Ok base_store, w') /\
       getState w' = Some (Ok next, w') /\
       staging w' = [] /\
       closures w' = [] /\
       isDispatching w' = false) /\
  (forall e w1,
     call code (run REPLACE plain code fuel) reducer [preloadedState; action] w0
     = Some (Err e, w1) ->
     exists w',
       createStore INIT REPLACE plain code enhancers fuel reducer
                   preloadedState VUndef w
       = Some (Err e, w')).
Proof.
  intros Hf Hstate Hplain Hfuel action w0.
  set (wi := World reducer preloadedState 0 0 false [[]] [] (dispatchVar w)
                   (S (next_id w)) (console w) (variables w)).
  assert (Hrej : rejection plain action wi = None).
  { unfold rejection. simpl. now rewrite Hplain. }
  assert (Hcreate :
    createStore INIT REPLACE plain code enhancers fuel reducer
                   preloadedState VUndef w
    = (dispatch plain code (run REPLACE plain code fuel) fuel action ;;;
       ret base_store) wi).
  { rewrite createStore_without_enhancer by exact Hstate. now rewrite Hf. }
  split.
  - intros next w1 Hcall.
    destruct (dispatch_passes REPLACE plain code fuel action wi next w1) as [Hsame Hd];
      [simpl; lia|exact Hrej|exact Hcall|simpl; lia|].
    destruct Hsame as (_ & _ & _ & Hnext & Harr & Hclos & _).
    simpl in Hnext, Harr, Hclos.
    eexists. split.
    { rewrite Hcreate. unfold bind at 1. rewrite Hd. reflexivity. }
    split; [reflexivity|]. split.
    { unfold staging, array_at. simpl. now rewrite Hnext, Harr. }
    split; [exact Hclos|reflexivity].
  - intros e w1 Hcall.
    destruct (dispatch_fails REPLACE plain code fuel action wi e w1 Hrej Hcall) as [Hd _].
    eexists. rewrite Hcreate. unfold bind at 1. now rewrite Hd.
Qed.

(** X18: [replaceReducer(nextReducer)] on an idle store assigns the
    reducer first and then dispatches a new action of type REPLACE, so it
    is [nextReducer] that is called, on the current state.  When it
    returns [next], [next] is stored, the listeners of the staging list
    are notified in order and [undefined] is returned, not the action;
    when it throws, [replaceReducer] throws the same error and the state
    and the listeners stay, idle. *)
Theorem replaceReducer_dispatches_to_next_reducer fuel nextReducer w :
  is_function nextReducer = true ->
  isDispatching w = false ->
  plain (next_id w) = true ->
  nextListeners w < length (arrays w) ->
  length (staging w) < fuel ->
  let action := VObj (next_id w) [("type", VStr REPLACE)] in
  let w0 := set_isDispatching true
              (set_next_id (S (next_id w)) (set_currentReducer nextReducer w)) in
  (forall next w1,
     call code (run REPLACE plain code fuel) nextReducer
          [currentState w; action] w0 = Some (Ok next, w1) ->
     replaceReducer REPLACE plain code (run REPLACE plain code fuel) fuel
                    nextReducer w
     = (invoke_in_order code (run REPLACE plain code fuel) (staging w) ;;;
        ret VUndef)
         (set_currentListeners (nextListeners w)
            (set_isDispatching false (set_currentState next w1)))) /\
  (forall e w1,
     call code (run REPLACE plain code fuel) nextReducer
          [currentState w; action] w0 = Some (Err e, w1) ->
     replaceReducer REPLACE plain code (run REPLACE plain code fuel) fuel
                    nextReducer w
     = Some (Err e, set_isDispatching false w1) /\
     currentState (set_isDispatching false w1) = currentState w /\
     staging (set_isDispatching false w1) = staging w /\
     closures (set_isDispatching false w1) = closures w /\
     isDispatching (set_isDispatching false w1) = false).
Proof.
  intros Hf Hidle Hplain Hvalid Hfuel action w0.
  set (wi := set_next_id (S (next_id w)) (set_currentReducer nextReducer w)).
  assert (Hrej : rejection plain action wi = None).
  { unfold rejection. simpl. now rewrite Hplain, Hidle. }
  assert (Hreplace :
    replaceReducer REPLACE plain code (run REPLACE plain code fuel) fuel
                   nextReducer w
    = (dispatch plain code (run REPLACE plain code fuel) fuel action ;;;
       ret VUndef) wi).
  { unfold replaceReducer. rewrite Hf. reflexivity. }
  split.
  - intros next w1 Hcall.
    destruct (dispatch_passes REPLACE plain code fuel action wi next w1) as [_ Hd];
      [exact Hvalid|exact Hrej|exact Hcall|exact Hfuel|].
    rewrite Hreplace. unfold bind at 1. rewrite Hd.
    change (staging wi) with (staging w).
    change (nextListeners wi) with (nextListeners w).
    unfold bind.
    now destruct (invoke_in_order _ _ _ _) as [[[[]|e] w2]|].
  - intros e w1 Hcall.
    destruct (dispatch_fails REPLACE plain code fuel action wi e w1 Hrej Hcall)
      as [Hd (Hs & _ & _ & Hn & Ha & Hc & _)].
    split.
    { rewrite Hreplace. unfold bind at 1. now rewrite Hd. }
    split; [exact Hs|]. split.
    { unfold staging, array_at. now rewrite Hn, Ha. }
    split; [exact Hc|reflexivity].
Qed.

(** X19: the listeners of a store are the subscribed functions.  In a
    store made by [createStore] itself, with no enhancer, after any client
    code has run, the store is idle, every registration holds a function, and a function is in the
    staging list, which the next dispatch notifies, exactly when a closure
    that is still subscribed holds it, with one entry per such closure. *)
Theorem listeners_are_the_subscribed_functions
    fuel reducer preloadedState w s w0 fuel' R (p : prog R) o w' :
  is_function preloadedState = false ->
  createStore INIT REPLACE plain code enhancers fuel reducer preloadedState
    VUndef w = Some (Ok s, w0) ->
  run REPLACE plain code fuel' R p w0 = Some (o, w') ->
  isDispatching w' = false /\
  (forall u l b, closures w' !! u = Some (l, b) -> is_function l = true) /\
  (forall l, occurrences l (staging w') = active l (closures w')) /\
  (forall l, is_function l = true ->
     (In l (staging w') <-> exists u, closures w' !! u = Some (l, true))).
Proof.
  intros Hstate Hcreate Hrun.
  destruct (store_stays_registered REPLACE plain code INIT enhancers fuel
              reducer preloadedState w s w0 fuel' R p o w' Hstate Hcreate Hrun)
    as (Hidle & (Hvalid & Hfun & Hcount) & _).
  split; [exact Hidle|]. split.
  { intros u l b Hu. rewrite List.Forall_forall in Hfun.
    apply (Hfun (l, b)). apply list_elem_of_In.
    eapply list_elem_of_lookup_2, Hu. }
  split; [exact Hcount|].
  intros l Hf. rewrite (occurrences_In l _ Hf), Hcount. split.
  - intros Hpos. destruct (active_found l _ Hpos) as (u & x & Hu & Heq).
    apply strict_eq_function_eq in Heq; [|exact Hf]. subst x. now exists u.
  - intros [u Hu]. eapply active_positive; [exact Hu|].
    now apply strict_eq_function_refl.
Qed.

End WithEnvironment.

(** ** The facts on concrete stores *)

Definition reducing : world := set_isDispatching true fresh_store.

Lemma reentrant_calls_are_refused_witness :
  getState reducing = Some (Err (Error GetStateWhileReducing), reducing) /\
  (forall listener,
     subscribe listener reducing
     = Some (Err (Error (if is_function listener then SubscribeWhileReducing
                         else ExpectedListenerFunction)), reducing)) /\
  (forall u listener,
     closures reducing !! u = Some (listener, true) ->
     unsubscribe u reducing = Some (Err (Error UnsubscribeWhileReducing), reducing)) /\
  (forall exec n action type,
     isPlainObject demo_plain action = true ->
     get_prop action "type" = Ok type ->
     is_undefined type = false ->
     dispatch demo_plain demo_code exec n action reducing
     = Some (Err (Error ReducersMayNotDispatch), reducing)) /\
  (forall exec n nextReducer,
     is_function nextReducer = true ->
     demo_plain (next_id reducing) = true ->
     replaceReducer demo_REPLACE demo_plain demo_code exec n nextReducer reducing
     = Some (Err (Error ReducersMayNotDispatch),
             set_next_id (S (next_id reducing))
               (set_currentReducer nextReducer reducing))) /\
  (forall fuel R (p : prog R) o w',
     demo_run fuel R p reducing = Some (o, w') -> same_store reducing w').
Proof.
  apply (reentrant_calls_are_refused demo_REPLACE demo_plain demo_code reducing).
  reflexivity.
Defined.

Lemma non_functions_are_rejected_witness :
  (forall preloadedState,
     is_function preloadedState = false ->
     demo_createStore 5 (VNum 3) preloadedState VUndef fresh_store
     = Some (Err (Error ExpectedReducerFunction), fresh_store)) /\
  (forall reducer preloadedState,
     is_undefined (VNum 3) = false ->
     demo_createStore 5 reducer preloadedState (VNum 3) fresh_store
     = Some (Err (Error ExpectedEnhancerFunction), fresh_store)) /\
  (forall reducer g,
     is_function g = true ->
     demo_createStore 5 reducer g VUndef fresh_store
     = demo_createStore 5 reducer VUndef g fresh_store) /\
  subscribe (VNum 3) fresh_store
  = Some (Err (Error ExpectedListenerFunction), fresh_store) /\
  replaceReducer demo_REPLACE demo_plain demo_code (demo_run 5) 5 (VNum 3)
                 fresh_store
  = Some (Err (Error ExpectedNextReducerFunction), fresh_store).
Proof.
  apply (non_functions_are_rejected demo_INIT demo_REPLACE demo_plain demo_code
           demo_enhancers 5 (demo_run 5) (VNum 3) fresh_store).
  reflexivity.
Defined.

Lemma store_is_idle_after_every_call_witness :
  isDispatching fresh_store = false /\
  getState fresh_store = Some (Ok (currentState fresh_store), fresh_store) /\
  (forall action,
     rejection demo_plain action fresh_store
     <> Some (Error ReducersMayNotDispatch)) /\
  (forall n action o1 w1,
     demo_dispatch n action fresh_store = Some (o1, w1) ->
     isDispatching w1 = false).
Proof.
  apply (store_is_idle_after_every_call demo_REPLACE demo_plain demo_code
           9 value (Dispatch boom (fun _ => Ret VUndef)) fresh_store
           (Ok VUndef) fresh_store).
  - reflexivity.
  - reflexivity.
Defined.

Lemma listeners_are_copied_once_witness :
  exists w',
    ensureCanMutateNextListeners fresh_store = Some (Ok tt, w') /\
    nextListeners w' <> currentListeners w' /\
    currentListeners w' = currentListeners fresh_store /\
    staging w' = staging fresh_store /\
    array_at (currentListeners fresh_store) w'
    = array_at (currentListeners fresh_store) fresh_store /\
    (nextListeners fresh_store <> currentListeners fresh_store ->
     w' = fresh_store) /\
    ensureCanMutateNextListeners w' = Some (Ok tt, w').
Proof.
  apply (listeners_are_copied_once fresh_store); simpl; lia.
Defined.

(** [two_listeners] after a dispatch: both references on the same array. *)
Definition notified : world := set_currentListeners 1 two_listeners.

Lemma snapshot_is_never_written_witness :
  array_at 1
    (World (VFun 0) (VNum 0) 1 2 false
           [[]; [VFun 3; VFun 2]; [VFun 3; VFun 2; VFun 1]]
           [(VFun 3, true); (VFun 2, true); (VFun 1, true)] None 1 [] [])
  = array_at 1 notified.
Proof.
  apply (snapshot_is_never_written demo_REPLACE demo_plain demo_code 9 value
           (Subscribe (VFun 1) (fun _ => Ret VUndef)) notified (Ok VUndef)).
  - simpl. lia.
  - reflexivity.
Defined.

Lemma subscribe_then_unsubscribe_witness :
  exists u w1 w2,
    subscribe (VFun 4) f_g_f = Some (Ok (VUnsub u), w1) /\
    unsubscribe u w1 = Some (Ok VUndef, w2) /\
    (forall l, occurrences l (staging w2) = occurrences l (staging f_g_f)) /\
    length (staging w2) = length (staging f_g_f) /\
    (occurrences (VFun 4) (staging f_g_f) = 0 -> staging w2 = staging f_g_f) /\
    closures w2 = closures f_g_f ++ [(VFun 4, false)] /\
    registered w2 /\
    isDispatching w2 = false.
Proof.
  apply (subscribe_then_unsubscribe (VFun 4) f_g_f).
  - split; [simpl; lia|]. split; [repeat constructor|].
    intros l. unfold staging, array_at. simpl.
    destruct (strict_eq (VFun 1) l), (strict_eq (VFun 2) l); reflexivity.
  - reflexivity.
  - reflexivity.
Defined.

(** A counter [0] with three listeners: [1] and [3] log, [2] throws. *)
Definition faulty_code (f : nat) (args : list value) : prog value :=
  match f, args with
  | 0, [state; action] =>
      match state with
      | VNum n => Ret (VNum (n + 1))
      | _ => Ret (VNum 0)
      end
  | 1, _ => Log "L1" (Ret VUndef)
  | 2, _ => Throw (Thrown (VStr "oops"))
  | 3, _ => Log "L3" (Ret VUndef)
  | _, _ => Ret VUndef
  end.

Definition three_listeners : world :=
  World (VFun 0) (VNum 0) 0 1 false [[]; [VFun 1; VFun 2; VFun 3]]
        [(VFun 1, true); (VFun 2, true); (VFun 3, true)] None 1 [] [].

Definition after_first_listener : world :=
  World (VFun 0) (VNum 1) 1 1 false [[]; [VFun 1; VFun 2; VFun 3]]
        [(VFun 1, true); (VFun 2, true); (VFun 3, true)] None 1 ["L1"] [].

Lemma throwing_listener_stops_notification_witness :
  dispatch demo_plain faulty_code (run demo_REPLACE demo_plain faulty_code 5) 5
           inc three_listeners
  = Some (Err (Thrown (VStr "oops")), after_first_listener) /\
  getState (set_currentListeners (nextListeners three_listeners)
              (set_isDispatching false
                 (set_currentState (VNum 1)
                    (set_isDispatching true three_listeners))))
  = Some (Ok (VNum 1),
          set_currentListeners (nextListeners three_listeners)
            (set_isDispatching false
               (set_currentState (VNum 1)
                  (set_isDispatching true three_listeners)))) /\
  isDispatching after_first_listener = false.
Proof.
  apply (throwing_listener_stops_notification demo_REPLACE demo_plain
           faulty_code 5 inc three_listeners (VNum 1)
           (set_isDispatching true three_listeners)
           [VFun 1] (VFun 2) [VFun 3] after_first_listener
           (Thrown (VStr "oops")) after_first_listener).
  - simpl. lia.
  - reflexivity.
  - reflexivity.
  - simpl. lia.
  - reflexivity.
  - reflexivity.
  - reflexivity.
Defined.

Lemma createStore_initialises_witness :
  let action := VObj (next_id blank) [("type", VStr demo_INIT)] in
  let w0 := World (VFun 0) VUndef 0 0 true [[]] [] (dispatchVar blank)
                  (S (next_id blank)) (console blank) (variables blank) in
  (forall next w1,
     call demo_code (demo_run 5) (VFun 0) [VUndef; action] w0
     = Some (Ok next, w1) ->
     exists w',
       demo_createStore 5 (VFun 0) VUndef VUndef blank
       = Some (Ok base_store, w') /\
       getState w' = Some (Ok next, w') /\
       staging w' = [] /\
       closures w' = [] /\
       isDispatching w' = false) /\
  (forall e w1,
     call demo_code (demo_run 5) (VFun 0) [VUndef; action] w0
     = Some (Err e, w1) ->
     exists w',
       demo_createStore 5 (VFun 0) VUndef VUndef blank
       = Some (Err e, w')).
Proof.
  apply (createStore_initialises demo_INIT demo_REPLACE demo_plain demo_code
           demo_enhancers 5 (VFun 0) VUndef blank).
  - reflexivity.
  - reflexivity.
  - reflexivity.
  - lia.
Defined.

Lemma replaceReducer_dispatches_to_next_reducer_witness :
  let action := VObj (next_id two_listeners) [("type", VStr demo_REPLACE)] in
  let w0 := set_isDispatching true
              (set_next_id (S (next_id two_listeners))
                 (set_currentReducer (VFun 0) two_listeners)) in
  (forall next w1,
     call demo_code (demo_run 9) (VFun 0)
          [currentState two_listeners; action] w0 = Some (Ok next, w1) ->
     replaceReducer demo_REPLACE demo_plain demo_code (demo_run 9) 9 (VFun 0)
                    two_listeners
     = (invoke_in_order demo_code (demo_run 9) (staging two_listeners) ;;;
        ret VUndef)
         (set_currentListeners (nextListeners two_listeners)
            (set_isDispatching false (set_currentState next w1)))) /\
  (forall e w1,
     call demo_code (demo_run 9) (VFun 0)
          [currentState two_listeners; action] w0 = Some (Err e, w1) ->
     replaceReducer demo_REPLACE demo_plain demo_code (demo_run 9) 9 (VFun 0)
                    two_listeners
     = Some (Err e, set_isDispatching false w1) /\
     currentState (set_isDispatching false w1) = currentState two_listeners /\
     staging (set_isDispatching false w1) = staging two_listeners /\
     closures (set_isDispatching false w1) = closures two_listeners /\
     isDispatching (set_isDispatching false w1) = false).
Proof.
  apply (replaceReducer_dispatches_to_next_reducer demo_REPLACE demo_plain
           demo_code 9 (VFun 0) two_listeners).
  - reflexivity.
  - reflexivity.
  - reflexivity.
  - simpl. lia.
  - simpl. lia.
Defined.

(** The listeners are notified when the reducer is replaced. *)
Example replaceReducer_notifies :
  lines_of (replaceReducer demo_REPLACE demo_plain demo_code (demo_run 9) 9
              (VFun 0) two_listeners)
  = Some ["L3"; "L2"].
Proof. reflexivity. Qed.

Lemma listeners_are_the_subscribed_functions_witness :
  isDispatching two_listeners = false /\
  (forall u l b, closures two_listeners !! u = Some (l, b) ->
                 is_function l = true) /\
  (forall l, occurrences l (staging two_listeners)
             = active l (closures two_listeners)) /\
  (forall l, is_function l = true ->
     (In l (staging two_listeners) <->
      exists u, closures two_listeners !! u = Some (l, true))).
Proof.
  apply (listeners_are_the_subscribed_functions demo_INIT demo_REPLACE
           demo_plain demo_code demo_enhancers 5 (VFun 0) VUndef blank
           base_store fresh_store 5 value
           (Subscribe (VFun 3) (fun _ => Subscribe (VFun 2) (fun _ => Ret VUndef)))
           (Ok VUndef) two_listeners).
  - reflexivity.
  - reflexivity.
  - reflexivity.
Defined.

End StoreFacts.

(** * applyMiddleware.js: further facts *)

Module MiddlewareFacts.

Import Store Middleware.

(** ** Who assigns the [dispatch] variable *)

(** [m] leaves the variable as it is. *)
Definition keeps_variable {A : Type} (m : M A) : Prop :=
  forall w o w', m w = Some (o, w') -> dispatchVar w' = dispatchVar w.

Lemma keeps_variable_ret {A : Type} (a : A) : keeps_variable (ret a).
Proof. now intros w o w' [= <- <-]. Qed.

Lemma keeps_variable_throw {A : Type} (e : error) : keeps_variable (@throw A e).
Proof. now intros w o w' [= <- <-]. Qed.

Lemma keeps_variable_gets {A : Type} (f : world -> A) : keeps_variable (gets f).
Proof. now intros w o w' [= <- <-]. Qed.

Lemma keeps_variable_modify (f : world -> world) :
  (forall w, dispatchVar (f w) = dispatchVar w) -> keeps_variable (modify f).
Proof. intros Hf w o w' [= <- <-]. apply Hf. Qed.

Lemma keeps_variable_bind {A B : Type} (m : M A) (k : A -> M B) :
  keeps_variable m -> (forall a, keeps_variable (k a)) ->
  keeps_variable (bind m k).
Proof.
  intros Hm Hk w o w'. unfold bind.
  destruct (m w) as [[[a|e] w1]|] eqn:E; [| |discriminate].
  - intros H. rewrite (Hk a _ _ _ H). eapply Hm, E.
  - intros [= <- <-]. eapply Hm, E.
Qed.

Lemma keeps_variable_attempt {A : Type} (m : M A) :
  keeps_variable m -> keeps_variable (attempt m).
Proof.
  intros Hm w o w'. unfold attempt.
  destruct (m w) as [[o1 w1]|] eqn:E; [|discriminate].
  intros [= <- <-]. eapply Hm, E.
Qed.

Lemma keeps_variable_try_finally {A : Type} (m : M A) (fin : world -> world) :
  keeps_variable m -> (forall w, dispatchVar (fin w) = dispatchVar w) ->
  keeps_variable (try_finally m fin).
Proof.
  intros Hm Hfin w o w'. unfold try_finally.
  destruct (m w) as [[o1 w1]|] eqn:E; [|discriminate].
  intros [= <- <-]. rewrite Hfin. eapply Hm, E.
Qed.

(** One step through the structure of a computation. *)
Ltac keeps_step :=
  lazymatch goal with
  | |- keeps_variable (bind _ _) => apply keeps_variable_bind; [|intros ?]
  | |- keeps_variable (ret _) => apply keeps_variable_ret
  | |- keeps_variable (throw _) => apply keeps_variable_throw
  | |- keeps_variable (gets _) => apply keeps_variable_gets
  | |- keeps_variable (modify _) =>
      apply keeps_variable_modify; intros ?; reflexivity
  | |- keeps_variable (attempt _) => apply keeps_variable_attempt
  | |- keeps_variable (try_finally _ _) =>
      apply keeps_variable_try_finally; [|intros ?; reflexivity]
  | |- keeps_variable (if ?b then _ else _) => destruct b
  | |- keeps_variable (match ?x with _ => _ end) => destruct x
  end.

Lemma keeps_variable_alloc ps : keeps_variable (alloc ps).
Proof. unfold alloc. repeat keeps_step. Qed.

Lemma keeps_variable_ensure : keeps_variable ensureCanMutateNextListeners.
Proof. unfold ensureCanMutateNextListeners. repeat keeps_step. Qed.

Lemma keeps_variable_getState : keeps_variable getState.
Proof. unfold getState. repeat keeps_step. Qed.

Lemma keeps_variable_subscribe listener : keeps_variable (subscribe listener).
Proof.
  unfold subscribe.
  repeat first [apply keeps_variable_ensure | keeps_step].
Qed.

Lemma keeps_variable_unsubscribe u : keeps_variable (unsubscribe u).
Proof.
  unfold unsubscribe.
  repeat first [apply keeps_variable_ensure | keeps_step].
Qed.

Section Assignment.

Variable REPLACE : string.
Variable plain : nat -> bool.
Variable code : nat -> list value -> prog value.

Section WithExec.

Variable exec : forall R : Type, prog R -> M R.
Hypothesis exec_keeps : forall R (p : prog R), keeps_variable (exec R p).

Lemma keeps_variable_call f args : keeps_variable (call code exec f args).
Proof.
  destruct f; simpl; try apply keeps_variable_throw.
  - apply exec_keeps.
  - apply keeps_variable_unsubscribe.
Qed.

Lemma keeps_variable_notify n : forall listeners i,
  keeps_variable (notify code exec n listeners i).
Proof.
  induction n as [|n IH]; intros listeners i; simpl.
  - intros w o w'. discriminate.
  - repeat first [apply keeps_variable_call | apply IH | keeps_step].
Qed.

Lemma keeps_variable_dispatch n action :
  keeps_variable (dispatch plain code exec n action).
Proof.
  intros w o w'. unfold dispatch.
  destruct (rejection plain action w); [now intros [= <- <-]|].
  revert w o w'.
  change (keeps_variable
            (reduce code exec action ;;; notifyListeners code exec n ;;;
             ret action)).
  unfold reduce, notifyListeners.
  repeat first [apply keeps_variable_call | apply keeps_variable_notify
               | keeps_step].
Qed.

Lemma keeps_variable_replaceReducer n nextReducer :
  keeps_variable (replaceReducer REPLACE plain code exec n nextReducer).
Proof.
  unfold replaceReducer.
  repeat first [apply keeps_variable_alloc | apply keeps_variable_dispatch
               | keeps_step].
Qed.

End WithExec.

(** Client code never assigns the variable: only [applyMiddleware] does. *)
Lemma run_keeps_variable fuel :
  forall R (p : prog R), keeps_variable (run REPLACE plain code fuel R p).
Proof.
  induction fuel as [|f IH]; intros R p; simpl.
  - intros w o w'. discriminate.
  - destruct p; unfold enhancedDispatch;
      repeat first [apply IH | apply keeps_variable_getState
                   | apply keeps_variable_subscribe
                   | apply keeps_variable_call; [exact IH]
                   | apply keeps_variable_dispatch; [exact IH]
                   | apply keeps_variable_replaceReducer; [exact IH]
                   | keeps_step].
Qed.



(** X21: once [applyMiddleware] has returned, the [dispatch] of the
    middleware API is the composed dispatch of the store, for good:
    whatever client code has run since, the variable holds the [dispatch]
    of the returned store, and a call through the API runs it. *)
Theorem api_dispatch_is_the_composed_dispatch
    fuel middlewares (createStore : constructor) reducer preloadedState
    w s w' fuel' R (p : prog R) o w'' :
  applyMiddleware REPLACE plain code fuel middlewares createStore
                  reducer preloadedState w = Some (Ok s, w') ->
  run REPLACE plain code fuel' R p w' = Some (o, w'') ->
  dispatchVar w'' = Some (store_dispatch s) /\
  forall f action,
    enhancedDispatch (run REPLACE plain code f) action w''
    = run REPLACE plain code f value (store_dispatch s action) w''.
Proof.
  intros Happly Hrun.
  assert (Hvar : dispatchVar w' = Some (store_dispatch s)).
  { unfold applyMiddleware, bind, modify, ret in Happly.
    destruct (createStore reducer preloadedState w) as [[[base|e] w1]|];
      try discriminate.
    destruct (build_chain _ _ _ _ _ _ _) as [[[chain|e] w2]|]; try discriminate.
    now injection Happly as <- <-. }
  assert (Hvar' : dispatchVar w'' = Some (store_dispatch s)).
  { now rewrite (run_keeps_variable fuel' R p _ _ _ Hrun). }
  split; [exact Hvar'|].
  intros f action. unfold enhancedDispatch, bind, gets. now rewrite Hvar'.
Qed.

(** X22: [applyMiddleware()] without middleware changes nothing to the
    store: for every store constructor, the enhanced constructor returns a
    store with the methods of the store the constructor made, [dispatch]
    included, or fails as the constructor does; it only records that
    [dispatch] in its variable. *)
Theorem applyMiddleware_without_middleware
    fuel (createStore : constructor) reducer preloadedState w :
  applyMiddleware REPLACE plain code fuel [] createStore reducer preloadedState w
  = (store <- createStore reducer preloadedState ;;
     modify (set_dispatchVar (Some (store_dispatch store))) ;;;
     ret store) w.
Proof.
  unfold applyMiddleware, bind.
  destruct (createStore reducer preloadedState w) as [[[base|e] w1]|];
    try reflexivity.
  simpl. now destruct base.
Qed.

End Assignment.

(** ** The facts on the logging store *)

(** [createStore] with no enhancer, for the logging reducer. *)
Definition logging_create : constructor :=
  inner_create [].



(** The world of the logged store after [dispatch(inc)]. *)
Definition logged_after_inc : world :=
  world_of (option_map (fun r => (Ok base_store, snd r))
              (run demo_REPLACE demo_plain logging_code 9 value
                   (store_dispatch logged inc) logged_world)).

Lemma api_dispatch_is_the_composed_dispatch_witness :
  dispatchVar logged_after_inc = Some (store_dispatch logged) /\
  forall f action,
    enhancedDispatch (run demo_REPLACE demo_plain logging_code f) action
                     logged_after_inc
    = run demo_REPLACE demo_plain logging_code f value
          (store_dispatch logged action) logged_after_inc.
Proof.
  apply (api_dispatch_is_the_composed_dispatch demo_REPLACE demo_plain
           logging_code 9 [logger "m1"; logger "m2"] logging_create (VFun 0)
           VUndef blank logged logged_world 9 value
           (store_dispatch logged inc) (Ok inc) logged_after_inc).
  - reflexivity.
  - reflexivity.
Defined.

(** Without middleware the enhanced constructor makes the base store. *)
Example no_middleware_demo :
  option_map fst (demo_create []) = Some (Ok base_store) /\
  option_map fst (demo_create [])
  = option_map fst (logging_create (VFun 0) VUndef blank).
Proof. split; reflexivity. Qed.

End MiddlewareFacts.

